(** * Wormhole explorer: ingestion layer

  A shallow embedding of
  - [blockchain-watcher/src/infrastructure/repositories/evm/EvmJsonRPCBlockRepository.ts]
    ([getBlocks], [getFilteredLogs], [getTransactionReceipt], [divideIntoBatches]),
  - [blockchain-watcher/src/domain/actions/evm/GetEvmTransactions.ts]
    ([execute], [filterTransactions], [populateTransaction]),
  - [parser/queue/vaa_sqs.go] ([Consume], [Done], [Failed], [Close]),
  together with the properties of these functions that the design
  document states. *)

From Stdlib Require Import ZArith String Ascii List Lia Bool.
From Stdlib Require Import DecimalString HexadecimalString DecimalZ HexadecimalZ DecimalPos.
From stdpp Require Import base option list gmap strings.

Local Open Scope string_scope.
Local Open Scope Z_scope.
Local Open Scope list_scope.

(** ** The JavaScript primitives the TypeScript sources rely on

  Strings are byte strings, text being in UTF-8.  The addresses, hashes
  and topics handled by the repository are ASCII, so the ASCII fragment of
  [String.prototype.toLowerCase] is what is modelled. *)
Module Js.

Definition is_upper (c : ascii) : bool :=
  let n := nat_of_ascii c in (Nat.leb 65 n && Nat.leb n 90)%bool.

Definition lower_char (c : ascii) : ascii :=
  if is_upper c then ascii_of_nat (nat_of_ascii c + 32) else c.

(** [s.toLowerCase()] *)
Fixpoint toLowerCase (s : string) : string :=
  match s with
  | EmptyString => EmptyString
  | String c r => String (lower_char c) (toLowerCase r)
  end.

(** [String(v)] for a value that is a string or [null]. *)
Definition String_ (v : option string) : string :=
  match v with
  | Some s => s
  | None => "null"
  end.

(** [a.includes(x)] on an array of strings. *)
Definition includes (a : list string) (x : string) : bool :=
  existsb (String.eqb x) a.

(** [a.find(p)]: the first element satisfying [p]. *)
Definition find {A} (p : A -> bool) (a : list A) : option A := List.find p a.

(** Truthiness of a string-or-undefined value. *)
Definition truthy (v : option string) : bool :=
  match v with
  | Some s => negb (String.eqb s "")
  | None => false
  end.

(** [new Set(a)] as the list of its elements in insertion order. *)
Definition Set_of (a : list string) : list string :=
  fold_left (fun acc x => if includes acc x then acc else acc ++ [x]) a [].

(** White space recognised by [StringToBigInt], the code points of
    [WhiteSpace] and [LineTerminator], in UTF-8.  Those of one byte: the
    space and U+0009 to U+000D. *)
Definition is_space (c : ascii) : bool :=
  let n := nat_of_ascii c in
  (Nat.eqb n 32 || (Nat.leb 9 n && Nat.leb n 13))%bool.

(** Of two bytes: U+00A0. *)
Definition is_space2 (c1 c2 : ascii) : bool :=
  (Nat.eqb (nat_of_ascii c1) 194 && Nat.eqb (nat_of_ascii c2) 160)%bool.

(** Of three bytes: U+1680, U+2000 to U+200A, U+2028, U+2029, U+202F,
    U+205F, U+3000 and U+FEFF. *)
Definition is_space3 (c1 c2 c3 : ascii) : bool :=
  let n1 := nat_of_ascii c1 in
  let n2 := nat_of_ascii c2 in
  let n3 := nat_of_ascii c3 in
  ((Nat.eqb n1 225 && (Nat.eqb n2 154 && Nat.eqb n3 128))
   || (Nat.eqb n1 226
       && ((Nat.eqb n2 128
            && ((Nat.leb 128 n3 && Nat.leb n3 138)
                || Nat.eqb n3 168 || Nat.eqb n3 169 || Nat.eqb n3 175))
           || (Nat.eqb n2 129 && Nat.eqb n3 159)))
   || (Nat.eqb n1 227 && (Nat.eqb n2 128 && Nat.eqb n3 128))
   || (Nat.eqb n1 239 && (Nat.eqb n2 187 && Nat.eqb n3 191)))%bool.

Fixpoint trim_start (s : string) : string :=
  match s with
  | EmptyString => EmptyString
  | String c1 r1 =>
      if is_space c1 then trim_start r1
      else
        match r1 with
        | EmptyString => s
        | String c2 r2 =>
            if is_space2 c1 c2 then trim_start r2
            else
              match r2 with
              | EmptyString => s
              | String c3 r3 => if is_space3 c1 c2 c3 then trim_start r3 else s
              end
        end
  end.

(** The string is one white-space code point. *)
Definition is_one_space (s : string) : bool :=
  match s with
  | String c1 EmptyString => is_space c1
  | String c1 (String c2 EmptyString) => is_space2 c1 c2
  | String c1 (String c2 (String c3 EmptyString)) => is_space3 c1 c2 c3
  | _ => false
  end.

Fixpoint trim_end (s : string) : string :=
  match s with
  | EmptyString => EmptyString
  | String c r =>
      let r' := trim_end r in
      if is_one_space (String c r') then EmptyString else String c r'
  end.

Definition trim (s : string) : string := trim_end (trim_start s).

(** A code point of one byte that is not white space. *)
Definition plain (c : ascii) : bool :=
  (negb (is_space c) && Nat.ltb (nat_of_ascii c) 128)%bool.

(** [n.toString()] and [n.toString(16)] for a bigint [n]. *)
Definition toString (n : Z) : string :=
  DecimalString.NilZero.string_of_int (Z.to_int n).

Definition toString16 (n : Z) : string :=
  HexadecimalString.NilZero.string_of_int (Z.to_hex_int n).

Definition parse_hex (digits : string) : option Z :=
  option_map (fun d => Z.of_hex_uint d)
    (HexadecimalString.NilZero.uint_of_string (toLowerCase digits)).

Definition parse_signed_decimal (s : string) : option Z :=
  match s with
  | String "+" r =>
      option_map (fun d => Z.of_uint d) (DecimalString.NilZero.uint_of_string r)
  | _ => option_map Z.of_int (DecimalString.NilZero.int_of_string s)
  end.

(** The digits of an octal or binary literal, most significant first. *)
Fixpoint parse_radix (base : Z) (digits : string) (acc : Z) : option Z :=
  match digits with
  | EmptyString => Some acc
  | String c r =>
      let d := Z.of_nat (nat_of_ascii c) - 48 in
      if (0 <=? d) && (d <? base) then parse_radix base r (acc * base + d) else None
  end.

Definition parse_digits (base : Z) (digits : string) : option Z :=
  match digits with
  | EmptyString => None
  | _ => parse_radix base digits 0
  end.

(** [BigInt(s)] for a string [s]: [None] stands for the [SyntaxError] that
    is thrown when [s] is not an integer literal.  Decimal literals may be
    signed; hexadecimal, octal and binary ones carry the prefix [0x], [0o]
    or [0b] (in either case) and no sign; the empty string is zero. *)
Definition BigInt (s : string) : option Z :=
  match trim s with
  | EmptyString => Some 0
  | String "0" (String "x" r) => parse_hex r
  | String "0" (String "X" r) => parse_hex r
  | String "0" (String "o" r) => parse_digits 8 r
  | String "0" (String "O" r) => parse_digits 8 r
  | String "0" (String "b" r) => parse_digits 2 r
  | String "0" (String "B" r) => parse_digits 2 r
  | t => parse_signed_decimal t
  end.

(** [o[k] = v] on an object that was created by [{}], as the finite map of
    its own properties: the key [__proto__] reaches the setter inherited
    from [Object.prototype], which replaces the prototype of [o] by the
    object [v] and adds no property; any other key becomes, or stays, an
    own property holding [v]. *)
Definition set_own {A} (k : string) (v : A) (o : gmap string A) : gmap string A :=
  if String.eqb k "__proto__" then o else <[k := v]> o.

(** Used to state what the strings printed by [toString] look like. *)
Fixpoint all_chars (p : ascii -> bool) (s : string) : bool :=
  match s with
  | EmptyString => true
  | String c r => p c && all_chars p r
  end.

Definition is_digit (c : ascii) : bool :=
  let n := nat_of_ascii c in (Nat.leb 48 n && Nat.leb n 57)%bool.

End Js.

(** ** Exceptions and the call monad

    An [await]ed repository or HTTP call either yields a value or throws;
    the state threaded through is whatever the collaborator behind the
    interface keeps, so that two calls need not answer alike. *)

Inductive Exn : Type :=
| HttpClientError (status : Z)          (* rejected by [httpClient.post] *)
| SyntaxError (literal : string)        (* [BigInt] of a non-literal *)
| TypeError (what : string)             (* property read on [undefined] *)
| UnableToParseResult (method_ : string) (id : string)   (* one response *)
| UnableToParse (method_ : string) (count : nat).          (* whole reply *)

Inductive Result (A : Type) : Type :=
| Ok (a : A)
| Throw (e : Exn).
Arguments Ok {A} a.
Arguments Throw {A} e.

Definition M (S A : Type) : Type := S -> Result A * S.

Definition ret {S A} (a : A) : M S A := fun s => (Ok a, s).

Definition throw {S A} (e : Exn) : M S A := fun s => (Throw e, s).

Definition bind {S A B} (c : M S A) (k : A -> M S B) : M S B :=
  fun s =>
    match c s with
    | (Ok a, s') => k a s'
    | (Throw e, s') => (Throw e, s')
    end.

Definition lift {S A} (r : Result A) : M S A := fun s => (r, s).

Notation "'let*' x ':=' c 'in' k" := (bind c (fun x => k))
  (at level 10, x pattern, c at level 100, k at level 200).

(** ** Domain entities ([domain/entities]) *)

Record EvmTransactionLog : Type := {
  log_address : string;
  log_topics : option (list string);
  log_data : string
}.

Record ReceiptTransaction : Type := {
  receipt_status : string;
  receipt_transactionHash : string;
  receipt_logs : option (list EvmTransactionLog)
}.

(** The fields of a transaction that the use case reads or writes; [None]
    in [tx_to] and [tx_from] is [null] (a contract creation has no [to]). *)
Record EvmTransaction : Type := {
  tx_hash : string;
  tx_from : option string;
  tx_to : option string;
  tx_status : option string;
  tx_timestamp : option Z;
  tx_environment : option string;
  tx_chainId : option Z;
  tx_chain : option string;
  tx_logs : option (list EvmTransactionLog)
}.

Record EvmBlock : Type := {
  block_number : Z;
  block_hash : string;
  block_timestamp : Z;
  block_transactions : option (list EvmTransaction)
}.

Record GetEvmOpts : Type := {
  opts_addresses : option (list string);
  opts_topics : option (list string);
  opts_chain : string;
  opts_chainId : Z;
  opts_environment : string
}.

Record Range : Type := { fromBlock : Z; toBlock : Z }.

(** ** [EvmBlockRepository] ([domain/repositories]): the interface the use
    case is written against. *)

Class EvmBlockRepository (R : Type) : Type := {
  repo_getBlock : string -> Z -> bool -> M R EvmBlock;
  repo_getTransactionReceipt :
    string -> list string -> M R (gmap string ReceiptTransaction)
}.

Inductive RepoCall : Type :=
| CallGetBlock (chain : string) (block : Z) (isTransactionsPresent : bool)
| CallGetTransactionReceipt (chain : string) (hashNumbers : list string).

(** The repository together with the record of the calls made on it. *)
Record World (R : Type) : Type := { repo : R; calls : list RepoCall }.
Arguments repo {R} w.
Arguments calls {R} w.

Definition call {R A} (c : RepoCall) (op : M R A) : M (World R) A :=
  fun w =>
    let '(r, st) := op (repo w) in
    (r, {| repo := st; calls := calls w ++ [c] |}).

(** ** [GetEvmTransactions] ([domain/actions/evm/GetEvmTransactions.ts]) *)
Module GetEvmTransactions.

(** The predicate of the first filter of [execute]:
    [opts.addresses?.includes(String(transaction.to).toLowerCase()) ||
     opts.addresses?.includes(String(transaction.from).toLowerCase())]. *)
Definition address_configured (opts : GetEvmOpts) (transaction : EvmTransaction) : bool :=
  match opts_addresses opts with
  | None => false
  | Some addresses =>
      Js.includes addresses (Js.toLowerCase (Js.String_ (tx_to transaction)))
      || Js.includes addresses (Js.toLowerCase (Js.String_ (tx_from transaction)))
  end.

Definition transactionsByAddressConfigured
    (opts : GetEvmOpts) (transactions : list EvmTransaction) : list EvmTransaction :=
  List.filter (address_configured opts) transactions.

(** [receiptTransactions[transaction.hash]?.logs || []] *)
Definition receipt_logs_of
    (receiptTransactions : gmap string ReceiptTransaction) (transaction : EvmTransaction)
    : list EvmTransactionLog :=
  match receiptTransactions !! tx_hash transaction with
  | Some receipt =>
      match receipt_logs receipt with
      | Some logs => logs
      | None => []
      end
  | None => []
  end.

(** [optsTopics?.find((topic) => log.topics?.includes(topic))]: the value
    handed back to [some], a topic or [undefined]. *)
Definition find_topic (optsTopics : option (list string)) (log : EvmTransactionLog)
    : option string :=
  match optsTopics with
  | None => None
  | Some topics =>
      Js.find
        (fun topic =>
           match log_topics log with
           | Some log_topics => Js.includes log_topics topic
           | None => false
           end)
        topics
  end.

(** [filterTransactions]: [some] coerces what [find] returned to a boolean. *)
Definition filterTransactions
    (opts : GetEvmOpts)
    (transactionsByAddressConfigured : list EvmTransaction)
    (receiptTransactions : gmap string ReceiptTransaction) : list EvmTransaction :=
  List.filter
    (fun transaction =>
       let optsTopics := opts_topics opts in
       let logs := receipt_logs_of receiptTransactions transaction in
       existsb (fun log => Js.truthy (find_topic optsTopics log)) logs)
    transactionsByAddressConfigured.

(** The assignments of the body of [populateTransaction]'s [forEach]. *)
Definition populate_one
    (opts : GetEvmOpts) (evmBlock : EvmBlock) (receipt : ReceiptTransaction)
    (transaction : EvmTransaction) : EvmTransaction :=
  {| tx_hash := tx_hash transaction;
     tx_from := tx_from transaction;
     tx_to := tx_to transaction;
     tx_status := Some (receipt_status receipt);
     tx_timestamp := Some (block_timestamp evmBlock);
     tx_environment := Some (opts_environment opts);
     tx_chainId := Some (opts_chainId opts);
     tx_chain := Some (opts_chain opts);
     tx_logs := receipt_logs receipt |}.

(** [populateTransaction]: reading [.status] of a missing receipt throws. *)
Fixpoint populateTransaction
    (opts : GetEvmOpts) (evmBlock : EvmBlock)
    (receiptTransactions : gmap string ReceiptTransaction)
    (filterTransactions : list EvmTransaction)
    (populatedTransactions : list EvmTransaction) : Result (list EvmTransaction) :=
  match filterTransactions with
  | [] => Ok populatedTransactions
  | transaction :: rest =>
      match receiptTransactions !! tx_hash transaction with
      | None => Throw (TypeError "status")
      | Some receipt =>
          populateTransaction opts evmBlock receiptTransactions rest
            (populatedTransactions ++ [populate_one opts evmBlock receipt transaction])
      end
  end.

(** The body of the [for] loop of [execute], run [n] times from [block] on:
    [n] is the number of block numbers left in [[block, toBlock]]. *)
Fixpoint process_blocks {R} `{EvmBlockRepository R}
    (opts : GetEvmOpts) (n : nat) (block : Z)
    (populatedTransactions : list EvmTransaction)
    : M (World R) (list EvmTransaction) :=
  match n with
  | O => ret populatedTransactions
  | S n' =>
      let chain := opts_chain opts in
      let isTransactionsPresent := true in
      let* evmBlock :=
        call (CallGetBlock chain block isTransactionsPresent)
             (repo_getBlock chain block isTransactionsPresent) in
      let transactions := default [] (block_transactions evmBlock) in
      let byAddress := transactionsByAddressConfigured opts transactions in
      if (0 <? length byAddress)%nat then
        let hashNumbers := Js.Set_of (map tx_hash byAddress) in
        let* receiptTransactions :=
          call (CallGetTransactionReceipt chain hashNumbers)
               (repo_getTransactionReceipt chain hashNumbers) in
        let filtered := filterTransactions opts byAddress receiptTransactions in
        let* populated :=
          lift (populateTransaction opts evmBlock receiptTransactions
                  filtered populatedTransactions) in
        process_blocks opts n' (block + 1) populated
      else process_blocks opts n' (block + 1) populatedTransactions
  end.

(** [execute(range, opts)] *)
Definition execute {R} `{EvmBlockRepository R} (range : Range) (opts : GetEvmOpts)
    : M (World R) (list EvmTransaction) :=
  let fromBlock := fromBlock range in
  let toBlock := toBlock range in
  if fromBlock >? toBlock then ret []
  else process_blocks opts (Z.to_nat (toBlock - fromBlock + 1)) fromBlock [].

End GetEvmTransactions.

(** ** [EvmJsonRPCBlockRepository]
    ([infrastructure/repositories/evm/EvmJsonRPCBlockRepository.ts]) *)
Module EvmJsonRPCBlockRepository.

Definition HEXADECIMAL_PREFIX : string := "0x".

(** A field that may be absent, [null], or present. *)
Inductive Nullable (A : Type) : Type :=
| Undefined
| Null
| Value (a : A).
Arguments Undefined {A}.
Arguments Null {A}.
Arguments Value {A} a.

Record ErrorBlock : Type := { code : Z; message : string }.

(** A block as the node sends it: quantities are strings. *)
Record RawBlock : Type := {
  raw_hash : option string;
  raw_number : option string;
  raw_timestamp : option string
}.

(** [{ id: string; result?: EvmBlock; error?: ErrorBlock }] *)
Record BlockResponse : Type := {
  id : string;
  result : Nullable RawBlock;
  error : option ErrorBlock
}.

Record BlockRequest : Type := {
  breq_id : string;
  breq_method : string;
  breq_params : string * bool
}.

(** The [Log] type of the source file and the [EvmLog] it is turned into. *)
Record Log : Type := {
  blockNumber : string;
  blockHash : string;
  transactionIndex : Z;
  removed : bool;
  address : string;
  data : string;
  topics : list string;
  transactionHash : string;
  logIndex : Z
}.

Record EvmLog : Type := {
  evm_blockNumber : Z;
  evm_blockHash : string;
  evm_transactionIndex : string;
  evm_removed : bool;
  evm_address : string;
  evm_data : string;
  evm_topics : list string;
  evm_transactionHash : string;
  evm_logIndex : Z;
  evm_chainId : Z
}.

Record EvmLogFilter : Type := {
  filter_fromBlock : Z;
  filter_toBlock : Z;
  filter_addresses : list string;
  filter_topics : list string
}.

Record LogsRequest : Type := {
  lreq_topics : list string;
  lreq_address : list string;
  lreq_fromBlock : string;
  lreq_toBlock : string
}.

(** [{ result: Log[]; error?: ErrorBlock }] *)
Record LogsResponse : Type := {
  logs_result : option (list Log);
  logs_error : option ErrorBlock
}.

Record RawReceipt : Type := {
  raw_status : option string;
  raw_transactionHash : option string;
  raw_logs : option (list EvmTransactionLog)
}.

(** [ResultTransactionReceipt] *)
Record ResultTransactionReceipt : Type := {
  receipt_result : option RawReceipt;
  receipt_error : option ErrorBlock
}.

Record ReceiptRequest : Type := {
  rreq_id : Z;
  rreq_method : string;
  rreq_params : string
}.

Record PostOpts : Type := { post_timeout : Z; post_retries : Z }.

(** [HttpClient.post<T>], at the three result types it is used at.  A reply
    of [None] is an [undefined] body; an entry [None] of a batch reply is a
    [null] entry of the array. *)
Class HttpClient (H : Type) : Type := {
  post_blocks :
    string -> list BlockRequest -> PostOpts -> M H (option (list (option BlockResponse)));
  post_logs : string -> LogsRequest -> PostOpts -> M H (option LogsResponse);
  post_receipts :
    string -> list ReceiptRequest -> PostOpts
    -> M H (option (list (option ResultTransactionReceipt)))
}.

(** [ChainRPCConfig] and [EvmJsonRPCBlockRepositoryCfg] *)
Record ChainRPCConfig : Type := {
  cfg_chainId : Z;
  cfg_rpcs : list string;
  cfg_timeout : option Z;
  cfg_retries : option Z
}.

Record ChainCfg : Type := {
  chainId : Z;
  rpc : string;
  timeout : Z;
  retries : Z
}.

(** What the repository reads from its surroundings besides the node:
    [Date.now()] while the response at a given index is mapped, and
    [Number(s)] on a timestamp string. *)
Record Runtime : Type := {
  Date_now : nat -> Z;
  Number_ : string -> Z
}.

(** [getCurrentChain]: an unknown chain or an empty endpoint list throws.
    (Every configured endpoint string is taken to be a well-formed URL.) *)
Definition getCurrentChain (chains : gmap string ChainRPCConfig) (chain : string)
    : Result ChainCfg :=
  match chains !! chain with
  | None => Throw (TypeError "chainId")
  | Some cfg =>
      match cfg_rpcs cfg with
      | [] => Throw (TypeError "Invalid URL")
      | url :: _ =>
          Ok {| chainId := cfg_chainId cfg;
                rpc := url;
                timeout := default 10000 (cfg_timeout cfg);
                retries := default 2 (cfg_retries cfg) |}
      end
  end.

Definition post_opts (chainCfg : ChainCfg) : PostOpts :=
  {| post_timeout := timeout chainCfg; post_retries := retries chainCfg |}.

(** The request pushed for one block number in [getBlocks]. *)
Definition block_request (blockNumber : Z) : BlockRequest :=
  {| breq_id := Js.toString blockNumber;
     breq_method := "eth_getBlockByNumber";
     breq_params := ((HEXADECIMAL_PREFIX ++ Js.toString16 blockNumber)%string, false) |}.

(** The first test of the [map] callback of [getBlocks]:
    [(response && response.result === null) ||
     (response?.error && response.error?.code && response.error.code === 6969)]. *)
Definition is_unavailable (response : option BlockResponse) : bool :=
  match response with
  | None => false
  | Some r =>
      match result r with
      | Null => true
      | _ =>
          match error r with
          | Some e => code e =? 6969
          | None => false
          end
      end
  end.

(** The second test: a result with a hash, a number and a timestamp. *)
Definition parsed_block (rt : Runtime) (response : option BlockResponse)
    : option (Result EvmBlock) :=
  match response with
  | Some {| result := Value rb |} =>
      match raw_hash rb, raw_number rb, raw_timestamp rb with
      | Some h, Some n, Some t =>
          if Js.truthy (Some h) && Js.truthy (Some n) && Js.truthy (Some t) then
            Some match Js.BigInt n with
                 | Some number =>
                     Ok {| block_number := number;
                           block_hash := h;
                           block_timestamp := Number_ rt t;
                           block_transactions := None |}
                 | None => Throw (SyntaxError n)
                 end
          else None
      | _, _, _ => None
      end
  | _ => None
  end.

(** The callback of [results.map] in [getBlocks]. *)
Definition map_block_response
    (rt : Runtime) (reqs : list BlockRequest) (response : option BlockResponse) (idx : nat)
    : Result EvmBlock :=
  if is_unavailable response then
    match response with
    | Some r =>
        match Js.BigInt (id r) with
        | Some number =>
            Ok {| block_number := number;
                  block_hash := "";
                  block_timestamp := Date_now rt idx;
                  block_transactions := None |}
        | None => Throw (SyntaxError (id r))
        end
    | None => Throw (TypeError "id")
    end
  else
    match parsed_block rt response with
    | Some r => r
    | None =>
        match response with
        | Some r => Throw (UnableToParseResult "eth_getBlockByNumber" (id r))
        | None =>
            match reqs !! idx with
            | Some req => Throw (UnableToParseResult "eth_getBlockByNumber" (breq_id req))
            | None => Throw (TypeError "id")
            end
        end
    end.

(** [results.map(callback)]: the first throw ends the mapping. *)
Fixpoint map_block_responses
    (rt : Runtime) (reqs : list BlockRequest)
    (results : list (option BlockResponse)) (idx : nat) : Result (list EvmBlock) :=
  match results with
  | [] => Ok []
  | response :: rest =>
      match map_block_response rt reqs response idx with
      | Throw e => Throw e
      | Ok block =>
          match map_block_responses rt reqs rest (S idx) with
          | Throw e => Throw e
          | Ok blocks => Ok (block :: blocks)
          end
      end
  end.

(** [.reduce((acc, block) => { acc[block.hash] = block; return acc; }, {})] *)
Definition blocks_by_hash (blocks : list EvmBlock) : gmap string EvmBlock :=
  fold_left (fun acc block => Js.set_own (block_hash block) block acc) blocks ∅.

(** [getBlocks(chain, blockNumbers)]; the set is given by the list of its
    members in insertion order. *)
Definition getBlocks {H} `{HttpClient H}
    (rt : Runtime) (chains : gmap string ChainRPCConfig)
    (chain : string) (blockNumbers : list Z) : M H (gmap string EvmBlock) :=
  if (length blockNumbers =? 0)%nat then ret ∅
  else
    let reqs := map block_request blockNumbers in
    let* chainCfg := lift (getCurrentChain chains chain) in
    let* results := post_blocks (rpc chainCfg) reqs (post_opts chainCfg) in
    match results with
    | Some (r :: rs) =>
        let* blocks := lift (map_block_responses rt reqs (r :: rs) 0) in
        ret (blocks_by_hash blocks)
    | Some [] => throw (UnableToParse "eth_getBlockByNumber" 0)
    | None => throw (UnableToParse "eth_getBlockByNumber" 0)
    end.

(** The callback of [logs.map] in [getFilteredLogs]; [BigInt] may throw. *)
Definition map_log (chainCfg : ChainCfg) (log : Log) : Result EvmLog :=
  match Js.BigInt (blockNumber log) with
  | None => Throw (SyntaxError (blockNumber log))
  | Some n =>
      Ok {| evm_blockNumber := n;
            evm_blockHash := blockHash log;
            evm_transactionIndex := Js.toString (transactionIndex log);
            evm_removed := removed log;
            evm_address := address log;
            evm_data := data log;
            evm_topics := topics log;
            evm_transactionHash := transactionHash log;
            evm_logIndex := logIndex log;
            evm_chainId := chainId chainCfg |}
  end.

Fixpoint map_logs (chainCfg : ChainCfg) (logs : list Log) : Result (list EvmLog) :=
  match logs with
  | [] => Ok []
  | log :: rest =>
      match map_log chainCfg log with
      | Throw e => Throw e
      | Ok l =>
          match map_logs chainCfg rest with
          | Throw e => Throw e
          | Ok ls => Ok (l :: ls)
          end
      end
  end.

(** The [parsedFilters] of [getFilteredLogs]. *)
Definition parsedFilters (filter : EvmLogFilter) : LogsRequest :=
  {| lreq_topics := filter_topics filter;
     lreq_address := filter_addresses filter;
     lreq_fromBlock := (HEXADECIMAL_PREFIX ++ Js.toString16 (filter_fromBlock filter))%string;
     lreq_toBlock := (HEXADECIMAL_PREFIX ++ Js.toString16 (filter_toBlock filter))%string |}.

(** [getFilteredLogs(chain, filter)] *)
Definition getFilteredLogs {H} `{HttpClient H}
    (chains : gmap string ChainRPCConfig) (chain : string) (filter : EvmLogFilter)
    : M H (list EvmLog) :=
  let* chainCfg := lift (getCurrentChain chains chain) in
  let* response := post_logs (rpc chainCfg) (parsedFilters filter) (post_opts chainCfg) in
  let logs :=
    match response with
    | Some r => logs_result r
    | None => None
    end in
  match logs with
  | Some logs => lift (map_logs chainCfg logs)
  | None => ret []
  end.

(** [divideIntoBatches]: the [forEach] over the set, then the last batch. *)
Fixpoint fill_batches
    (batchSize : nat) (items : list string) (batch : list string)
    (batches : list (list string)) : list (list string) * list string :=
  match items with
  | [] => (batches, batch)
  | item :: rest =>
      let batch := batch ++ [item] in
      if (length batch =? batchSize)%nat
      then fill_batches batchSize rest [] (batches ++ [Js.Set_of batch])
      else fill_batches batchSize rest batch batches
  end.

Definition divideIntoBatches (set : list string) (batchSize : nat) : list (list string) :=
  let '(batches, batch) := fill_batches batchSize set [] [] in
  if (0 <? length batch)%nat then batches ++ [Js.Set_of batch] else batches.

(** The requests pushed for one batch, numbered from [id] on. *)
Fixpoint receipt_requests (batch : list string) (id : Z) : list ReceiptRequest :=
  match batch with
  | [] => []
  | hash :: rest =>
      {| rreq_id := id; rreq_method := "eth_getTransactionReceipt"; rreq_params := hash |}
      :: receipt_requests rest (id + 1)
  end.

(** [for (let result of results) { if (result) combinedResults.push(result) }] *)
Definition push_results
    (combinedResults : list ResultTransactionReceipt)
    (results : list (option ResultTransactionReceipt)) : list ResultTransactionReceipt :=
  fold_left
    (fun combined result =>
       match result with
       | Some r => combined ++ [r]
       | None => combined
       end)
    results combinedResults.

(** The [for (const batch of batches)] loop of [getTransactionReceipt]. *)
Fixpoint post_batches {H} `{HttpClient H}
    (chainCfg : ChainCfg) (batches : list (list string)) (id : Z)
    (combinedResults : list ResultTransactionReceipt)
    : M H (list ResultTransactionReceipt) :=
  match batches with
  | [] => ret combinedResults
  | batch :: rest =>
      let reqs := receipt_requests batch id in
      let* results := post_receipts (rpc chainCfg) reqs (post_opts chainCfg) in
      match results with
      | None => throw (TypeError "results is not iterable")
      | Some results =>
          post_batches chainCfg rest (id + Z.of_nat (length batch))
            (push_results combinedResults results)
      end
  end.

(** The callback of [combinedResults.map]. *)
Definition map_receipt (response : ResultTransactionReceipt) : Result ReceiptTransaction :=
  match receipt_result response with
  | Some r =>
      match raw_status r, raw_transactionHash r with
      | Some status, Some hash =>
          if Js.truthy (Some status) && Js.truthy (Some hash) then
            Ok {| receipt_status := status;
                  receipt_transactionHash := hash;
                  receipt_logs := raw_logs r |}
          else Throw (UnableToParseResult "eth_getTransactionReceipt" "")
      | _, _ => Throw (UnableToParseResult "eth_getTransactionReceipt" "")
      end
  | None => Throw (UnableToParseResult "eth_getTransactionReceipt" "")
  end.

Fixpoint map_receipts (combinedResults : list ResultTransactionReceipt)
    : Result (list ReceiptTransaction) :=
  match combinedResults with
  | [] => Ok []
  | response :: rest =>
      match map_receipt response with
      | Throw e => Throw e
      | Ok r =>
          match map_receipts rest with
          | Throw e => Throw e
          | Ok rs => Ok (r :: rs)
          end
      end
  end.

Definition receipts_by_hash (receipts : list ReceiptTransaction)
    : gmap string ReceiptTransaction :=
  fold_left (fun acc r => Js.set_own (receipt_transactionHash r) r acc) receipts ∅.

(** [getTransactionReceipt(chain, hashNumbers)] *)
Definition getTransactionReceipt {H} `{HttpClient H}
    (chains : gmap string ChainRPCConfig) (chain : string) (hashNumbers : list string)
    : M H (gmap string ReceiptTransaction) :=
  let* chainCfg := lift (getCurrentChain chains chain) in
  let batches := divideIntoBatches hashNumbers 10 in
  let* combinedResults := post_batches chainCfg batches 1 [] in
  match combinedResults with
  | _ :: _ =>
      let* receipts := lift (map_receipts combinedResults) in
      ret (receipts_by_hash receipts)
  | [] => throw (UnableToParse "eth_getTransactionReceipt" 0)
  end.

End EvmJsonRPCBlockRepository.

(** ** The VAA queue consumer ([parser/queue/vaa_sqs.go]) *)
Module Queue.

(** An SQS message as [GetMessages] returns it. *)
Record SqsMessage : Type := { Body : string; ReceiptHandle : string }.

(** The outer envelope: [sqsEvent.Message] holds the serialized event. *)
Record sqsEvent : Type := { Message : string }.

(** The counters of the [Metrics] interface
    ([tx-tracker/internal/metrics/metrics.go]), one per [Inc...] method, and
    the record of the increments made, each for a chain id. *)
Inductive Counter : Type :=
| VaaConsumedQueue
| VaaUnfiltered
| OriginTxInserted
| VaaWithoutTxHash
| VaaWithTxHashFixed.

#[global] Instance Counter_eq_dec : EqDecision Counter.
Proof. solve_decision. Defined.

Definition Metrics : Type := list (Counter * Z).

Definition counter_value (m : Metrics) (c : Counter) (chainID : Z) : nat :=
  length (List.filter (fun e => bool_decide (e = (c, chainID))) m).

(** What [json.Unmarshal] does on the two payloads, and the one field of
    [VaaEvent] the consumer reads; the event type itself is declared
    outside this file and is left open. *)
Record Codec (VaaEvent : Type) : Type := {
  ChainID : VaaEvent -> Z;
  unmarshal_sqsEvent : string -> option sqsEvent;
  unmarshal_vaaEvent : string -> option VaaEvent
}.
Arguments ChainID {VaaEvent}.
Arguments unmarshal_sqsEvent {VaaEvent}.
Arguments unmarshal_vaaEvent {VaaEvent}.

(** The fields of [SQS] fixed at construction, with the visibility timeout
    its [sqs.Consumer] reports. *)
Record SQS (VaaEvent : Type) : Type := {
  chSize : nat;
  filterConsume : VaaEvent -> bool;
  GetVisibilityTimeout : Z
}.
Arguments chSize {VaaEvent}.
Arguments filterConsume {VaaEvent}.
Arguments GetVisibilityTimeout {VaaEvent}.

(** [sqsConsumerMessage]: the fields that differ between messages (the
    wait group, logger, consumer and context are those of the queue). *)
Record sqsConsumerMessage (VaaEvent : Type) : Type := {
  msg_id : string;
  msg_data : VaaEvent;
  msg_expiredAt : Z
}.
Arguments msg_id {VaaEvent}.
Arguments msg_data {VaaEvent}.
Arguments msg_expiredAt {VaaEvent}.

(** Where the goroutine started by [Consume] stands. *)
Inductive PC (VaaEvent : Type) : Type :=
| AtGetMessages
    (* about to call [q.consumer.GetMessages(ctx)] *)
| InRange (messages : list SqsMessage) (expiredAt : Z)
    (* in [for _, msg := range messages], these messages left; with none
       left, at [q.wg.Wait()] *)
| AtSend (m : sqsConsumerMessage VaaEvent) (messages : list SqsMessage) (expiredAt : Z)
    (* after [q.wg.Add(1)], at [q.ch <- m] *)
| Panicked.
    (* send on a closed channel *)
Arguments AtGetMessages {VaaEvent}.
Arguments InRange {VaaEvent}.
Arguments AtSend {VaaEvent}.
Arguments Panicked {VaaEvent}.

(** The consumer goroutine, the wait group and channel it shares with the
    workers, and what has been done to the queue service and the metrics.
    [held] are the messages workers have received and not yet settled;
    [sent] and [settled] record the messages that entered the channel and
    those on which [Done] or [Failed] was called. *)
Record State (VaaEvent : Type) : Type := {
  pc : PC VaaEvent;
  wg : Z;
  ch : list (sqsConsumerMessage VaaEvent);
  closed : bool;
  held : list (sqsConsumerMessage VaaEvent);
  deleteCalls : list (string * bool);
  metrics : Metrics;
  errors : list string;
  fetches : nat;
  sent : list (sqsConsumerMessage VaaEvent);
  settled : list (sqsConsumerMessage VaaEvent)
}.
Arguments pc {VaaEvent}.
Arguments wg {VaaEvent}.
Arguments ch {VaaEvent}.
Arguments closed {VaaEvent}.
Arguments held {VaaEvent}.
Arguments deleteCalls {VaaEvent}.
Arguments metrics {VaaEvent}.
Arguments errors {VaaEvent}.
Arguments fetches {VaaEvent}.
Arguments sent {VaaEvent}.
Arguments settled {VaaEvent}.

(** [NewVAASQS]: nothing in flight, nothing fetched. *)
Definition NewVAASQS {VaaEvent} : State VaaEvent :=
  {| pc := AtGetMessages; wg := 0; ch := []; closed := false; held := [];
     deleteCalls := []; metrics := []; errors := []; fetches := 0%nat;
     sent := []; settled := [] |}.

(** What can happen next: a move of the consumer goroutine (with the answer
    of the queue service where it calls it), of a worker, or of the owner. *)
Inductive Event : Type :=
| GetMessagesFails
| GetMessagesReturns (messages : list SqsMessage) (now : Z)
| HandleMessage (deleteFails : bool)
| SendBuffered
| SendToReceiver
| SendPanics
| WaitReturns
| Receive
| Done (i : nat) (deleteFails : bool)
| Failed (i : nat)
| Close.

(** The queue service's answer to one [DeleteMessage(ctx, handle)]: the
    call is recorded, and a failure is logged by the caller. *)
Definition DeleteMessage {VaaEvent}
    (handle : string) (fails : bool) (s : State VaaEvent) : State VaaEvent :=
  {| pc := pc s; wg := wg s; ch := ch s; closed := closed s; held := held s;
     deleteCalls := deleteCalls s ++ [(handle, negb fails)];
     metrics := metrics s;
     errors := if fails then errors s ++ ["Error deleting message from SQS"] else errors s;
     fetches := fetches s; sent := sent s; settled := settled s |}.

(** The handles the queue service has deleted. *)
Definition deleted {VaaEvent} (s : State VaaEvent) : list string :=
  map fst (List.filter snd (deleteCalls s)).

Definition set_pc {VaaEvent} (p : PC VaaEvent) (s : State VaaEvent) : State VaaEvent :=
  {| pc := p; wg := wg s; ch := ch s; closed := closed s; held := held s;
     deleteCalls := deleteCalls s; metrics := metrics s; errors := errors s;
     fetches := fetches s; sent := sent s; settled := settled s |}.

Definition log_error {VaaEvent} (e : string) (s : State VaaEvent) : State VaaEvent :=
  {| pc := pc s; wg := wg s; ch := ch s; closed := closed s; held := held s;
     deleteCalls := deleteCalls s; metrics := metrics s; errors := errors s ++ [e];
     fetches := fetches s; sent := sent s; settled := settled s |}.

Definition inc {VaaEvent} (c : Counter) (chainID : Z) (s : State VaaEvent) : State VaaEvent :=
  {| pc := pc s; wg := wg s; ch := ch s; closed := closed s; held := held s;
     deleteCalls := deleteCalls s; metrics := metrics s ++ [(c, chainID)];
     errors := errors s; fetches := fetches s; sent := sent s; settled := settled s |}.

(** [wg.Add(delta)] and [wg.Done()] *)
Definition wg_Add {VaaEvent} (delta : Z) (s : State VaaEvent) : State VaaEvent :=
  {| pc := pc s; wg := wg s + delta; ch := ch s; closed := closed s; held := held s;
     deleteCalls := deleteCalls s; metrics := metrics s; errors := errors s;
     fetches := fetches s; sent := sent s; settled := settled s |}.

(** One pass through the body of [for _, msg := range messages], from the
    first [json.Unmarshal] to a [continue] or to the channel send. *)
Definition handle_message {VaaEvent}
    (codec : Codec VaaEvent) (q : SQS VaaEvent)
    (msg : SqsMessage) (rest : list SqsMessage) (expiredAt : Z) (deleteFails : bool)
    (s : State VaaEvent) : State VaaEvent :=
  match unmarshal_sqsEvent codec (Body msg) with
  | None =>
      set_pc (InRange rest expiredAt) (log_error "Error decoding message from SQS" s)
  | Some sqsEvent =>
      match unmarshal_vaaEvent codec (Message sqsEvent) with
      | None =>
          set_pc (InRange rest expiredAt)
            (log_error "Error decoding vaaEvent message from SQSEvent" s)
      | Some vaaEvent =>
          let s := inc VaaConsumedQueue (ChainID codec vaaEvent) s in
          if filterConsume q vaaEvent then
            set_pc (InRange rest expiredAt)
              (DeleteMessage (ReceiptHandle msg) deleteFails s)
          else
            let s := inc VaaUnfiltered (ChainID codec vaaEvent) s in
            let s := wg_Add 1 s in
            set_pc
              (AtSend {| msg_id := ReceiptHandle msg;
                         msg_data := vaaEvent;
                         msg_expiredAt := expiredAt |}
                      rest expiredAt)
              s
      end
  end.

(** The message leaves the consumer: into the buffer, or straight to a
    worker blocked in a receive. *)
Definition deliver {VaaEvent}
    (m : sqsConsumerMessage VaaEvent) (buffered : bool) (p : PC VaaEvent)
    (s : State VaaEvent) : State VaaEvent :=
  {| pc := p; wg := wg s;
     ch := if buffered then ch s ++ [m] else ch s;
     closed := closed s;
     held := if buffered then held s else held s ++ [m];
     deleteCalls := deleteCalls s; metrics := metrics s; errors := errors s;
     fetches := fetches s; sent := sent s ++ [m]; settled := settled s |}.

(** A worker is done with the [i]-th message it holds: [m.wg.Done()]. *)
Definition settle {VaaEvent}
    (i : nat) (m : sqsConsumerMessage VaaEvent) (s : State VaaEvent) : State VaaEvent :=
  {| pc := pc s; wg := wg s - 1; ch := ch s; closed := closed s;
     held := delete i (held s);
     deleteCalls := deleteCalls s; metrics := metrics s; errors := errors s;
     fetches := fetches s; sent := sent s; settled := settled s ++ [m] |}.

(** One step of the system; [None] when the event cannot happen in [s]
    (a blocked send or wait, an empty channel, no such held message).
    A worker calls [Done] or [Failed] on a message it has received, once:
    the message then leaves [held]. *)
Definition step {VaaEvent}
    (codec : Codec VaaEvent) (q : SQS VaaEvent) (e : Event) (s : State VaaEvent)
    : option (State VaaEvent) :=
  match e, pc s with
  | GetMessagesFails, AtGetMessages =>
      (* [if err != nil { log; continue }] *)
      Some (log_error "Error getting messages from SQS"
              {| pc := AtGetMessages; wg := wg s; ch := ch s; closed := closed s;
                 held := held s; deleteCalls := deleteCalls s; metrics := metrics s;
                 errors := errors s; fetches := S (fetches s);
                 sent := sent s; settled := settled s |})
  | GetMessagesReturns messages now, AtGetMessages =>
      Some {| pc := InRange messages (now + GetVisibilityTimeout q);
              wg := wg s; ch := ch s; closed := closed s;
              held := held s; deleteCalls := deleteCalls s; metrics := metrics s;
              errors := errors s; fetches := S (fetches s);
              sent := sent s; settled := settled s |}
  | HandleMessage deleteFails, InRange (msg :: rest) expiredAt =>
      Some (handle_message codec q msg rest expiredAt deleteFails s)
  | SendBuffered, AtSend m rest expiredAt =>
      if negb (closed s) && (length (ch s) <? chSize q)%nat
      then Some (deliver m true (InRange rest expiredAt) s)
      else None
  | SendToReceiver, AtSend m rest expiredAt =>
      if negb (closed s) && (length (ch s) =? 0)%nat
      then Some (deliver m false (InRange rest expiredAt) s)
      else None
  | SendPanics, AtSend m rest expiredAt =>
      if closed s then Some (set_pc Panicked s) else None
  | WaitReturns, InRange [] expiredAt =>
      (* [q.wg.Wait()] returns once the counter is zero *)
      if wg s =? 0 then Some (set_pc AtGetMessages s) else None
  | Receive, _ =>
      match ch s with
      | m :: rest =>
          Some {| pc := pc s; wg := wg s; ch := rest; closed := closed s;
                  held := held s ++ [m];
                  deleteCalls := deleteCalls s; metrics := metrics s;
                  errors := errors s; fetches := fetches s;
                  sent := sent s; settled := settled s |}
      | [] => None
      end
  | Done i deleteFails, _ =>
      match held s !! i with
      | Some m => Some (settle i m (DeleteMessage (msg_id m) deleteFails s))
      | None => None
      end
  | Failed i, _ =>
      match held s !! i with
      | Some m => Some (settle i m s)
      | None => None
      end
  | Close, _ =>
      if closed s then None
      else Some {| pc := pc s; wg := wg s; ch := ch s; closed := true;
                   held := held s; deleteCalls := deleteCalls s; metrics := metrics s;
                   errors := errors s; fetches := fetches s;
                   sent := sent s; settled := settled s |}
  | _, _ => None
  end.

(** A run: the events in order, from [s] on. *)
Fixpoint run {VaaEvent}
    (codec : Codec VaaEvent) (q : SQS VaaEvent) (events : list Event) (s : State VaaEvent)
    : option (State VaaEvent) :=
  match events with
  | [] => Some s
  | e :: rest =>
      match step codec q e s with
      | Some s' => run codec q rest s'
      | None => None
      end
  end.

End Queue.

(** ** Test doubles

    An in-memory repository and a scripted HTTP client, used to run the
    functions above on concrete inputs. *)

Record InMemoryRepo : Type := {
  mem_blocks : gmap Z EvmBlock;
  mem_receipts : gmap string ReceiptTransaction
}.

#[global] Instance InMemoryRepo_repository : EvmBlockRepository InMemoryRepo := {|
  repo_getBlock := fun _ block _ r =>
    match mem_blocks r !! block with
    | Some b => (Ok b, r)
    | None => (Throw (UnableToParseResult "eth_getBlockByNumber" (Js.toString block)), r)
    end;
  repo_getTransactionReceipt := fun _ _ r => (Ok (mem_receipts r), r)
|}.

(** The replies the node will give, in order, to each kind of request. *)
Record Script : Type := {
  block_replies :
    list (Result (option (list (option EvmJsonRPCBlockRepository.BlockResponse))));
  log_replies : list (Result (option EvmJsonRPCBlockRepository.LogsResponse));
  receipt_replies :
    list (Result (option (list (option EvmJsonRPCBlockRepository.ResultTransactionReceipt))))
}.

#[global] Instance Script_client : EvmJsonRPCBlockRepository.HttpClient Script := {|
  EvmJsonRPCBlockRepository.post_blocks := fun _ _ _ s =>
    match block_replies s with
    | r :: rest =>
        (r, {| block_replies := rest; log_replies := log_replies s;
               receipt_replies := receipt_replies s |})
    | [] => (Throw (HttpClientError 0), s)
    end;
  EvmJsonRPCBlockRepository.post_logs := fun _ _ _ s =>
    match log_replies s with
    | r :: rest =>
        (r, {| block_replies := block_replies s; log_replies := rest;
               receipt_replies := receipt_replies s |})
    | [] => (Throw (HttpClientError 0), s)
    end;
  EvmJsonRPCBlockRepository.post_receipts := fun _ _ _ s =>
    match receipt_replies s with
    | r :: rest =>
        (r, {| block_replies := block_replies s; log_replies := log_replies s;
               receipt_replies := rest |})
    | [] => (Throw (HttpClientError 0), s)
    end
|}.

Definition one_chain (name : string) (url : string) (chainId : Z)
    : gmap string EvmJsonRPCBlockRepository.ChainRPCConfig :=
  {[ name := {| EvmJsonRPCBlockRepository.cfg_chainId := chainId;
                EvmJsonRPCBlockRepository.cfg_rpcs := [url];
                EvmJsonRPCBlockRepository.cfg_timeout := None;
                EvmJsonRPCBlockRepository.cfg_retries := None |} ]}.

Definition empty_repo : World InMemoryRepo :=
  {| repo := {| mem_blocks := ∅; mem_receipts := ∅ |}; calls := [] |}.

Definition bridge_opts (addresses topics : list string) : GetEvmOpts :=
  {| opts_addresses := Some addresses;
     opts_topics := Some topics;
     opts_chain := "ethereum";
     opts_chainId := 2;
     opts_environment := "testnet" |}.

Definition plain_tx (hash : string) (from to : option string) : EvmTransaction :=
  {| tx_hash := hash; tx_from := from; tx_to := to; tx_status := None;
     tx_timestamp := None; tx_environment := None; tx_chainId := None;
     tx_chain := None; tx_logs := None |}.

Definition receipt_with_topics (hash : string) (topics : list string) : ReceiptTransaction :=
  {| receipt_status := "0x1";
     receipt_transactionHash := hash;
     receipt_logs :=
       Some [ {| log_address := "0xab"; log_topics := Some topics; log_data := "0x" |} ] |}.


Definition log_at (number : string) : EvmJsonRPCBlockRepository.Log :=
  {| EvmJsonRPCBlockRepository.blockNumber := number;
     EvmJsonRPCBlockRepository.blockHash := "0xb1";
     EvmJsonRPCBlockRepository.transactionIndex := 0;
     EvmJsonRPCBlockRepository.removed := false;
     EvmJsonRPCBlockRepository.address := "0xab";
     EvmJsonRPCBlockRepository.data := "0x";
     EvmJsonRPCBlockRepository.topics := ["0xcd"];
     EvmJsonRPCBlockRepository.transactionHash := "0x01";
     EvmJsonRPCBlockRepository.logIndex := 0 |}.

Definition logs_script (logs : list EvmJsonRPCBlockRepository.Log) : Script :=
  {| block_replies := [];
     log_replies :=
       [Ok (Some {| EvmJsonRPCBlockRepository.logs_result := Some logs;
                    EvmJsonRPCBlockRepository.logs_error := None |})];
     receipt_replies := [] |}.

Definition no_script : Script :=
  {| block_replies := []; log_replies := []; receipt_replies := [] |}.

Definition range_filter (from to : Z) : EvmJsonRPCBlockRepository.EvmLogFilter :=
  {| EvmJsonRPCBlockRepository.filter_fromBlock := from;
     EvmJsonRPCBlockRepository.filter_toBlock := to;
     EvmJsonRPCBlockRepository.filter_addresses := ["0xab"];
     EvmJsonRPCBlockRepository.filter_topics := ["0xcd"] |}.

(** ** Vocabulary of the statements about [getBlocks] *)

(** The block [getBlocks] makes up for a block the node could not give. *)
Definition degraded_block (number : Z) (now : Z) : EvmBlock :=
  {| block_number := number;
     block_hash := "";
     block_timestamp := now;
     block_transactions := None |}.

(** The response has a [null] result, or its error carries code 6969. *)
Definition unavailable (r : EvmJsonRPCBlockRepository.BlockResponse) : Prop :=
  EvmJsonRPCBlockRepository.result r = EvmJsonRPCBlockRepository.Null
  \/ exists e, EvmJsonRPCBlockRepository.error r = Some e
               /\ EvmJsonRPCBlockRepository.code e = 6969.

(** The response is not of that kind and carries a block with a hash, a
    number and a timestamp, none of them empty; [b] is that block as the
    repository hands it on: the hash as it came, the integer value of the
    number, [Number] of the timestamp, and no transactions. *)
Definition block_of
    (rt : EvmJsonRPCBlockRepository.Runtime)
    (r : EvmJsonRPCBlockRepository.BlockResponse) (b : EvmBlock) : Prop :=
  ~ unavailable r
  /\ exists rb number timestamp,
       EvmJsonRPCBlockRepository.result r = EvmJsonRPCBlockRepository.Value rb
       /\ EvmJsonRPCBlockRepository.raw_hash rb = Some (block_hash b)
       /\ block_hash b <> ""
       /\ EvmJsonRPCBlockRepository.raw_number rb = Some number
       /\ number <> ""
       /\ Js.BigInt number = Some (block_number b)
       /\ EvmJsonRPCBlockRepository.raw_timestamp rb = Some timestamp
       /\ timestamp <> ""
       /\ block_timestamp b = EvmJsonRPCBlockRepository.Number_ rt timestamp
       /\ block_transactions b = None.

(** The block that the response at index [idx] of a reply stands for: the
    degraded block numbered by the response's id, stamped with the time at
    which that response is handled, when the block is unavailable and the id
    is an integer literal; the block it carries otherwise. *)
Definition recovered_or_parsed
    (rt : EvmJsonRPCBlockRepository.Runtime) (idx : nat)
    (response : option EvmJsonRPCBlockRepository.BlockResponse) (b : EvmBlock) : Prop :=
  exists r,
    response = Some r
    /\ ((unavailable r
         /\ exists n, Js.BigInt (EvmJsonRPCBlockRepository.id r) = Some n
                      /\ b = degraded_block n (EvmJsonRPCBlockRepository.Date_now rt idx))
        \/ block_of rt r b).

(** What a record built by storing each item of [items], in order, under
    its key holds under [k]: the last item with that key, and nothing under
    [__proto__]. *)
Definition stored_under {A} (key : A -> string) (k : string) (items : list A) : option A :=
  if String.eqb k "__proto__" then None
  else last (List.filter (fun x => String.eqb (key x) k) items).

(** The response carries a block. *)
Definition carries_block
    (rt : EvmJsonRPCBlockRepository.Runtime)
    (response : option EvmJsonRPCBlockRepository.BlockResponse) : Prop :=
  exists r b, response = Some r /\ block_of rt r b.

(** The block is stored under the empty string. *)
Definition empty_hash (b : EvmBlock) : bool := String.eqb (block_hash b) "".

Definition test_runtime : EvmJsonRPCBlockRepository.Runtime :=
  {| EvmJsonRPCBlockRepository.Date_now := fun idx => 1700000000000 + Z.of_nat idx;
     EvmJsonRPCBlockRepository.Number_ := fun s => default 0 (Js.BigInt s) |}.

Definition null_response (id : string) : EvmJsonRPCBlockRepository.BlockResponse :=
  {| EvmJsonRPCBlockRepository.id := id;
     EvmJsonRPCBlockRepository.result := EvmJsonRPCBlockRepository.Null;
     EvmJsonRPCBlockRepository.error := None |}.

Definition error_response (id : string) (code : Z) : EvmJsonRPCBlockRepository.BlockResponse :=
  {| EvmJsonRPCBlockRepository.id := id;
     EvmJsonRPCBlockRepository.result := EvmJsonRPCBlockRepository.Undefined;
     EvmJsonRPCBlockRepository.error :=
       Some {| EvmJsonRPCBlockRepository.code := code;
               EvmJsonRPCBlockRepository.message := "No response received from RPC endpoint in 60s" |} |}.

Definition block_response (id hash number timestamp : string)
    : EvmJsonRPCBlockRepository.BlockResponse :=
  {| EvmJsonRPCBlockRepository.id := id;
     EvmJsonRPCBlockRepository.result :=
       EvmJsonRPCBlockRepository.Value
         {| EvmJsonRPCBlockRepository.raw_hash := Some hash;
            EvmJsonRPCBlockRepository.raw_number := Some number;
            EvmJsonRPCBlockRepository.raw_timestamp := Some timestamp |};
     EvmJsonRPCBlockRepository.error := None |}.

Definition blocks_script
    (results : list (option EvmJsonRPCBlockRepository.BlockResponse)) : Script :=
  {| block_replies := [Ok (Some results)]; log_replies := []; receipt_replies := [] |}.

Definition receipt_response (status hash : string)
    : EvmJsonRPCBlockRepository.ResultTransactionReceipt :=
  {| EvmJsonRPCBlockRepository.receipt_result :=
       Some {| EvmJsonRPCBlockRepository.raw_status := Some status;
               EvmJsonRPCBlockRepository.raw_transactionHash := Some hash;
               EvmJsonRPCBlockRepository.raw_logs := Some [] |};
     EvmJsonRPCBlockRepository.receipt_error := None |}.

(** The answer of a node that does not know the transaction. *)
Definition not_found_response : EvmJsonRPCBlockRepository.ResultTransactionReceipt :=
  {| EvmJsonRPCBlockRepository.receipt_result := None;
     EvmJsonRPCBlockRepository.receipt_error := None |}.

Definition receipts_script
    (replies : list (list (option EvmJsonRPCBlockRepository.ResultTransactionReceipt)))
    : Script :=
  {| block_replies := [];
     log_replies := [];
     receipt_replies := map (fun reply => Ok (Some reply)) replies |}.

(** ** Vocabulary of the statements about [getFilteredLogs] and
    [getTransactionReceipt] *)

(** The log [e] is the log [l] of the node's reply as [getFilteredLogs]
    returns it: the integer value of its block number, its transaction
    index in decimal, the chain id of the configuration, and its other
    fields as they came. *)
Definition log_returned
    (chainCfg : EvmJsonRPCBlockRepository.ChainCfg)
    (l : EvmJsonRPCBlockRepository.Log) (e : EvmJsonRPCBlockRepository.EvmLog) : Prop :=
  Js.BigInt (EvmJsonRPCBlockRepository.blockNumber l)
    = Some (EvmJsonRPCBlockRepository.evm_blockNumber e)
  /\ EvmJsonRPCBlockRepository.evm_blockHash e = EvmJsonRPCBlockRepository.blockHash l
  /\ EvmJsonRPCBlockRepository.evm_transactionIndex e
     = Js.toString (EvmJsonRPCBlockRepository.transactionIndex l)
  /\ EvmJsonRPCBlockRepository.evm_removed e = EvmJsonRPCBlockRepository.removed l
  /\ EvmJsonRPCBlockRepository.evm_address e = EvmJsonRPCBlockRepository.address l
  /\ EvmJsonRPCBlockRepository.evm_data e = EvmJsonRPCBlockRepository.data l
  /\ EvmJsonRPCBlockRepository.evm_topics e = EvmJsonRPCBlockRepository.topics l
  /\ EvmJsonRPCBlockRepository.evm_transactionHash e
     = EvmJsonRPCBlockRepository.transactionHash l
  /\ EvmJsonRPCBlockRepository.evm_logIndex e = EvmJsonRPCBlockRepository.logIndex l
  /\ EvmJsonRPCBlockRepository.evm_chainId e = EvmJsonRPCBlockRepository.chainId chainCfg.

(** The block number lies within the filter's range. *)
Definition in_filter_range (filter : EvmJsonRPCBlockRepository.EvmLogFilter) (n : Z) : Prop :=
  EvmJsonRPCBlockRepository.filter_fromBlock filter <= n
  <= EvmJsonRPCBlockRepository.filter_toBlock filter.

(** The response carries a receipt with a status and a transaction hash,
    neither of them empty, and [r] is that receipt: status, hash and logs
    as they came. *)
Definition receipt_of
    (response : EvmJsonRPCBlockRepository.ResultTransactionReceipt)
    (r : ReceiptTransaction) : Prop :=
  exists raw,
    EvmJsonRPCBlockRepository.receipt_result response = Some raw
    /\ EvmJsonRPCBlockRepository.raw_status raw = Some (receipt_status r)
    /\ receipt_status r <> ""
    /\ EvmJsonRPCBlockRepository.raw_transactionHash raw = Some (receipt_transactionHash r)
    /\ receipt_transactionHash r <> ""
    /\ receipt_logs r = EvmJsonRPCBlockRepository.raw_logs raw.

(** The response cannot be parsed: it stands for no receipt. *)
Definition unparsable
    (response : EvmJsonRPCBlockRepository.ResultTransactionReceipt) : Prop :=
  forall r, ~ receipt_of response r.

(** The node answers the batches of a [getTransactionReceipt] call, posted
    one after the other with request ids counting on from [id], with the
    arrays [replies], one per batch, and is taken from [h] to [h']. *)
Inductive batches_answered {H} `{EvmJsonRPCBlockRepository.HttpClient H}
    (chainCfg : EvmJsonRPCBlockRepository.ChainCfg)
    : list (list string) -> Z -> H
      -> list (list (option EvmJsonRPCBlockRepository.ResultTransactionReceipt)) -> H
      -> Prop :=
| answered_nil (id : Z) (h : H) : batches_answered chainCfg [] id h [] h
| answered_cons (batch : list string) (rest : list (list string)) (id : Z) (h h1 h' : H)
    (results : list (option EvmJsonRPCBlockRepository.ResultTransactionReceipt))
    (replies : list (list (option EvmJsonRPCBlockRepository.ResultTransactionReceipt))) :
    EvmJsonRPCBlockRepository.post_receipts (EvmJsonRPCBlockRepository.rpc chainCfg)
      (EvmJsonRPCBlockRepository.receipt_requests batch id)
      (EvmJsonRPCBlockRepository.post_opts chainCfg) h
    = (Ok (Some results), h1) ->
    batches_answered chainCfg rest (id + Z.of_nat (length batch)) h1 replies h' ->
    batches_answered chainCfg (batch :: rest) id h (results :: replies) h'.

(** The responses of all the replies that are not [null], in order. *)
Definition non_null_responses
    (replies : list (list (option EvmJsonRPCBlockRepository.ResultTransactionReceipt)))
    : list EvmJsonRPCBlockRepository.ResultTransactionReceipt :=
  omap (fun response => response) (concat replies).

(** ** Vocabulary of the statements about [filterTransactions] *)

(** A log of the receipt stored under the transaction's hash carries the
    topic [t]. *)
Definition receipt_log_has_topic
    (receipts : gmap string ReceiptTransaction) (tx : EvmTransaction) (t : string) : Prop :=
  exists receipt logs log lt,
    receipts !! tx_hash tx = Some receipt
    /\ receipt_logs receipt = Some logs
    /\ In log logs
    /\ log_topics log = Some lt
    /\ In t lt.

(** [t] is one of the configured topics. *)
Definition configured_topic (opts : GetEvmOpts) (t : string) : Prop :=
  exists topics, opts_topics opts = Some topics /\ In t topics.

(** ** Vocabulary of the statements about the queue consumer *)

(** The event is a call of [q.consumer.GetMessages]. *)
Definition is_GetMessages (e : Queue.Event) : bool :=
  match e with
  | Queue.GetMessagesFails | Queue.GetMessagesReturns _ _ => true
  | _ => false
  end.

(** One for the message that was counted by [wg.Add(1)] and is still to
    enter the channel. *)
Definition in_send {VaaEvent} (p : Queue.PC VaaEvent) : nat :=
  match p with
  | Queue.AtSend _ _ _ => 1
  | _ => 0
  end.

(** What every reachable state of the consumer satisfies: the wait group
    counts the messages between [wg.Add(1)] and [Done]/[Failed]; a message
    that entered the channel is settled, held by a worker or still in the
    buffer; and the counter is zero whenever the loop is about to fetch. *)
Record Consumer_inv {VaaEvent} (s : Queue.State VaaEvent) : Prop := {
  inv_counter :
    Queue.pc s <> Queue.Panicked ->
    Queue.wg s
    = Z.of_nat (length (Queue.ch s) + length (Queue.held s) + in_send (Queue.pc s));
  inv_sent : Queue.sent s ≡ₚ Queue.settled s ++ Queue.held s ++ Queue.ch s;
  inv_idle : Queue.pc s = Queue.AtGetMessages -> Queue.wg s = 0
}.

(** A codec and a queue for running the consumer on concrete messages: an
    event is its chain id, written in decimal in the envelope's message; an
    empty body is no envelope; events of chain 0 are filtered out. *)
Definition test_codec : Queue.Codec Z :=
  {| Queue.ChainID := fun v => v;
     Queue.unmarshal_sqsEvent := fun body =>
       if String.eqb body "" then None else Some {| Queue.Message := body |};
     Queue.unmarshal_vaaEvent := fun message =>
       if String.eqb message "" then None else Js.BigInt message |}.

Definition test_queue : Queue.SQS Z :=
  {| Queue.chSize := 10;
     Queue.filterConsume := fun v => v =? 0;
     Queue.GetVisibilityTimeout := 30 |}.

Definition sqs_message (body handle : string) : Queue.SqsMessage :=
  {| Queue.Body := body; Queue.ReceiptHandle := handle |}.

(** The consumer inside a batch, [messages] still to be handled. *)
Definition in_range (messages : list Queue.SqsMessage) : Queue.State Z :=
  {| Queue.pc := Queue.InRange messages 1030;
     Queue.wg := 0; Queue.ch := []; Queue.closed := false; Queue.held := [];
     Queue.deleteCalls := []; Queue.metrics := []; Queue.errors := [];
     Queue.fetches := 1%nat; Queue.sent := []; Queue.settled := [] |}.

(** ** [getBlock] and [getBlockHeight] of [EvmJsonRPCBlockRepository] *)
Module EvmJsonRPCBlock.

(** [EvmTag | bigint] *)
Inductive BlockNumberOrTag : Type :=
| Tag (tag : string)
| Number (blockNumber : Z).

(** The block of a single-block reply: the header fields as strings and
    the transactions, which are handed on as they are. *)
Record RawFullBlock : Type := {
  full_header : EvmJsonRPCBlockRepository.RawBlock;
  full_transactions : option (list EvmTransaction)
}.

(** [{ result?: EvmBlock; error?: ErrorBlock }] *)
Record BlockReply : Type := {
  reply_result : EvmJsonRPCBlockRepository.Nullable RawFullBlock;
  reply_error : option EvmJsonRPCBlockRepository.ErrorBlock
}.

(** [HttpClient.post<T>] at the result type of [getBlock]; the request is
    given by its [params]. *)
Class BlockClient (H : Type) : Type := {
  post_block :
    string -> string * bool -> EvmJsonRPCBlockRepository.PostOpts -> M H (option BlockReply)
}.

Definition blockNumberParam (blockNumberOrTag : BlockNumberOrTag) : string :=
  match blockNumberOrTag with
  | Number n => (EvmJsonRPCBlockRepository.HEXADECIMAL_PREFIX ++ Js.toString16 n)%string
  | Tag t => t
  end.

(** How the error message names the block asked for. *)
Definition describe (blockNumberOrTag : BlockNumberOrTag) : string :=
  match blockNumberOrTag with
  | Number n => Js.toString n
  | Tag t => t
  end.

(** [getBlock(chain, blockNumberOrTag, isTransactionsPresent)] *)
Definition getBlock {H} `{BlockClient H}
    (rt : EvmJsonRPCBlockRepository.Runtime)
    (chains : gmap string EvmJsonRPCBlockRepository.ChainRPCConfig)
    (chain : string) (blockNumberOrTag : BlockNumberOrTag) (isTransactionsPresent : bool)
    : M H EvmBlock :=
  let* chainCfg := lift (EvmJsonRPCBlockRepository.getCurrentChain chains chain) in
  let* response :=
    post_block (EvmJsonRPCBlockRepository.rpc chainCfg)
      (blockNumberParam blockNumberOrTag, isTransactionsPresent)
      (EvmJsonRPCBlockRepository.post_opts chainCfg) in
  let unparsable :=
    throw (UnableToParseResult "eth_getBlockByNumber" (describe blockNumberOrTag)) in
  match response with
  | Some {| reply_result := EvmJsonRPCBlockRepository.Value result |} =>
      let header := full_header result in
      match EvmJsonRPCBlockRepository.raw_hash header,
            EvmJsonRPCBlockRepository.raw_number header,
            EvmJsonRPCBlockRepository.raw_timestamp header with
      | Some hash, Some number, Some timestamp =>
          if Js.truthy (Some hash) && Js.truthy (Some number) && Js.truthy (Some timestamp)
          then
            match Js.BigInt number with
            | Some n =>
                ret {| block_number := n;
                       block_hash := hash;
                       block_timestamp := EvmJsonRPCBlockRepository.Number_ rt timestamp;
                       block_transactions := full_transactions result |}
            | None => throw (SyntaxError number)
            end
          else unparsable
      | _, _, _ => unparsable
      end
  | _ => unparsable
  end.

(** [getBlockHeight(chain, finality)] *)
Definition getBlockHeight {H} `{BlockClient H}
    (rt : EvmJsonRPCBlockRepository.Runtime)
    (chains : gmap string EvmJsonRPCBlockRepository.ChainRPCConfig)
    (chain : string) (finality : string) : M H Z :=
  let* block := getBlock rt chains chain (Tag finality) false in
  ret (block_number block).

End EvmJsonRPCBlock.

(** ** Further test doubles and vocabulary *)

(** The hash under which a well-formed response is stored. *)
Definition response_hash (response : option EvmJsonRPCBlockRepository.BlockResponse)
    : string :=
  match response with
  | Some {| EvmJsonRPCBlockRepository.result := EvmJsonRPCBlockRepository.Value rb |} =>
      default "" (EvmJsonRPCBlockRepository.raw_hash rb)
  | _ => ""
  end.

(** A node that keeps the receipt requests it is sent and answers them from
    a list of replies, one per request batch. *)
Record Recorder : Type := {
  recorded : list (list EvmJsonRPCBlockRepository.ReceiptRequest);
  replies : list (list (option EvmJsonRPCBlockRepository.ResultTransactionReceipt))
}.

#[global] Instance Recorder_client : EvmJsonRPCBlockRepository.HttpClient Recorder := {|
  EvmJsonRPCBlockRepository.post_blocks := fun _ _ _ s => (Throw (HttpClientError 0), s);
  EvmJsonRPCBlockRepository.post_logs := fun _ _ _ s => (Throw (HttpClientError 0), s);
  EvmJsonRPCBlockRepository.post_receipts := fun _ reqs _ s =>
    match replies s with
    | r :: rest => (Ok (Some r), {| recorded := recorded s ++ [reqs]; replies := rest |})
    | [] => (Throw (HttpClientError 0), {| recorded := recorded s ++ [reqs]; replies := [] |})
    end
|}.

(** A node that gives the same reply to every single-block request. *)
Record FixedBlockNode : Type := { fixed_reply : option EvmJsonRPCBlock.BlockReply }.

#[global] Instance FixedBlockNode_client : EvmJsonRPCBlock.BlockClient FixedBlockNode := {|
  EvmJsonRPCBlock.post_block := fun _ _ _ s => (Ok (fixed_reply s), s)
|}.

(** It answers nothing else: every other request fails. *)
#[global] Instance FixedBlockNode_http
    : EvmJsonRPCBlockRepository.HttpClient FixedBlockNode := {|
  EvmJsonRPCBlockRepository.post_blocks := fun _ _ _ s => (Throw (HttpClientError 0), s);
  EvmJsonRPCBlockRepository.post_logs := fun _ _ _ s => (Throw (HttpClientError 0), s);
  EvmJsonRPCBlockRepository.post_receipts := fun _ _ _ s => (Throw (HttpClientError 0), s)
|}.

Definition full_block_reply (hash number timestamp : string)
    (transactions : option (list EvmTransaction)) : EvmJsonRPCBlock.BlockReply :=
  {| EvmJsonRPCBlock.reply_result :=
       EvmJsonRPCBlockRepository.Value
         {| EvmJsonRPCBlock.full_header :=
              {| EvmJsonRPCBlockRepository.raw_hash := Some hash;
                 EvmJsonRPCBlockRepository.raw_number := Some number;
                 EvmJsonRPCBlockRepository.raw_timestamp := Some timestamp |};
            EvmJsonRPCBlock.full_transactions := transactions |};
     EvmJsonRPCBlock.reply_error := None |}.

(** ** Vocabulary of the statements about [execute] *)

(** The block numbers asked for, and the hash sets whose receipts were
    asked for, in a record of repository calls. *)
Definition block_calls (cs : list RepoCall) : list Z :=
  omap (fun c => match c with CallGetBlock _ block _ => Some block | _ => None end) cs.

Definition receipt_calls (cs : list RepoCall) : list (list string) :=
  omap (fun c => match c with CallGetTransactionReceipt _ hashes => Some hashes | _ => None end)
    cs.

(** What holds of a transaction that [execute] returns: one of its
    addresses, in lower case, is configured; it carries the status and the
    logs of a receipt, one of which has a configured topic; and it is
    stamped with the chain, chain id and environment of the options. *)
Definition returned_ok (opts : GetEvmOpts) (tx : EvmTransaction) : Prop :=
  (exists addresses,
      opts_addresses opts = Some addresses
      /\ (In (Js.toLowerCase (Js.String_ (tx_to tx))) addresses
          \/ In (Js.toLowerCase (Js.String_ (tx_from tx))) addresses))
  /\ (exists topics logs log lt t,
        opts_topics opts = Some topics
        /\ tx_logs tx = Some logs /\ In log logs
        /\ log_topics log = Some lt /\ In t topics /\ In t lt)
  /\ (exists status, tx_status tx = Some status)
  /\ (exists timestamp, tx_timestamp tx = Some timestamp)
  /\ tx_chain tx = Some (opts_chain opts)
  /\ tx_chainId tx = Some (opts_chainId opts)
  /\ tx_environment tx = Some (opts_environment opts).

(** Block 10 holds two transactions to the address [0xab]; the receipt of
    the first carries the topic [0xcd], that of the second does not. *)
Definition sample_block : EvmBlock :=
  {| block_number := 10; block_hash := "0xb10"; block_timestamp := 1700;
     block_transactions :=
       Some [plain_tx "0x01" (Some "0x11") (Some "0xAB");
             plain_tx "0x02" (Some "0x11") (Some "0xab")] |}.

Definition sample_world : World InMemoryRepo :=
  {| repo := {| mem_blocks := {[ 10 := sample_block ]};
                mem_receipts := {[ "0x01" := receipt_with_topics "0x01" ["0xcd"];
                                   "0x02" := receipt_with_topics "0x02" ["0xee"] ]} |};
     calls := [] |}.

(** ** Further vocabulary for the queue consumer *)

(** One for a message counted by [wg.Add(1)] that has not entered the
    channel: it is about to be sent, or its send panicked. *)
Definition pending {VaaEvent} (p : Queue.PC VaaEvent) : nat :=
  match p with
  | Queue.AtSend _ _ _ | Queue.Panicked => 1
  | _ => 0
  end.

(** The expiry of the batch being dispatched. *)
Definition batch_expiry {VaaEvent} (p : Queue.PC VaaEvent) : option Z :=
  match p with
  | Queue.InRange _ e | Queue.AtSend _ _ e => Some e
  | _ => None
  end.

(** The increments of a counter, over all chains. *)
Definition counter_total (m : Queue.Metrics) (c : Queue.Counter) : nat :=
  length (List.filter (fun e => bool_decide (fst e = c)) m).

(** The receipt handles of the messages [GetMessages] returned in a run. *)
Definition fetched_handles (events : list Queue.Event) : list string :=
  concat (map (fun e => match e with
                        | Queue.GetMessagesReturns messages _ =>
                            map Queue.ReceiptHandle messages
                        | _ => []
                        end) events).

(** The receipt handles the consumer still has in hand. *)
Definition handles_in_hand {VaaEvent} (s : Queue.State VaaEvent) : list string :=
  match Queue.pc s with
  | Queue.InRange messages _ => map Queue.ReceiptHandle messages
  | Queue.AtSend m messages _ => Queue.msg_id m :: map Queue.ReceiptHandle messages
  | _ => []
  end
  ++ map Queue.msg_id (Queue.ch s) ++ map Queue.msg_id (Queue.held s).

(** [IsExpired] at the time [now]: [m.expiredAt.Before(time.Now())]. *)
Definition IsExpired {VaaEvent} (m : Queue.sqsConsumerMessage VaaEvent) (now : Z) : bool :=
  Queue.msg_expiredAt m <? now.

(** A run that stops inside a batch of three messages: the first was sent,
    received and acknowledged, the second filtered out, the third is in
    the channel. *)
Definition sample_events : list Queue.Event :=
  [Queue.GetMessagesReturns
     [sqs_message "2" "h1"; sqs_message "0" "h2"; sqs_message "4" "h3"] 1000;
   Queue.HandleMessage false; Queue.SendBuffered;
   Queue.HandleMessage false;
   Queue.HandleMessage false; Queue.SendBuffered;
   Queue.Receive; Queue.Done 0 false].

Definition sample_state : Queue.State Z :=
  default Queue.NewVAASQS (Queue.run test_codec test_queue sample_events Queue.NewVAASQS).

(** The same run after the owner closed the channel. *)
Definition sample_closed : Queue.State Z :=
  default Queue.NewVAASQS (Queue.step test_codec test_queue Queue.Close sample_state).

(** The message was fetched by a [GetMessages] call of the run, at a time
    [now], and its lease runs from then for the visibility timeout. *)
Definition leased {VaaEvent} (q : Queue.SQS VaaEvent) (events : list Queue.Event)
    (m : Queue.sqsConsumerMessage VaaEvent) : Prop :=
  exists messages now,
    In (Queue.GetMessagesReturns messages now) events
    /\ In (Queue.msg_id m) (map Queue.ReceiptHandle messages)
    /\ Queue.msg_expiredAt m = now + Queue.GetVisibilityTimeout q
    /\ forall t, IsExpired m t = true <-> now + Queue.GetVisibilityTimeout q < t.

(** What the consumer has in hand comes from one fetch of the run. *)
Definition in_hand_from {VaaEvent} (q : Queue.SQS VaaEvent) (events : list Queue.Event)
    (s : Queue.State VaaEvent) : Prop :=
  match Queue.pc s with
  | Queue.InRange msgs e =>
      exists messages now,
        In (Queue.GetMessagesReturns messages now) events
        /\ e = now + Queue.GetVisibilityTimeout q
        /\ forall x, In x msgs -> In x messages
  | Queue.AtSend m msgs e =>
      leased q events m
      /\ exists messages now,
           In (Queue.GetMessagesReturns messages now) events
           /\ e = now + Queue.GetVisibilityTimeout q
           /\ forall x, In x msgs -> In x messages
  | _ => True
  end.
(** * Properties *)

(** ** JavaScript primitives *)

Example toLowerCase_ex : Js.toLowerCase "0xAbC9" = "0xabc9".
Proof. reflexivity. Qed.

Example BigInt_hex_ex : Js.BigInt "0x64" = Some 100.
Proof. reflexivity. Qed.

Example BigInt_dec_ex : Js.BigInt " -42 " = Some (-42).
Proof. reflexivity. Qed.

Example BigInt_bad_ex : Js.BigInt "12ab" = None.
Proof. reflexivity. Qed.

Example BigInt_radix_ex : Js.BigInt "0b101" = Some 5 /\ Js.BigInt "0O17" = Some 15.
Proof. split; reflexivity. Qed.

Example toString_ex : Js.toString 200 = "200" /\ Js.toString16 200 = "c8".
Proof. split; reflexivity. Qed.

Lemma includes_In (a : list string) (x : string) :
  Js.includes a x = true <-> In x a.
Proof.
  unfold Js.includes. rewrite existsb_exists. split.
  - intros (y & Hy & Heq). apply String.eqb_eq in Heq. now subst.
  - intros Hin. exists x. split; [assumption | apply String.eqb_refl].
Qed.

Lemma truthy_Some (s : string) : Js.truthy (Some s) = true <-> s <> "".
Proof.
  unfold Js.truthy. rewrite negb_true_iff. split.
  - intros Hneq ->. discriminate.
  - intros Hneq. apply String.eqb_neq. exact Hneq.
Qed.

Lemma plain_not_wide (c1 c2 c3 : ascii) :
  Js.plain c1 = true ->
  Js.is_space c1 = false /\ Js.is_space2 c1 c2 = false /\ Js.is_space3 c1 c2 c3 = false.
Proof.
  unfold Js.plain, Js.is_space2, Js.is_space3. intros Hc.
  apply andb_prop in Hc. destruct Hc as [Hs Hlt].
  apply negb_true_iff in Hs. apply Nat.ltb_lt in Hlt.
  split; [exact Hs |].
  assert (Hne : forall n, (128 <= n)%nat -> Nat.eqb (nat_of_ascii c1) n = false).
  { intros n Hn. apply Nat.eqb_neq. lia. }
  rewrite !Hne by lia. split; reflexivity.
Qed.

Lemma plain_not_one_space (c : ascii) (r : string) :
  Js.plain c = true -> Js.is_one_space (String c r) = false.
Proof.
  intros Hc. destruct r as [| c2 [| c3 [| c4 r]]]; cbn [Js.is_one_space];
    try reflexivity;
    now destruct (plain_not_wide c " " " " Hc) as (H1 & _);
    try (destruct (plain_not_wide c c2 " " Hc) as (_ & H2 & _));
    try (destruct (plain_not_wide c c2 c3 Hc) as (_ & _ & H3)).
Qed.

Lemma trim_end_id (s : string) :
  Js.all_chars Js.plain s = true -> Js.trim_end s = s.
Proof.
  induction s as [| c r IH]; cbn [Js.trim_end Js.all_chars]; [reflexivity |].
  intros Hall. apply andb_prop in Hall. destruct Hall as [Hc Hr].
  rewrite (IH Hr). now rewrite plain_not_one_space.
Qed.

Lemma trim_id (s : string) :
  Js.all_chars Js.plain s = true -> Js.trim s = s.
Proof.
  intros Hall. unfold Js.trim.
  assert (Hs : Js.trim_start s = s).
  { destruct s as [| c r]; cbn [Js.trim_start]; [reflexivity |].
    cbn [Js.all_chars] in Hall. apply andb_prop in Hall. destruct Hall as [Hc _].
    destruct (plain_not_wide c " " " " Hc) as (-> & _).
    destruct r as [| c2 r2]; [reflexivity |].
    destruct (plain_not_wide c c2 " " Hc) as (_ & -> & _).
    destruct r2 as [| c3 r3]; [reflexivity |].
    now destruct (plain_not_wide c c2 c3 Hc) as (_ & _ & ->). }
  rewrite Hs. now apply trim_end_id.
Qed.

Lemma all_chars_impl (p q : ascii -> bool) (s : string) :
  (forall c, p c = true -> q c = true) ->
  Js.all_chars p s = true -> Js.all_chars q s = true.
Proof.
  intros Hpq. induction s as [| c r IH]; simpl; [reflexivity |].
  intros Hall. apply andb_prop in Hall. destruct Hall as [Hc Hr].
  now rewrite (Hpq c Hc), (IH Hr).
Qed.

Lemma digit_plain (c : ascii) : Js.is_digit c = true -> Js.plain c = true.
Proof.
  destruct c as [[] [] [] [] [] [] [] []]; intros Hd; try discriminate Hd; reflexivity.
Qed.

Lemma digits_string_of_uint (d : Decimal.uint) :
  Js.all_chars Js.is_digit (DecimalString.NilEmpty.string_of_uint d) = true.
Proof. induction d; simpl; auto. Qed.

Lemma digits_string_of_uint' (d : Decimal.uint) :
  Js.all_chars Js.is_digit (DecimalString.NilZero.string_of_uint d) = true.
Proof. destruct d; try apply digits_string_of_uint. reflexivity. Qed.

Lemma BigInt_digits (s : string) :
  s <> "" -> Js.all_chars Js.is_digit s = true ->
  Js.BigInt s = option_map Z.of_int (DecimalString.NilZero.int_of_string s).
Proof.
  intros Hne Hd. unfold Js.BigInt.
  rewrite trim_id by (eapply all_chars_impl; [apply digit_plain | exact Hd]).
  destruct s as [| c1 r]; [congruence |].
  simpl in Hd. apply andb_prop in Hd. destruct Hd as [H1 Hr].
  destruct r as [| c2 r'].
  - destruct c1 as [[] [] [] [] [] [] [] []]; try discriminate H1; reflexivity.
  - simpl in Hr. apply andb_prop in Hr. destruct Hr as [H2 _].
    destruct c1 as [[] [] [] [] [] [] [] []]; try discriminate H1;
    destruct c2 as [[] [] [] [] [] [] [] []]; try discriminate H2; reflexivity.
Qed.

Lemma BigInt_minus_digits (s : string) :
  Js.all_chars Js.is_digit s = true ->
  Js.BigInt (String "-" s) =
  option_map Z.of_int (DecimalString.NilZero.int_of_string (String "-" s)).
Proof.
  intros Hd. unfold Js.BigInt.
  rewrite trim_id.
  - reflexivity.
  - cbn [Js.all_chars]. apply andb_true_intro. split; [reflexivity |].
    eapply all_chars_impl; [apply digit_plain | exact Hd].
Qed.

(** [BigInt(n.toString())] is [n]. *)
Lemma BigInt_toString (n : Z) : Js.BigInt (Js.toString n) = Some n.
Proof.
  unfold Js.toString.
  assert (Hparse :
    DecimalString.NilZero.int_of_string
      (DecimalString.NilZero.string_of_int (Z.to_int n)) = Some (Z.to_int n)).
  { apply DecimalString.NilZero.isi.
    - destruct n; simpl; try discriminate.
      intros [= Hnil]. now apply (Unsigned.to_uint_nonnil p).
    - destruct n; simpl; try discriminate.
      intros [= Hnil]. now apply (Unsigned.to_uint_nonnil p). }
  destruct n as [| p | p].
  - reflexivity.
  - rewrite BigInt_digits.
    + rewrite Hparse. simpl. f_equal. apply (DecimalZ.of_to (Z.pos p)).
    + simpl. intros Hs.
      pose proof (DecimalString.NilZero.usu (Pos.to_uint p) (Unsigned.to_uint_nonnil p)) as Hu.
      rewrite Hs in Hu. discriminate.
    + apply digits_string_of_uint'.
  - change (DecimalString.NilZero.string_of_int (Z.to_int (Z.neg p)))
      with (String "-" (DecimalString.NilZero.string_of_uint (Pos.to_uint p))) in *.
    rewrite BigInt_minus_digits by apply digits_string_of_uint'.
    rewrite Hparse. simpl. f_equal. apply (DecimalZ.of_to (Z.neg p)).
Qed.

(** ** [GetEvmTransactions] *)

Section GetEvmTransactionsProps.
Context {R : Type} `{EvmBlockRepository R}.

(** C7. A range with [fromBlock > toBlock] yields the empty list, without
    an error, and the repository is left as it was with no call recorded. *)
Theorem execute_invalid_range (range : Range) (opts : GetEvmOpts) (w : World R) :
  fromBlock range > toBlock range ->
  GetEvmTransactions.execute range opts w = (Ok [], w).
Proof.
  intros Hgt. unfold GetEvmTransactions.execute.
  destruct (Z.gtb_spec (fromBlock range) (toBlock range)) as [_ | Hle].
  - reflexivity.
  - lia.
Qed.

End GetEvmTransactionsProps.

Lemma execute_invalid_range_witness :
  10 > 5 /\
  GetEvmTransactions.execute {| fromBlock := 10; toBlock := 5 |}
    (bridge_opts ["0xab"] ["0xcd"]) empty_repo = (Ok [], empty_repo).
Proof.
  split.
  - lia.
  - apply (execute_invalid_range {| fromBlock := 10; toBlock := 5 |}). simpl. lia.
Defined.

(** The first filter lower-cases the transaction's addresses only: a
    configured address written with capitals matches nothing. *)
Lemma first_pass_filter_not_case_insensitive :
  ~ (forall (opts : GetEvmOpts) (addresses : list string)
            (transactions : list EvmTransaction) (tx : EvmTransaction) (a : string),
        opts_addresses opts = Some addresses ->
        In a addresses ->
        In tx transactions ->
        Js.toLowerCase a = Js.toLowerCase (Js.String_ (tx_to tx))
        \/ Js.toLowerCase a = Js.toLowerCase (Js.String_ (tx_from tx)) ->
        In tx (GetEvmTransactions.transactionsByAddressConfigured opts transactions)).
Proof.
  intros Hkept.
  pose (tx := plain_tx "0x01" (Some "0x11") (Some "0xab")).
  specialize (Hkept (bridge_opts ["0xAB"] []) ["0xAB"] [tx] tx "0xAB").
  cbn in Hkept. apply Hkept; auto.
Qed.

(** C2 (amended). The first filter keeps exactly the transactions whose
    lower-cased [to] or [from] is one of the configured addresses as they
    are written; so for a configured address written in lower case, every
    transaction whose [to] or [from] equals it up to letter case is kept. *)
Theorem first_pass_filter_lowercased
    (opts : GetEvmOpts) (addresses : list string)
    (transactions : list EvmTransaction) (tx : EvmTransaction) :
  opts_addresses opts = Some addresses ->
  In tx transactions ->
  (In tx (GetEvmTransactions.transactionsByAddressConfigured opts transactions)
   <-> In (Js.toLowerCase (Js.String_ (tx_to tx))) addresses
       \/ In (Js.toLowerCase (Js.String_ (tx_from tx))) addresses)
  /\ (forall a : string,
        In a addresses ->
        Js.toLowerCase a = a ->
        Js.toLowerCase a = Js.toLowerCase (Js.String_ (tx_to tx))
        \/ Js.toLowerCase a = Js.toLowerCase (Js.String_ (tx_from tx)) ->
        In tx (GetEvmTransactions.transactionsByAddressConfigured opts transactions)).
Proof.
  intros Haddr Hin.
  assert (Hiff :
    In tx (GetEvmTransactions.transactionsByAddressConfigured opts transactions)
    <-> In (Js.toLowerCase (Js.String_ (tx_to tx))) addresses
        \/ In (Js.toLowerCase (Js.String_ (tx_from tx))) addresses).
  { unfold GetEvmTransactions.transactionsByAddressConfigured.
    rewrite filter_In. unfold GetEvmTransactions.address_configured.
    rewrite Haddr, orb_true_iff, !includes_In. tauto. }
  split; [exact Hiff |].
  intros a Ha Hlow Hmatch. apply Hiff.
  destruct Hmatch as [Hto | Hfrom].
  - left. rewrite <- Hto, Hlow. exact Ha.
  - right. rewrite <- Hfrom, Hlow. exact Ha.
Qed.

Lemma first_pass_filter_lowercased_witness :
  let tx := plain_tx "0x01" (Some "0x11") (Some "0xAB") in
  let opts := bridge_opts ["0xab"] [] in
  In tx (GetEvmTransactions.transactionsByAddressConfigured opts [tx]).
Proof.
  intros tx opts.
  apply (proj2 (first_pass_filter_lowercased opts ["0xab"] [tx] tx
                  eq_refl (or_introl eq_refl)) "0xab").
  - simpl. auto.
  - reflexivity.
  - left. reflexivity.
Defined.

Lemma find_topic_Some (topics : list string) (log : EvmTransactionLog) (t : string) :
  GetEvmTransactions.find_topic (Some topics) log = Some t ->
  In t topics /\ exists lt, log_topics log = Some lt /\ In t lt.
Proof.
  unfold GetEvmTransactions.find_topic, Js.find. intros Hfind.
  apply find_some in Hfind. destruct Hfind as [Hin Hp]. split; [exact Hin |].
  destruct (log_topics log) as [lt |]; [| discriminate].
  exists lt. split; [reflexivity | now apply includes_In].
Qed.

Lemma find_topic_found (topics : list string) (log : EvmTransactionLog) (t : string)
    (lt : list string) :
  In t topics -> log_topics log = Some lt -> In t lt ->
  exists t', GetEvmTransactions.find_topic (Some topics) log = Some t'.
Proof.
  intros Hin Hlt Hinl. unfold GetEvmTransactions.find_topic, Js.find.
  destruct (List.find _ topics) as [t' |] eqn:Hfind; [eauto |].
  exfalso. eapply find_none in Hfind; [| exact Hin].
  cbn in Hfind. rewrite Hlt in Hfind.
  apply includes_In in Hinl. congruence.
Qed.

(** C8. For data as the chain gives it -- a topic is a 32-byte word, so
    the empty string is not at once a configured topic and a topic of a log
    of the transaction's receipt -- the second filter keeps a transaction
    exactly when a log of its receipt carries a configured topic. *)
Theorem filterTransactions_keeps_topic_matches
    (opts : GetEvmOpts) (transactions : list EvmTransaction)
    (receipts : gmap string ReceiptTransaction) (tx : EvmTransaction) :
  ~ (configured_topic opts "" /\ receipt_log_has_topic receipts tx "") ->
  (In tx (GetEvmTransactions.filterTransactions opts transactions receipts)
   <-> In tx transactions
       /\ exists t, configured_topic opts t /\ receipt_log_has_topic receipts tx t).
Proof.
  intros Hdomain. unfold GetEvmTransactions.filterTransactions.
  rewrite filter_In, existsb_exists. unfold GetEvmTransactions.receipt_logs_of.
  split.
  - intros [Hin (log & Hlog & Htruthy)]. split; [exact Hin |].
    destruct (receipts !! tx_hash tx) as [receipt |] eqn:Hr; [| contradiction].
    destruct (receipt_logs receipt) as [logs |] eqn:Hlogs; [| contradiction].
    destruct (opts_topics opts) as [topics |] eqn:Htopics; [| discriminate].
    destruct (GetEvmTransactions.find_topic (Some topics) log) as [t |] eqn:Hfind;
      [| discriminate].
    apply find_topic_Some in Hfind. destruct Hfind as [Ht (lt & Hlt & Hinl)].
    exists t. split; [exists topics; auto |].
    exists receipt, logs, log, lt. auto.
  - intros [Hin (t & (topics & Htopics & Ht) & receipt & logs & log & lt
                 & Hr & Hlogs & Hlog & Hlt & Hinl)].
    split; [exact Hin |]. rewrite Hr, Hlogs, Htopics.
    exists log. split; [exact Hlog |].
    destruct (find_topic_found topics log t lt Ht Hlt Hinl) as [t' Hfind].
    rewrite Hfind. apply truthy_Some. intros ->.
    apply find_topic_Some in Hfind. destruct Hfind as [Ht' (lt' & Hlt' & Hinl')].
    apply Hdomain. split; [exists topics; auto |].
    exists receipt, logs, log, lt'. auto.
Qed.

Lemma filterTransactions_keeps_topic_matches_witness :
  let tx := plain_tx "0x01" (Some "0x11") (Some "0xab") in
  let opts := bridge_opts ["0xab"] ["0xcd"] in
  let receipts : gmap string ReceiptTransaction :=
    {[ "0x01" := receipt_with_topics "0x01" ["0xee"; "0xcd"] ]} in
  GetEvmTransactions.filterTransactions opts [tx] receipts = [tx]
  /\ (In tx (GetEvmTransactions.filterTransactions opts [tx] receipts)
      <-> In tx [tx]
          /\ exists t, configured_topic opts t /\ receipt_log_has_topic receipts tx t).
Proof.
  intros tx opts receipts. split; [reflexivity |].
  apply (filterTransactions_keeps_topic_matches opts [tx] receipts tx).
  intros [(topics & Htopics & Hin) _].
  injection Htopics as <-. destruct Hin as [Hin | []]. discriminate Hin.
Defined.

(** The two cases the design document names: a receipt without a
    configured topic, and one with it. *)
Example filterTransactions_no_topic_excluded :
  let tx := plain_tx "0x01" (Some "0x11") (Some "0xab") in
  GetEvmTransactions.filterTransactions (bridge_opts ["0xab"] ["0xcd"]) [tx]
    {[ "0x01" := receipt_with_topics "0x01" ["0xee"] ]} = [].
Proof. reflexivity. Qed.

Example filterTransactions_topic_included :
  let tx := plain_tx "0x01" (Some "0x11") (Some "0xab") in
  GetEvmTransactions.filterTransactions (bridge_opts ["0xab"] ["0xcd"]) [tx]
    {[ "0x01" := receipt_with_topics "0x01" ["0xee"; "0xcd"] ]} = [tx].
Proof. reflexivity. Qed.

(** Outside that domain the filter is not the membership test: [some] is
    handed the topic that [find] returned, and the empty string is falsy. *)
Example filterTransactions_empty_topic :
  GetEvmTransactions.filterTransactions (bridge_opts ["0xab"] [""])
    [plain_tx "0x01" (Some "0x11") (Some "0xab")]
    {[ "0x01" := receipt_with_topics "0x01" [""] ]} = [].
Proof. reflexivity. Qed.

(** A run of [execute] over one block holding two transactions to a
    configured address: only the one whose receipt carries a configured
    topic is returned, enriched from its receipt and block; the repository
    is called once for the block and once for the two receipts. *)
Example execute_one_block :
  let tx1 := plain_tx "0x01" (Some "0x11") (Some "0xAB") in
  let tx2 := plain_tx "0x02" (Some "0x11") (Some "0xab") in
  let r1 := receipt_with_topics "0x01" ["0xcd"] in
  let r2 := receipt_with_topics "0x02" ["0xee"] in
  let block :=
    {| block_number := 10; block_hash := "0xb10"; block_timestamp := 1700;
       block_transactions := Some [tx1; tx2] |} in
  let w :=
    {| repo := {| mem_blocks := {[ 10 := block ]};
                  mem_receipts := {[ "0x01" := r1; "0x02" := r2 ]} |};
       calls := [] |} in
  let opts := bridge_opts ["0xab"] ["0xcd"] in
  GetEvmTransactions.execute {| fromBlock := 10; toBlock := 10 |} opts w
  = (Ok [ GetEvmTransactions.populate_one opts block r1 tx1 ],
     {| repo := repo w;
        calls := [CallGetBlock "ethereum" 10 true;
                  CallGetTransactionReceipt "ethereum" ["0x01"; "0x02"]] |}).
Proof. vm_compute. reflexivity. Qed.

(** ** [EvmJsonRPCBlockRepository] *)

Import EvmJsonRPCBlockRepository.

(** A node that answers a query for blocks 100 to 200 with a log of block 1:
    the log is returned as it came. *)
Lemma getFilteredLogs_out_of_range :
  exists logs s',
    getFilteredLogs (one_chain "ethereum" "http://node" 2) "ethereum"
      (range_filter 100 200) (logs_script [log_at "0x1"]) = (Ok logs, s')
    /\ ~ Forall (fun l => 100 <= evm_blockNumber l <= 200) logs.
Proof.
  eexists _, _. split.
  - reflexivity.
  - intros Hall. apply Forall_inv in Hall. cbn in Hall. lia.
Qed.

Lemma map_log_spec (chainCfg : ChainCfg) (l : Log) (e : EvmLog) :
  map_log chainCfg l = Ok e <-> log_returned chainCfg l e.
Proof.
  unfold map_log, log_returned. split.
  - destruct (Js.BigInt (blockNumber l)) as [n |]; [| discriminate].
    intros [= <-]. cbn. auto 12.
  - intros (-> & Hhash & Hindex & Hremoved & Haddress & Hdata & Htopics & Htx
            & Hlogindex & Hchain).
    destruct e; cbn in *. now subst.
Qed.

Lemma map_logs_spec (chainCfg : ChainCfg) (raw : list Log) (logs : list EvmLog) :
  map_logs chainCfg raw = Ok logs <-> Forall2 (log_returned chainCfg) raw logs.
Proof.
  revert logs. induction raw as [| l rest IH]; intros logs; cbn [map_logs].
  - split.
    + intros [= <-]. constructor.
    + intros Hrel. inversion Hrel. reflexivity.
  - split.
    + destruct (map_log chainCfg l) as [e |] eqn:He; [| discriminate].
      destruct (map_logs chainCfg rest) as [es |] eqn:Hes; [| discriminate].
      intros [= <-]. constructor; [now apply map_log_spec | now apply IH].
    + intros Hrel. inversion Hrel as [| l' e rest' es He Hes]; subst.
      apply map_log_spec in He. apply IH in Hes. now rewrite He, Hes.
Qed.

Lemma map_logs_Throw (chainCfg : ChainCfg) (raw : list Log) :
  (exists e, map_logs chainCfg raw = Throw e)
  <-> Exists (fun l => Js.BigInt (blockNumber l) = None) raw.
Proof.
  induction raw as [| l rest IH]; cbn [map_logs].
  - split; [intros [e He]; discriminate | intros Hex; inversion Hex].
  - unfold map_log at 1.
    destruct (Js.BigInt (blockNumber l)) as [n |] eqn:Hn.
    + destruct (map_logs chainCfg rest) as [es | e'] eqn:Hes.
      * split; [intros [e He]; discriminate |].
        intros Hex. inversion Hex as [? ? Hl | ? ? Hrest]; subst; [congruence |].
        apply IH in Hrest. destruct Hrest as [e He]. discriminate.
      * split; [| eauto]. intros _. right. apply IH. eauto.
    + split; [| eauto]. intros _. now left.
Qed.

Section RepositoryProps.
Context {H : Type} `{HttpClient H}.

(** C3 (amended). [getFilteredLogs] checks no block number itself.  When
    the node's reply holds the logs [raw], whatever they are: the call
    returns exactly the list that has one log per log of [raw], in order,
    each with the integer value of that log's block number and the other
    fields as they came; it fails exactly when a block number of [raw] is
    not an integer literal; and so the returned block numbers all lie
    within [[filter.fromBlock, filter.toBlock]] exactly when those of the
    reply do. *)
Theorem getFilteredLogs_passes_block_numbers
    (chains : gmap string ChainRPCConfig) (chain : string) (filter : EvmLogFilter)
    (chainCfg : ChainCfg) (error : option ErrorBlock) (raw : list Log) (h h' : H) :
  getCurrentChain chains chain = Ok chainCfg ->
  post_logs (rpc chainCfg) (parsedFilters filter) (post_opts chainCfg) h
    = (Ok (Some {| logs_result := Some raw; logs_error := error |}), h') ->
  (forall logs,
      getFilteredLogs chains chain filter h = (Ok logs, h')
      <-> Forall2 (log_returned chainCfg) raw logs)
  /\ ((exists e, getFilteredLogs chains chain filter h = (Throw e, h'))
      <-> Exists (fun l => Js.BigInt (blockNumber l) = None) raw)
  /\ (forall logs,
        getFilteredLogs chains chain filter h = (Ok logs, h') ->
        (Forall (fun e => in_filter_range filter (evm_blockNumber e)) logs
         <-> Forall (fun l => exists n, Js.BigInt (blockNumber l) = Some n
                                        /\ in_filter_range filter n) raw)).
Proof.
  intros Hcfg Hpost.
  assert (Hcall : getFilteredLogs chains chain filter h = (map_logs chainCfg raw, h')).
  { unfold getFilteredLogs, bind, lift. now rewrite Hcfg, Hpost. }
  rewrite Hcall. split; [| split].
  - intros logs. rewrite <- map_logs_spec. split; [now intros [= ->] | now intros ->].
  - rewrite <- map_logs_Throw.
    split; [intros [e [= He]]; eauto | intros [e He]; exists e; now rewrite He].
  - intros logs [= Hmap]. apply map_logs_spec in Hmap.
    clear Hcall Hpost. induction Hmap as [| l e raw' logs' Hle _ IH].
    + split; constructor.
    + destruct Hle as (Hn & _). rewrite !Forall_cons, IH. split.
      * intros [He Hrest]. split; [eauto | exact Hrest].
      * intros [(n & Hn' & Hrange) Hrest]. split; [| exact Hrest].
        rewrite Hn in Hn'. now injection Hn' as <-.
Qed.

End RepositoryProps.

Lemma getFilteredLogs_passes_block_numbers_witness :
  let raw := [log_at "0x64"; log_at "0x1"; log_at "0xc8"] in
  let cfg := {| chainId := 2; rpc := "http://node"; timeout := 10000; retries := 2 |} in
  exists logs,
    getFilteredLogs (one_chain "ethereum" "http://node" 2) "ethereum"
      (range_filter 100 200) (logs_script raw) = (Ok logs, no_script)
    /\ map evm_blockNumber logs = [100; 1; 200]
    /\ Forall2 (log_returned cfg) raw logs.
Proof.
  intros raw cfg.
  destruct (getFilteredLogs_passes_block_numbers
              (one_chain "ethereum" "http://node" 2) "ethereum" (range_filter 100 200)
              cfg None raw (logs_script raw) no_script) as (Hok & _ & _).
  - reflexivity.
  - reflexivity.
  - eexists. split; [reflexivity |]. split; [reflexivity |].
    apply Hok. reflexivity.
Defined.

Lemma is_unavailable_iff (r : BlockResponse) :
  is_unavailable (Some r) = true <-> unavailable r.
Proof.
  unfold is_unavailable, unavailable. split.
  - destruct (result r); [| now left |];
      (destruct (error r) as [e |]; [| discriminate]);
      intros Hc; apply Z.eqb_eq in Hc; right; eauto.
  - intros [-> | (e & -> & Hc)]; [reflexivity |].
    apply Z.eqb_eq in Hc. rewrite Hc. now destruct (result r).
Qed.

Lemma is_unavailable_false (r : BlockResponse) :
  is_unavailable (Some r) = false <-> ~ unavailable r.
Proof.
  rewrite <- is_unavailable_iff. destruct (is_unavailable (Some r)); split; congruence.
Qed.

(** The callback of [results.map] yields a block exactly for a response
    that is unavailable with an integer literal as id, or carries a block. *)
Lemma map_block_response_spec
    (rt : Runtime) (reqs : list BlockRequest) (response : option BlockResponse)
    (idx : nat) (b : EvmBlock) :
  map_block_response rt reqs response idx = Ok b <-> recovered_or_parsed rt idx response b.
Proof.
  unfold map_block_response, recovered_or_parsed. split.
  - destruct (is_unavailable response) eqn:Hun.
    + destruct response as [r |]; [| discriminate].
      destruct (Js.BigInt (id r)) as [n |] eqn:Hn; [| discriminate].
      intros [= <-]. exists r. split; [reflexivity |]. left.
      split; [now apply is_unavailable_iff | eauto].
    + destruct response as [r |]; [| cbn; destruct (reqs !! idx); discriminate].
      unfold parsed_block. destruct r as [rid [| | rb] rerr]; try discriminate.
      cbn [result].
      destruct (raw_hash rb) as [hash |] eqn:Hhash; [| discriminate].
      destruct (raw_number rb) as [number |] eqn:Hnumber; [| discriminate].
      destruct (raw_timestamp rb) as [timestamp |] eqn:Htimestamp; [| discriminate].
      destruct (Js.truthy (Some hash)) eqn:Hth; [| discriminate].
      destruct (Js.truthy (Some number)) eqn:Htn; [| discriminate].
      destruct (Js.truthy (Some timestamp)) eqn:Htt; [| discriminate].
      cbn [andb].
      destruct (Js.BigInt number) as [n |] eqn:Hn; [| discriminate].
      intros [= <-]. eexists. split; [reflexivity |]. right.
      split; [now apply is_unavailable_false |].
      exists rb, number, timestamp. cbn.
      apply truthy_Some in Hth, Htn, Htt. auto 12.
  - intros (r & -> & [(Hun & n & Hn & ->) | (Hun & rb & number & timestamp & Hres & Hhash
                                             & Hnh & Hnumber & Hnn & Hn & Htimestamp
                                             & Hnt & Ht & Htx)]).
    + apply is_unavailable_iff in Hun. now rewrite Hun, Hn.
    + apply is_unavailable_false in Hun. rewrite Hun.
      unfold parsed_block. destruct r as [rid rres rerr]. cbn [result] in Hres. subst rres.
      rewrite Hhash, Hnumber, Htimestamp.
      apply truthy_Some in Hnh, Hnn, Hnt. rewrite Hnh, Hnn, Hnt. cbn [andb].
      rewrite Hn. destruct b; cbn in *. now subst.
Qed.

(** [results.map(callback)] yields the blocks that the responses stand for,
    index by index, or throws. *)
Lemma map_block_responses_spec
    (rt : Runtime) (reqs : list BlockRequest) (results : list (option BlockResponse)) :
  forall (idx0 : nat) (blocks : list EvmBlock),
    map_block_responses rt reqs results idx0 = Ok blocks
    <-> length blocks = length results
        /\ forall (i : nat) (response : option BlockResponse),
             results !! i = Some response ->
             exists b, blocks !! i = Some b
                       /\ recovered_or_parsed rt (idx0 + i) response b.
Proof.
  induction results as [| response rest IH]; intros idx0 blocks; cbn [map_block_responses].
  - split.
    + intros [= <-]. split; [reflexivity |]. intros i r Hi. now rewrite lookup_nil in Hi.
    + intros [Hlen _]. destruct blocks; [reflexivity | discriminate].
  - split.
    + destruct (map_block_response rt reqs response idx0) as [b |] eqn:Hb; [| discriminate].
      destruct (map_block_responses rt reqs rest (S idx0)) as [bs |] eqn:Hbs;
        [| discriminate].
      intros [= <-]. apply IH in Hbs. destruct Hbs as [Hlen Hrel].
      split; [cbn; now rewrite Hlen |].
      intros [| i] r Hi; cbn in Hi.
      * injection Hi as <-. exists b. split; [reflexivity |].
        rewrite Nat.add_0_r. now apply map_block_response_spec in Hb.
      * destruct (Hrel i r Hi) as (b' & Hb' & Hspec). exists b'. split; [exact Hb' |].
        now replace (idx0 + S i)%nat with (S idx0 + i)%nat by lia.
    + intros [Hlen Hrel]. destruct blocks as [| b bs]; [discriminate |].
      destruct (Hrel 0%nat response eq_refl) as (b' & [= <-] & Hspec).
      rewrite Nat.add_0_r in Hspec. apply (map_block_response_spec rt reqs) in Hspec.
      rewrite Hspec.
      assert (Hbs : map_block_responses rt reqs rest (S idx0) = Ok bs).
      { apply IH. split; [cbn in Hlen; lia |].
        intros i r Hi. destruct (Hrel (S i) r Hi) as (b' & Hb' & Hspec').
        exists b'. split; [exact Hb' |].
        now replace (S idx0 + i)%nat with (idx0 + S i)%nat by lia. }
      now rewrite Hbs.
Qed.

(** *** Records built by [reduce] *)

Section OwnProperties.
Context {A : Type} (key : A -> string).

(** After the items of [l] were stored, each under its key, the record
    holds under [k] what [stored_under] says, or what it held before. *)
Lemma own_fold_lookup (l : list A) (acc : gmap string A) (k : string) :
  fold_left (fun acc x => Js.set_own (key x) x acc) l acc !! k
  = match stored_under key k l with
    | Some x => Some x
    | None => acc !! k
    end.
Proof.
  revert acc. induction l as [| x rest IH]; intros acc; cbn [fold_left].
  - unfold stored_under. cbn. now destruct (String.eqb k "__proto__").
  - rewrite IH. unfold stored_under, Js.set_own. cbn [List.filter].
    destruct (String.eqb_spec k "__proto__") as [-> | Hk].
    + destruct (String.eqb_spec (key x) "__proto__") as [Hx | Hx]; [reflexivity |].
      now rewrite lookup_insert_ne.
    + destruct (String.eqb_spec (key x) k) as [Hx | Hx].
      * rewrite last_cons.
        destruct (last (List.filter (fun y => String.eqb (key y) k) rest));
          [reflexivity |].
        destruct (String.eqb_spec (key x) "__proto__") as [Hp | Hp]; [congruence |].
        rewrite Hx. now rewrite lookup_insert_eq.
      * destruct (last (List.filter (fun y => String.eqb (key y) k) rest));
          [reflexivity |].
        destruct (String.eqb_spec (key x) "__proto__") as [Hp | Hp]; [reflexivity |].
        now rewrite lookup_insert_ne.
Qed.

Lemma stored_under_key (l : list A) (k : string) (x : A) :
  stored_under key k l = Some x -> In x l /\ key x = k /\ k <> "__proto__".
Proof.
  unfold stored_under. destruct (String.eqb_spec k "__proto__") as [| Hk]; [discriminate |].
  intros Hlast. apply last_Some in Hlast. destruct Hlast as [l' Hl'].
  assert (Hin : In x (List.filter (fun y => String.eqb (key y) k) l)).
  { rewrite Hl'. apply in_app_iff. right. now left. }
  apply filter_In in Hin. destruct Hin as [Hin Hx]. apply String.eqb_eq in Hx. auto.
Qed.

(** The own properties are those of the items whose key is not
    [__proto__], stored one over the other. *)
Lemma own_fold_insert (l : list A) (acc : gmap string A) :
  fold_left (fun acc x => Js.set_own (key x) x acc) l acc
  = fold_left (fun acc x => <[key x := x]> acc)
      (List.filter (fun x => negb (String.eqb (key x) "__proto__")) l) acc.
Proof.
  revert acc. induction l as [| x rest IH]; intros acc; cbn [fold_left List.filter].
  - reflexivity.
  - rewrite IH. unfold Js.set_own.
    now destruct (String.eqb (key x) "__proto__").
Qed.

End OwnProperties.

Lemma lookup_In {A} (l : list A) (i : nat) (x : A) : l !! i = Some x -> In x l.
Proof.
  revert i. induction l as [| a rest IH]; intros [| i] Hi; cbn in Hi; try discriminate.
  - injection Hi as ->. now left.
  - right. now apply (IH i).
Qed.

Lemma last_filter_lookup {A} (p : A -> bool) (l : list A) (x : A) :
  last (List.filter p l) = Some x ->
  exists i : nat,
    l !! i = Some x /\ p x = true
    /\ forall (j : nat) (y : A), l !! j = Some y -> p y = true -> (j <= i)%nat.
Proof.
  revert x. induction l as [| a rest IH]; intros x; cbn [List.filter].
  - discriminate.
  - destruct (last (List.filter p rest)) as [x' |] eqn:Hrest.
    + assert (Hlast : last (if p a then a :: List.filter p rest else List.filter p rest)
                      = Some x').
      { destruct (p a); [rewrite last_cons |]; now rewrite Hrest. }
      rewrite Hlast. intros [= <-].
      destruct (IH x' eq_refl) as (i & Hi & Hp & Hmax).
      exists (S i). split; [exact Hi |]. split; [exact Hp |].
      intros [| j] y Hj Hy; [lia |]. cbn in Hj. specialize (Hmax j y Hj Hy). lia.
    + apply last_None in Hrest.
      destruct (p a) eqn:Hpa; rewrite Hrest; [| discriminate].
      intros [= <-]. exists 0%nat. split; [reflexivity |]. split; [exact Hpa |].
      intros [| j] y Hj Hy; [lia |]. cbn in Hj. exfalso.
      assert (Hin : In y (List.filter p rest)).
      { apply filter_In. split; [| exact Hy]. eapply lookup_In. exact Hj. }
      rewrite Hrest in Hin. exact Hin.
Qed.

Lemma filter_two {A} (p : A -> bool) (l : list A) (i j : nat) (x y : A) :
  i <> j -> l !! i = Some x -> l !! j = Some y -> p x = true -> p y = true ->
  (2 <= length (List.filter p l))%nat.
Proof.
  assert (Hone : forall (l : list A) (j : nat) (y : A),
            l !! j = Some y -> p y = true -> (1 <= length (List.filter p l))%nat).
  { clear. intros l j y Hj Hy.
    assert (Hin : In y (List.filter p l)).
    { apply filter_In. split; [| exact Hy]. eapply lookup_In. exact Hj. }
    destruct (List.filter p l); [contradiction | cbn; lia]. }
  revert i j. induction l as [| a rest IH]; intros i j Hij Hi Hj Hx Hy.
  - now rewrite lookup_nil in Hi.
  - cbn [List.filter]. destruct i as [| i], j as [| j]; cbn in Hi, Hj.
    + congruence.
    + injection Hi as ->. rewrite Hx. cbn. specialize (Hone rest j y Hj Hy). lia.
    + injection Hj as ->. rewrite Hy. cbn. specialize (Hone rest i x Hi Hx). lia.
    + assert (Hrest : (2 <= length (List.filter p rest))%nat)
        by (apply (IH i j); auto).
      destruct (p a); cbn; lia.
Qed.

Lemma blocks_by_hash_lookup (blocks : list EvmBlock) (k : string) :
  blocks_by_hash blocks !! k = stored_under block_hash k blocks.
Proof.
  unfold blocks_by_hash. rewrite own_fold_lookup, lookup_empty.
  now destruct (stored_under block_hash k blocks).
Qed.

Lemma blocks_by_hash_size_aux (blocks : list EvmBlock) (acc : gmap string EvmBlock) :
  (size (fold_left (fun acc block => <[block_hash block := block]> acc) blocks acc)
   + length (List.filter empty_hash blocks)
   <= size acc + length blocks + match acc !! "" with Some _ => 0 | None => 1 end)%nat.
Proof.
  revert acc. induction blocks as [| b rest IH]; intros acc.
  - cbn. lia.
  - cbn [fold_left List.filter length].
    specialize (IH (<[block_hash b := b]> acc)).
    rewrite map_size_insert in IH. unfold empty_hash at 1.
    destruct (String.eqb_spec (block_hash b) "") as [Heq | Hneq].
    + rewrite Heq in *. rewrite lookup_insert_eq in IH. cbn [length].
      destruct (acc !! "") eqn:Hacc; cbn in IH; lia.
    + rewrite lookup_insert_ne in IH by exact Hneq.
      destruct (acc !! block_hash b); destruct (acc !! ""); cbn in IH; lia.
Qed.

(** Blocks with the empty hash share one entry. *)
Lemma blocks_by_hash_size (blocks : list EvmBlock) :
  (size (blocks_by_hash blocks) + length (List.filter empty_hash blocks)
   <= length blocks + 1)%nat.
Proof.
  unfold blocks_by_hash. rewrite own_fold_insert.
  set (own := List.filter (fun b => negb (String.eqb (block_hash b) "__proto__")) blocks).
  pose proof (blocks_by_hash_size_aux own ∅) as Haux.
  rewrite lookup_empty, map_size_empty in Haux.
  assert (Hempty : length (List.filter empty_hash own) = length (List.filter empty_hash blocks)).
  { subst own. clear. induction blocks as [| b rest IH]; [reflexivity |].
    cbn [List.filter]. unfold empty_hash at 2 3.
    destruct (String.eqb_spec (block_hash b) "") as [Hb | Hb].
    - rewrite Hb. cbn [String.eqb negb List.filter]. unfold empty_hash at 1.
      rewrite Hb. cbn. now rewrite IH.
    - destruct (negb (String.eqb (block_hash b) "__proto__")); [| exact IH].
      cbn [List.filter]. unfold empty_hash at 1.
      destruct (String.eqb_spec (block_hash b) ""); [contradiction | exact IH]. }
  assert (Hown : (length own <= length blocks)%nat).
  { subst own. clear. induction blocks as [| b rest IH]; cbn [List.filter length]; [lia |].
    destruct (negb (String.eqb (block_hash b) "__proto__")); cbn [length]; lia. }
  lia.
Qed.

Section GetBlocksProps.
Context {H : Type} `{HttpClient H}.


End GetBlocksProps.



(** *** Colliding keys in the record returned by [getBlocks] *)

Section GetBlocksCollisions.
Context {H : Type} `{HttpClient H}.

(** C9 (amended). When the node answers a [getBlocks] call with at most
    one response per requested block number, two of which at least are
    unavailable (a [null] result or error code 6969), and the call returns
    a record: the record holds one block under the empty string, the
    degraded block of the last unavailable response; every block is stored
    under its own hash; and the record has strictly fewer entries than
    block numbers were requested. *)
Theorem getBlocks_degraded_blocks_collide
    (rt : Runtime) (chains : gmap string ChainRPCConfig) (chain : string)
    (blockNumbers : list Z) (chainCfg : ChainCfg)
    (results : list (option BlockResponse)) (record : gmap string EvmBlock)
    (h h' h'' : H) (i j : nat) (ri rj : BlockResponse) :
  getCurrentChain chains chain = Ok chainCfg ->
  post_blocks (rpc chainCfg) (map block_request blockNumbers) (post_opts chainCfg) h
    = (Ok (Some results), h') ->
  (length results <= length blockNumbers)%nat ->
  i <> j ->
  results !! i = Some (Some ri) -> unavailable ri ->
  results !! j = Some (Some rj) -> unavailable rj ->
  getBlocks rt chains chain blockNumbers h = (Ok record, h'') ->
  (exists (idx : nat) (r : BlockResponse) (n : Z),
      results !! idx = Some (Some r) /\ unavailable r
      /\ Js.BigInt (id r) = Some n
      /\ record !! "" = Some (degraded_block n (Date_now rt idx))
      /\ forall (idx' : nat) (r' : BlockResponse),
           results !! idx' = Some (Some r') -> unavailable r' -> (idx' <= idx)%nat)
  /\ (forall k b, record !! k = Some b -> block_hash b = k)
  /\ (size record < length blockNumbers)%nat.
Proof.
  intros Hcfg Hpost Hlen Hij Hi Huni Hj Hunj Hcall.
  unfold getBlocks in Hcall.
  destruct blockNumbers as [| n0 ns].
  { cbn in Hlen. destruct results; [now rewrite lookup_nil in Hi | cbn in Hlen; lia]. }
  cbn [length Nat.eqb] in Hcall. unfold bind, lift in Hcall.
  rewrite Hcfg, Hpost in Hcall.
  destruct results as [| r0 rs]; [discriminate |].
  destruct (map_block_responses rt (map block_request (n0 :: ns)) (r0 :: rs) 0)
    as [blocks | e] eqn:Hmap; [| discriminate].
  cbn in Hcall. injection Hcall as <- _.
  apply map_block_responses_spec in Hmap. destruct Hmap as [Hblen Hrel].
  set (results := r0 :: rs) in *. cbn [Nat.add] in Hrel.
  (* the block of an unavailable response is a degraded block *)
  assert (Hdeg : forall idx r, results !! idx = Some (Some r) -> unavailable r ->
            exists n, Js.BigInt (id r) = Some n
                      /\ blocks !! idx = Some (degraded_block n (Date_now rt idx))).
  { intros idx r Hidx Hun.
    destruct (Hrel idx (Some r) Hidx) as (b & Hb & r' & [= <-] & Hcase).
    destruct Hcase as [(_ & n & Hn & ->) | (Hnot & _)]; [eauto | contradiction]. }
  (* a block with the empty hash comes from an unavailable response *)
  assert (Hback : forall idx b, blocks !! idx = Some b -> empty_hash b = true ->
            exists r n, results !! idx = Some (Some r) /\ unavailable r
                        /\ Js.BigInt (id r) = Some n
                        /\ b = degraded_block n (Date_now rt idx)).
  { intros idx b Hb Hempty.
    destruct (results !! idx) as [response |] eqn:Hidx.
    - destruct (Hrel idx response Hidx) as (b' & Hb' & r & -> & Hcase).
      rewrite Hb in Hb'. injection Hb' as <-.
      destruct Hcase as [(Hun & n & Hn & ->) | (_ & rb & number & timestamp & _ & _
                                                & Hhash & _)].
      + exists r, n. auto.
      + apply String.eqb_eq in Hempty. contradiction.
    - apply lookup_ge_None in Hidx. apply lookup_lt_Some in Hb. lia. }
  destruct (Hdeg i ri Hi Huni) as (ni & _ & Hbi).
  destruct (Hdeg j rj Hj Hunj) as (nj & _ & Hbj).
  split; [| split].
  - destruct (last (List.filter empty_hash blocks)) as [b |] eqn:Hlast.
    + destruct (last_filter_lookup empty_hash blocks b Hlast) as (idx & Hb & Hempty & Hmax).
      destruct (Hback idx b Hb Hempty) as (r & n & Hidx & Hun & Hn & ->).
      exists idx, r, n. repeat split; auto.
      * rewrite blocks_by_hash_lookup. unfold stored_under. cbn [String.eqb Ascii.eqb].
        exact Hlast.
      * intros idx' r' Hidx' Hun'.
        destruct (Hdeg idx' r' Hidx' Hun') as (n' & _ & Hb').
        now apply (Hmax idx' _ Hb').
    + apply last_None in Hlast.
      pose proof (filter_two empty_hash blocks i j _ _ Hij Hbi Hbj eq_refl eq_refl) as Htwo.
      rewrite Hlast in Htwo. cbn in Htwo. lia.
  - intros k b Hk. rewrite blocks_by_hash_lookup in Hk.
    now apply stored_under_key in Hk.
  - pose proof (blocks_by_hash_size blocks) as Hsize.
    pose proof (filter_two empty_hash blocks i j _ _ Hij Hbi Hbj eq_refl eq_refl) as Htwo.
    subst results. cbn [length] in *. lia.
Qed.

End GetBlocksCollisions.

Lemma getBlocks_degraded_blocks_collide_witness :
  let results := [Some (block_response "10" "0xaa" "0xa" "0x64");
                  Some (null_response "20");
                  Some (error_response "30" 6969)] in
  exists record,
    getBlocks test_runtime (one_chain "karura" "http://node" 11) "karura" [10; 20; 30]
      (blocks_script results) = (Ok record, no_script)
    /\ size record = 2%nat
    /\ (size record < 3)%nat.
Proof.
  intros results.
  assert (Hcall : exists record,
    getBlocks test_runtime (one_chain "karura" "http://node" 11) "karura" [10; 20; 30]
      (blocks_script results) = (Ok record, no_script) /\ size record = 2%nat).
  { eexists. split; [vm_compute; reflexivity |]. vm_compute. reflexivity. }
  destruct Hcall as (record & Hcall & Hsize2).
  exists record. split; [exact Hcall |]. split; [exact Hsize2 |].
  destruct (getBlocks_degraded_blocks_collide test_runtime
              (one_chain "karura" "http://node" 11) "karura" [10; 20; 30]
              {| chainId := 11; rpc := "http://node"; timeout := 10000; retries := 2 |}
              results record (blocks_script results) no_script no_script
              1%nat 2%nat (null_response "20") (error_response "30" 6969))
    as (_ & _ & Hsize).
  - reflexivity.
  - reflexivity.
  - cbn. lia.
  - lia.
  - reflexivity.
  - now left.
  - reflexivity.
  - right. eexists. split; reflexivity.
  - exact Hcall.
  - exact Hsize.
Defined.

(** A node that sends more responses than blocks were asked for: two
    blocks are requested, two responses are recovered as degraded blocks
    and collide, and the record still has three entries. *)
Lemma getBlocks_more_responses_than_requested :
  let results := [Some (null_response "10");
                  Some (null_response "20");
                  Some (block_response "10" "0xaa" "0xa" "0x64");
                  Some (block_response "20" "0xbb" "0x14" "0x65")] in
  exists record,
    getBlocks test_runtime (one_chain "karura" "http://node" 11) "karura" [10; 20]
      (blocks_script results) = (Ok record, no_script)
    /\ record !! "" = Some (degraded_block 20 1700000000001)
    /\ size record = 3%nat
    /\ ~ (size record < length [10; 20])%nat.
Proof.
  eexists. split; [vm_compute; reflexivity |]. split; [reflexivity |].
  split; [vm_compute; reflexivity |]. vm_compute. lia.
Qed.

(** *** [getTransactionReceipt] *)

Example divideIntoBatches_25 :
  map (@length string)
    (divideIntoBatches (map Js.toString (map Z.of_nat (seq 0 25))) 10) = [10; 10; 5]%nat.
Proof. reflexivity. Qed.

(** [combinedResults] gains the responses of a batch that are not [null]. *)
Lemma push_results_omap
    (combined : list ResultTransactionReceipt)
    (results : list (option ResultTransactionReceipt)) :
  push_results combined results = combined ++ omap Datatypes.id results.
Proof.
  unfold push_results. revert combined.
  induction results as [| [r |] rest IH]; intros combined; cbn.
  - now rewrite app_nil_r.
  - rewrite IH. now rewrite <- app_assoc.
  - apply IH.
Qed.

(** Two hashes are asked for; the node's reply holds [null] in place of the
    first response: the call succeeds with the second receipt alone. *)
Lemma getTransactionReceipt_drops_null_response :
  let reply := [None; Some (receipt_response "0x1" "0x02")] in
  In None reply
  /\ getTransactionReceipt (one_chain "ethereum" "http://node" 2) "ethereum"
       ["0x01"; "0x02"] (receipts_script [reply])
     = (Ok {[ "0x02" := {| receipt_status := "0x1";
                           receipt_transactionHash := "0x02";
                           receipt_logs := Some [] |} ]},
        no_script).
Proof. split; [now left | reflexivity]. Qed.

(** The callback of [combinedResults.map] yields a receipt exactly for a
    response that carries one. *)
Lemma map_receipt_spec (response : ResultTransactionReceipt) (r : ReceiptTransaction) :
  map_receipt response = Ok r <-> receipt_of response r.
Proof.
  unfold map_receipt, receipt_of. split.
  - destruct (receipt_result response) as [raw |]; [| discriminate].
    destruct (raw_status raw) as [status |] eqn:Hs; [| discriminate].
    destruct (raw_transactionHash raw) as [hash |] eqn:Hh; [| discriminate].
    destruct (Js.truthy (Some status)) eqn:Hts; [| discriminate].
    destruct (Js.truthy (Some hash)) eqn:Hth; [| discriminate].
    intros [= <-]. exists raw. cbn. apply truthy_Some in Hts, Hth. auto 10.
  - intros (raw & -> & Hs & Hns & Hh & Hnh & Hlogs). rewrite Hs, Hh.
    apply truthy_Some in Hns, Hnh. rewrite Hns, Hnh. cbn.
    destruct r; cbn in *. now subst.
Qed.

Lemma map_receipt_Throw (response : ResultTransactionReceipt) :
  (exists e, map_receipt response = Throw e) <-> unparsable response.
Proof.
  unfold unparsable. split.
  - intros [e He] r Hr. apply map_receipt_spec in Hr. congruence.
  - intros Hnone. destruct (map_receipt response) as [r | e] eqn:Hr; [| eauto].
    apply map_receipt_spec in Hr. now destruct (Hnone r).
Qed.

Lemma map_receipts_spec
    (combined : list ResultTransactionReceipt) (receipts : list ReceiptTransaction) :
  map_receipts combined = Ok receipts <-> Forall2 receipt_of combined receipts.
Proof.
  revert receipts. induction combined as [| response rest IH]; intros receipts;
    cbn [map_receipts].
  - split.
    + intros [= <-]. constructor.
    + intros Hrel. inversion Hrel. reflexivity.
  - split.
    + destruct (map_receipt response) as [r |] eqn:Hr; [| discriminate].
      destruct (map_receipts rest) as [rs |] eqn:Hrs; [| discriminate].
      intros [= <-]. constructor; [now apply map_receipt_spec | now apply IH].
    + intros Hrel. inversion Hrel as [| response' r rest' rs Hr Hrs]; subst.
      apply map_receipt_spec in Hr. apply IH in Hrs. now rewrite Hr, Hrs.
Qed.

Lemma map_receipts_Throw (combined : list ResultTransactionReceipt) :
  (exists e, map_receipts combined = Throw e) <-> Exists unparsable combined.
Proof.
  induction combined as [| response rest IH]; cbn [map_receipts].
  - split; [intros [e He]; discriminate | intros Hex; inversion Hex].
  - destruct (map_receipt response) as [r | e'] eqn:Hr.
    + assert (Hparsed : ~ unparsable response).
      { intros Hnone. apply map_receipt_Throw in Hnone. destruct Hnone as [e He].
        congruence. }
      destruct (map_receipts rest) as [rs | e'] eqn:Hrs.
      * split; [intros [e He]; discriminate |].
        intros Hex. inversion Hex as [? ? Hhead | ? ? Hrest]; subst; [contradiction |].
        apply IH in Hrest. destruct Hrest as [e He]. discriminate.
      * split; [| eauto]. intros _. right. apply IH. eauto.
    + split; [| eauto]. intros _. left. apply map_receipt_Throw. eauto.
Qed.

Lemma receipts_by_hash_lookup (receipts : list ReceiptTransaction) (k : string) :
  receipts_by_hash receipts !! k = stored_under receipt_transactionHash k receipts.
Proof.
  unfold receipts_by_hash. rewrite own_fold_lookup, lookup_empty.
  now destruct (stored_under receipt_transactionHash k receipts).
Qed.

Section GetTransactionReceiptProps.
Context {H : Type} `{HttpClient H}.

(** When the node answers every batch, the loop accumulates the responses
    of its replies that are not [null], in order. *)
Lemma post_batches_answered
    (chainCfg : ChainCfg) (batches : list (list string)) (id : Z) (h h' : H)
    (replies : list (list (option ResultTransactionReceipt))) :
  batches_answered chainCfg batches id h replies h' ->
  forall combined,
    post_batches chainCfg batches id combined h
    = (Ok (combined ++ non_null_responses replies), h').
Proof.
  induction 1 as [id h | batch rest id h h1 h' results replies Hpost _ IH];
    intros combined; cbn [post_batches].
  - unfold ret, non_null_responses. cbn. now rewrite app_nil_r.
  - unfold bind at 1. rewrite Hpost, IH, push_results_omap.
    unfold non_null_responses. cbn [concat]. now rewrite omap_app, app_assoc.
Qed.

(** C6 (amended). Let the node answer the batches of a
    [getTransactionReceipt] call with [replies].  The call fails, with an
    error and no mapping, exactly when one of the responses that are not
    [null] cannot be parsed (it carries no result, no status or no
    transaction hash) or when no such response is left.  When it returns a
    mapping, every response that is not [null] was parsed, and the mapping
    holds under each transaction hash the last receipt with that hash: a
    [null] entry of a reply is the only thing left out. *)
Theorem getTransactionReceipt_fails_on_unparsable
    (chains : gmap string ChainRPCConfig) (chain : string) (hashNumbers : list string)
    (chainCfg : ChainCfg) (replies : list (list (option ResultTransactionReceipt)))
    (h h' : H) :
  getCurrentChain chains chain = Ok chainCfg ->
  batches_answered chainCfg (divideIntoBatches hashNumbers 10) 1 h replies h' ->
  ((exists e, getTransactionReceipt chains chain hashNumbers h = (Throw e, h'))
   <-> non_null_responses replies = []
       \/ Exists unparsable (non_null_responses replies))
  /\ (forall record,
        getTransactionReceipt chains chain hashNumbers h = (Ok record, h') ->
        exists receipts,
          Forall2 receipt_of (non_null_responses replies) receipts
          /\ forall k, record !! k = stored_under receipt_transactionHash k receipts).
Proof.
  intros Hcfg Hanswered.
  pose proof (post_batches_answered _ _ _ _ _ _ Hanswered []) as Hbatches.
  cbn [app] in Hbatches.
  assert (Hcall :
    getTransactionReceipt chains chain hashNumbers h
    = match non_null_responses replies with
      | [] => (Throw (UnableToParse "eth_getTransactionReceipt" 0), h')
      | _ :: _ =>
          match map_receipts (non_null_responses replies) with
          | Ok receipts => (Ok (receipts_by_hash receipts), h')
          | Throw e => (Throw e, h')
          end
      end).
  { unfold getTransactionReceipt, bind, lift, throw, ret. rewrite Hcfg, Hbatches.
    destruct (non_null_responses replies) as [| c cs]; [reflexivity |].
    now destruct (map_receipts (c :: cs)). }
  rewrite Hcall. clear Hcall Hbatches.
  destruct (non_null_responses replies) as [| c cs] eqn:Hresponses.
  - split.
    + split; [auto | eauto].
    + intros record [=].
  - destruct (map_receipts (c :: cs)) as [receipts | e] eqn:Hmap.
    + split.
      * split; [intros [e [=]] |].
        intros [[=] | Hbad]. apply map_receipts_Throw in Hbad.
        destruct Hbad as [e He]. congruence.
      * intros record [= <-]. exists receipts.
        split; [now apply map_receipts_spec | apply receipts_by_hash_lookup].
    + split.
      * split; [| eauto]. intros _. right. apply map_receipts_Throw. eauto.
      * intros record [=].
Qed.

End GetTransactionReceiptProps.

Lemma getTransactionReceipt_fails_on_unparsable_witness :
  let replies := [[Some not_found_response; Some (receipt_response "0x1" "0x02")]] in
  unparsable not_found_response
  /\ exists e,
       getTransactionReceipt (one_chain "ethereum" "http://node" 2) "ethereum"
         ["0x01"; "0x02"] (receipts_script replies)
       = (Throw e, no_script).
Proof.
  intros replies.
  assert (Hbad : unparsable not_found_response).
  { intros r (raw & Hraw & _). discriminate Hraw. }
  split; [exact Hbad |].
  destruct (getTransactionReceipt_fails_on_unparsable
              (one_chain "ethereum" "http://node" 2) "ethereum" ["0x01"; "0x02"]
              {| chainId := 2; rpc := "http://node"; timeout := 10000; retries := 2 |}
              replies (receipts_script replies) no_script) as [Hfails _].
  - reflexivity.
  - change (divideIntoBatches ["0x01"; "0x02"] 10) with [["0x01"; "0x02"]].
    eapply answered_cons; [reflexivity | apply answered_nil].
  - apply Hfails. right. left. exact Hbad.
Defined.

(** ** The queue consumer *)

Import Queue.

Section ConsumerProps.
Context {VaaEvent : Type} (codec : Codec VaaEvent) (q : SQS VaaEvent).

Lemma handle_message_inv
    (msg : SqsMessage) (rest : list SqsMessage) (expiredAt : Z) (deleteFails : bool)
    (s : State VaaEvent) :
  pc s = InRange (msg :: rest) expiredAt ->
  Consumer_inv s ->
  Consumer_inv (handle_message codec q msg rest expiredAt deleteFails s).
Proof.
  intros Hpc [Hcount Hsent Hidle].
  rewrite Hpc in Hcount. cbn in Hcount.
  specialize (Hcount ltac:(discriminate)).
  unfold handle_message.
  destruct (unmarshal_sqsEvent codec (Body msg)) as [ev |].
  2: { split; cbn; [intros _; lia | exact Hsent | discriminate]. }
  destruct (unmarshal_vaaEvent codec (Message ev)) as [v |].
  2: { split; cbn; [intros _; lia | exact Hsent | discriminate]. }
  destruct (filterConsume q v).
  - split; cbn; [intros _; lia | exact Hsent | discriminate].
  - split; cbn; [intros _; lia | exact Hsent | discriminate].
Qed.

Lemma step_inv (e : Event) (s s' : State VaaEvent) :
  Consumer_inv s -> step codec q e s = Some s' -> Consumer_inv s'.
Proof.
  intros Hinv Hstep.
  pose proof Hinv as [Hcount Hsent Hidle].
  unfold step in Hstep.
  destruct e.
  - (* GetMessagesFails *)
    destruct (pc s) eqn:Hpc; try discriminate. injection Hstep as <-.
    split; cbn; [intros _ | exact Hsent | intros _; now apply Hidle].
    rewrite (Hcount ltac:(discriminate)). reflexivity.
  - (* GetMessagesReturns *)
    destruct (pc s) eqn:Hpc; try discriminate. injection Hstep as <-.
    split; cbn; [intros _ | exact Hsent | discriminate].
    rewrite (Hcount ltac:(discriminate)). reflexivity.
  - (* HandleMessage *)
    destruct (pc s) as [| [| msg rest] expiredAt | |] eqn:Hpc; try discriminate.
    injection Hstep as <-. now apply handle_message_inv.
  - (* SendBuffered *)
    destruct (pc s) eqn:Hpc; try discriminate.
    destruct (negb (closed s) && (length (ch s) <? chSize q)%nat); [| discriminate].
    injection Hstep as <-.
    specialize (Hcount ltac:(discriminate)). cbn in Hcount.
    split; cbn; [intros _ | | discriminate].
    + rewrite length_app. cbn. lia.
    + rewrite Hsent. solve_Permutation.
  - (* SendToReceiver *)
    destruct (pc s) eqn:Hpc; try discriminate.
    destruct (negb (closed s) && (length (ch s) =? 0)%nat); [| discriminate].
    injection Hstep as <-.
    specialize (Hcount ltac:(discriminate)). cbn in Hcount.
    split; cbn; [intros _ | | discriminate].
    + rewrite length_app. cbn. lia.
    + rewrite Hsent. solve_Permutation.
  - (* SendPanics *)
    destruct (pc s) eqn:Hpc; try discriminate.
    destruct (closed s); [| discriminate]. injection Hstep as <-.
    split; cbn; [congruence | exact Hsent | discriminate].
  - (* WaitReturns *)
    destruct (pc s) as [| [| msg rest] expiredAt | |] eqn:Hpc; try discriminate.
    destruct (Z.eqb_spec (wg s) 0) as [Hzero |]; [| discriminate].
    injection Hstep as <-.
    specialize (Hcount ltac:(discriminate)). cbn in Hcount.
    split; cbn; [intros _; lia | exact Hsent | intros _; exact Hzero].
  - (* Receive *)
    assert (Hgo : match ch s with
                  | m :: rest =>
                      Some {| pc := pc s; wg := wg s; ch := rest; closed := closed s;
                              held := held s ++ [m];
                              deleteCalls := deleteCalls s; metrics := metrics s;
                              errors := errors s; fetches := fetches s;
                              sent := sent s; settled := settled s |}
                  | [] => None
                  end = Some s') by (destruct (pc s); exact Hstep).
    clear Hstep. destruct (ch s) as [| m rest] eqn:Hch; [discriminate |].
    injection Hgo as <-.
    split; cbn.
    + intros Hpc. rewrite (Hcount Hpc), length_app. cbn. lia.
    + rewrite Hsent. solve_Permutation.
    + intros Hpc. specialize (Hidle Hpc).
      rewrite Hcount in Hidle by congruence. cbn in Hidle. lia.
  - (* Done *)
    assert (Hgo : match held s !! i with
                  | Some m => Some (settle i m (DeleteMessage (msg_id m) deleteFails s))
                  | None => None
                  end = Some s') by (destruct (pc s); exact Hstep).
    clear Hstep. destruct (held s !! i) as [m |] eqn:Hheld; [| discriminate].
    injection Hgo as <-.
    pose proof (lookup_lt_Some _ _ _ Hheld) as Hlt.
    split; cbn.
    + intros Hpc. rewrite (Hcount Hpc), length_delete by eauto. lia.
    + rewrite Hsent. rewrite (delete_Permutation _ _ _ Hheld) at 1.
      solve_Permutation.
    + intros Hpc. specialize (Hidle Hpc).
      rewrite Hcount in Hidle by congruence. lia.
  - (* Failed *)
    assert (Hgo : match held s !! i with
                  | Some m => Some (settle i m s)
                  | None => None
                  end = Some s') by (destruct (pc s); exact Hstep).
    clear Hstep. destruct (held s !! i) as [m |] eqn:Hheld; [| discriminate].
    injection Hgo as <-.
    pose proof (lookup_lt_Some _ _ _ Hheld) as Hlt.
    split; cbn.
    + intros Hpc. rewrite (Hcount Hpc), length_delete by eauto. lia.
    + rewrite Hsent. rewrite (delete_Permutation _ _ _ Hheld) at 1.
      solve_Permutation.
    + intros Hpc. specialize (Hidle Hpc).
      rewrite Hcount in Hidle by congruence. lia.
  - (* Close *)
    assert (Hgo : (if closed s then None
                   else Some {| pc := pc s; wg := wg s; ch := ch s; closed := true;
                                held := held s; deleteCalls := deleteCalls s;
                                metrics := metrics s; errors := errors s;
                                fetches := fetches s; sent := sent s;
                                settled := settled s |}) = Some s')
      by (destruct (pc s); exact Hstep).
    clear Hstep. destruct (closed s); [discriminate |]. injection Hgo as <-.
    split; cbn; assumption.
Qed.

Lemma run_inv (events : list Event) (s s' : State VaaEvent) :
  Consumer_inv s -> run codec q events s = Some s' -> Consumer_inv s'.
Proof.
  revert s. induction events as [| e rest IH]; intros s Hinv Hrun; cbn in Hrun.
  - now injection Hrun as <-.
  - destruct (step codec q e s) as [s1 |] eqn:Hstep; [| discriminate].
    eapply IH; [| exact Hrun]. eapply step_inv; eassumption.
Qed.

Lemma NewVAASQS_inv : Consumer_inv (@NewVAASQS VaaEvent).
Proof. split; cbn; [reflexivity | reflexivity | reflexivity]. Qed.

End ConsumerProps.

Section ConsumeProps.
Context {VaaEvent : Type} (codec : Codec VaaEvent) (q : SQS VaaEvent).

(** C1. In every run of the consumer from its initial state (workers
    settling each message they receive once), whenever [GetMessages] is
    called the wait-group counter is zero, the channel is empty, no worker
    holds a message, and every message that was put on the channel has
    been settled by [Done] or [Failed]: the next batch is not fetched
    before the current one is drained. *)
Theorem Consume_fetches_only_when_drained
    (events : list Event) (e : Event) (s s' : State VaaEvent) :
  run codec q events NewVAASQS = Some s ->
  is_GetMessages e = true ->
  step codec q e s = Some s' ->
  wg s = 0 /\ ch s = [] /\ held s = [] /\ sent s ≡ₚ settled s.
Proof.
  intros Hrun Hfetch Hstep.
  destruct (run_inv codec q events _ _ (NewVAASQS_inv) Hrun) as [Hcount Hsent Hidle].
  assert (Hpc : pc s = AtGetMessages).
  { unfold step in Hstep.
    destruct e; try discriminate Hfetch; destruct (pc s); congruence. }
  specialize (Hidle Hpc).
  rewrite Hcount, Hpc in Hidle by congruence. cbn in Hidle.
  assert (Hch : ch s = []) by (destruct (ch s); [reflexivity | cbn in Hidle; lia]).
  assert (Hheld : held s = []) by (destruct (held s); [reflexivity | cbn in Hidle; lia]).
  rewrite Hch, Hheld, !app_nil_r in Hsent.
  rewrite Hcount, Hpc, Hch, Hheld by congruence. auto.
Qed.

Lemma counter_value_app (m : Metrics) (c c' : Counter) (chain chain' : Z) :
  counter_value (m ++ [(c', chain')]) c chain
  = (counter_value m c chain
     + if decide ((c', chain') = (c, chain)) then 1 else 0)%nat.
Proof.
  unfold counter_value. rewrite List.filter_app, length_app. cbn.
  unfold bool_decide. destruct (decide_rel eq (c', chain') (c, chain)) as [Heq | Hne].
  - rewrite decide_True by exact Heq. reflexivity.
  - rewrite decide_False by exact Hne. reflexivity.
Qed.

(** C4 (amended). For a fetched message that decodes to an event the
    filter predicate rejects, the consumer makes one [DeleteMessage] call
    for the message's receipt handle (the queue service has then deleted
    it unless the call fails), goes on to the next message without putting
    anything on the channel or counting the message in flight, and
    increments the consumed counter of the event's chain by exactly one;
    every other counter keeps its value, there being no filtered counter. *)
Theorem Consume_rejected_message
    (msg : SqsMessage) (rest : list SqsMessage) (expiredAt : Z) (deleteFails : bool)
    (s : State VaaEvent) (sqsEv : sqsEvent) (vaaEvent : VaaEvent) :
  pc s = InRange (msg :: rest) expiredAt ->
  unmarshal_sqsEvent codec (Body msg) = Some sqsEv ->
  unmarshal_vaaEvent codec (Message sqsEv) = Some vaaEvent ->
  filterConsume q vaaEvent = true ->
  exists s',
    step codec q (HandleMessage deleteFails) s = Some s'
    /\ deleteCalls s' = deleteCalls s ++ [(ReceiptHandle msg, negb deleteFails)]
    /\ (deleteFails = false -> deleted s' = deleted s ++ [ReceiptHandle msg])
    /\ pc s' = InRange rest expiredAt
    /\ ch s' = ch s /\ held s' = held s /\ sent s' = sent s /\ wg s' = wg s
    /\ forall (c : Counter) (chain : Z),
         counter_value (metrics s') c chain
         = (counter_value (metrics s) c chain
            + if decide ((VaaConsumedQueue, ChainID codec vaaEvent) = (c, chain))
              then 1 else 0)%nat.
Proof.
  intros Hpc Henv Hev Hfilter.
  eexists. split.
  { unfold step. rewrite Hpc. unfold handle_message.
    rewrite Henv, Hev, Hfilter. reflexivity. }
  cbn. split; [reflexivity |]. split.
  { intros ->. unfold deleted. cbn. rewrite List.filter_app, List.map_app. reflexivity. }
  repeat (split; [reflexivity |]).
  intros c chain. apply counter_value_app.
Qed.

(** C10. For a fetched message whose envelope or whose event payload fails
    to decode, the consumer makes no [DeleteMessage] call, puts nothing on
    the channel, leaves the wait-group counter and every metric counter as
    they were, and goes on to the next message of the batch. *)
Theorem Consume_undecodable_message_skipped
    (msg : SqsMessage) (rest : list SqsMessage) (expiredAt : Z) (deleteFails : bool)
    (s : State VaaEvent) :
  pc s = InRange (msg :: rest) expiredAt ->
  unmarshal_sqsEvent codec (Body msg) = None
  \/ (exists sqsEv, unmarshal_sqsEvent codec (Body msg) = Some sqsEv
                    /\ unmarshal_vaaEvent codec (Message sqsEv) = None) ->
  exists s',
    step codec q (HandleMessage deleteFails) s = Some s'
    /\ deleteCalls s' = deleteCalls s
    /\ ch s' = ch s /\ held s' = held s /\ sent s' = sent s
    /\ wg s' = wg s
    /\ metrics s' = metrics s
    /\ pc s' = InRange rest expiredAt.
Proof.
  intros Hpc Hbad. unfold step. rewrite Hpc. unfold handle_message.
  destruct Hbad as [Henv | (sqsEv & Henv & Hev)].
  - rewrite Henv. eexists. split; [reflexivity |]. cbn. tauto.
  - rewrite Henv, Hev. eexists. split; [reflexivity |]. cbn. tauto.
Qed.

End ConsumeProps.

Lemma Consume_fetches_only_when_drained_witness :
  let events :=
    [GetMessagesReturns [sqs_message "2" "h1"; sqs_message "4" "h2"] 1000;
     HandleMessage false; SendBuffered; HandleMessage false; SendBuffered;
     Receive; Receive; Done 0 false; Failed 0; WaitReturns] in
  exists s,
    run test_codec test_queue events NewVAASQS = Some s
    /\ length (sent s) = 2%nat
    /\ wg s = 0 /\ ch s = [] /\ held s = [] /\ sent s ≡ₚ settled s.
Proof.
  intros events. eexists.
  split; [vm_compute; reflexivity |]. split; [reflexivity |].
  eapply (Consume_fetches_only_when_drained test_codec test_queue events GetMessagesFails).
  - vm_compute. reflexivity.
  - reflexivity.
  - vm_compute. reflexivity.
Defined.

(** A message of chain 0 is rejected by the filter of [test_queue]: the
    only counter that moves is the consumed counter. *)
Lemma Consume_rejected_message_no_filtered_counter :
  let s := in_range [sqs_message "0" "h1"] in
  exists s',
    step test_codec test_queue (HandleMessage false) s = Some s'
    /\ deleted s' = ["h1"]
    /\ ~ (exists filtered : Counter,
            filtered <> VaaConsumedQueue
            /\ filtered <> VaaUnfiltered
            /\ counter_value (metrics s') filtered 0
               = S (counter_value (metrics s) filtered 0)).
Proof.
  intros s. eexists. split; [vm_compute; reflexivity |]. split; [reflexivity |].
  intros (filtered & Hconsumed & Hunfiltered & Hinc).
  destruct filtered; try congruence; discriminate Hinc.
Qed.

Lemma Consume_rejected_message_witness :
  let s := in_range [sqs_message "0" "h1"; sqs_message "2" "h2"] in
  exists s',
    step test_codec test_queue (HandleMessage false) s = Some s'
    /\ deleteCalls s' = [("h1", true)]
    /\ pc s' = InRange [sqs_message "2" "h2"] 1030
    /\ sent s' = []
    /\ counter_value (metrics s') VaaConsumedQueue 0 = 1%nat
    /\ counter_value (metrics s') VaaUnfiltered 0 = 0%nat.
Proof.
  intros s.
  destruct (Consume_rejected_message test_codec test_queue
              (sqs_message "0" "h1") [sqs_message "2" "h2"] 1030 false s
              {| Message := "0" |} 0 eq_refl eq_refl eq_refl eq_refl)
    as (s' & Hstep & Hdel & _ & Hpc & _ & _ & Hsent & _ & Hcount).
  exists s'. split; [exact Hstep |]. split; [exact Hdel |]. split; [exact Hpc |].
  split; [exact Hsent |]. split.
  - rewrite Hcount. reflexivity.
  - rewrite Hcount. reflexivity.
Defined.

Lemma Consume_undecodable_message_skipped_witness :
  let s := in_range [sqs_message "not a number" "h1"; sqs_message "2" "h2"] in
  exists s',
    step test_codec test_queue (HandleMessage false) s = Some s'
    /\ deleteCalls s' = []
    /\ ch s' = [] /\ held s' = [] /\ sent s' = []
    /\ wg s' = 0
    /\ metrics s' = []
    /\ pc s' = InRange [sqs_message "2" "h2"] 1030.
Proof.
  intros s.
  apply (Consume_undecodable_message_skipped test_codec test_queue
           (sqs_message "not a number" "h1") [sqs_message "2" "h2"] 1030 false s eq_refl).
  right. exists {| Message := "not a number" |}. split; reflexivity.
Defined.

(** * Further properties *)

(** ** [new Set(...)] and [divideIntoBatches] *)

Lemma Set_of_fold_spec (l acc : list string) :
  NoDup acc ->
  NoDup (fold_left (fun acc x => if Js.includes acc x then acc else acc ++ [x]) l acc)
  /\ forall x,
       In x (fold_left (fun acc x => if Js.includes acc x then acc else acc ++ [x]) l acc)
       <-> In x acc \/ In x l.
Proof.
  revert acc. induction l as [| y l IH]; intros acc Hnd; cbn [fold_left].
  - split; [exact Hnd |]. intros x. cbn. tauto.
  - destruct (Js.includes acc y) eqn:Hinc.
    + destruct (IH acc Hnd) as [Hnd' Hin]. split; [exact Hnd' |].
      intros x. rewrite Hin. cbn. apply includes_In in Hinc.
      split; [tauto |]. intros [Hx | [<- | Hx]]; auto.
    + assert (Hnot : ~ In y acc).
      { intros Hy. apply includes_In in Hy. congruence. }
      destruct (IH (acc ++ [y])) as [Hnd' Hin].
      { apply NoDup_app. split; [exact Hnd |]. split; [| apply NoDup_singleton].
        intros x Hx Hx'. apply list_elem_of_In in Hx.
        apply list_elem_of_singleton in Hx'. now subst. }
      split; [exact Hnd' |].
      intros x. rewrite Hin, in_app_iff. cbn. tauto.
Qed.

Lemma Set_of_fold_NoDup_id (l acc : list string) :
  NoDup (acc ++ l) ->
  fold_left (fun acc x => if Js.includes acc x then acc else acc ++ [x]) l acc = acc ++ l.
Proof.
  revert acc. induction l as [| y l IH]; intros acc Hnd; cbn [fold_left].
  - now rewrite app_nil_r.
  - assert (Hinc : Js.includes acc y = false).
    { destruct (Js.includes acc y) eqn:Hinc; [| reflexivity].
      apply includes_In in Hinc. apply NoDup_app in Hnd.
      destruct Hnd as (_ & Hdisj & _). exfalso.
      apply (Hdisj y); [now apply list_elem_of_In | left]. }
    rewrite Hinc, IH.
    + now rewrite <- app_assoc.
    + now rewrite <- app_assoc.
Qed.

(** [new Set(a)] holds each element of [a] once, and nothing else. *)
Lemma Set_of_spec (a : list string) :
  NoDup (Js.Set_of a) /\ forall x, In x (Js.Set_of a) <-> In x a.
Proof.
  destruct (Set_of_fold_spec a [] (NoDup_nil_2)) as [Hnd Hin].
  split; [exact Hnd |]. intros x. unfold Js.Set_of. rewrite Hin. cbn. tauto.
Qed.

Lemma Set_of_NoDup_id (a : list string) : NoDup a -> Js.Set_of a = a.
Proof. intros Hnd. unfold Js.Set_of. now rewrite Set_of_fold_NoDup_id. Qed.

Lemma fill_batches_spec (batchSize : nat) (items batch : list string)
    (batches : list (list string)) :
  (length batch < batchSize)%nat ->
  NoDup (batch ++ items) ->
  exists full rest,
    fill_batches batchSize items batch batches = (batches ++ full, rest)
    /\ concat full ++ rest = batch ++ items
    /\ Forall (fun b => length b = batchSize) full
    /\ (length rest < batchSize)%nat.
Proof.
  revert batch batches. induction items as [| item items IH]; intros batch batches Hlt Hnd.
  - exists [], batch. cbn. rewrite !app_nil_r. auto.
  - cbn [fill_batches].
    assert (Hnd' : NoDup ((batch ++ [item]) ++ items)) by now rewrite <- app_assoc.
    destruct (Nat.eqb_spec (length (batch ++ [item])) batchSize) as [Heq | Hne].
    + destruct (IH [] (batches ++ [Js.Set_of (batch ++ [item])])) as
        (full & rest & Hfill & Hcat & Hfull & Hrest).
      { cbn. lia. }
      { cbn. apply NoDup_app in Hnd'. tauto. }
      assert (Hset : Js.Set_of (batch ++ [item]) = batch ++ [item]).
      { apply Set_of_NoDup_id. apply NoDup_app in Hnd'. tauto. }
      exists ((batch ++ [item]) :: full), rest.
      rewrite Hfill, Hset, <- app_assoc. cbn.
      split; [reflexivity |]. split.
      * cbn in Hcat. cbn [concat]. rewrite <- !app_assoc. cbn [app].
        now rewrite Hcat.
      * split; [constructor; assumption | exact Hrest].
    + destruct (IH (batch ++ [item]) batches) as (full & rest & Hfill & Hcat & Hfull & Hrest).
      { rewrite length_app in *. cbn in *. lia. }
      { exact Hnd'. }
      exists full, rest. rewrite Hfill, Hcat, <- app_assoc. auto.
Qed.

Lemma divideIntoBatches_spec (set : list string) (batchSize : nat) :
  (0 < batchSize)%nat ->
  NoDup set ->
  concat (divideIntoBatches set batchSize) = set
  /\ Forall (fun b => (1 <= length b <= batchSize)%nat) (divideIntoBatches set batchSize)
  /\ length (divideIntoBatches set batchSize)
     = ((length set + batchSize - 1) / batchSize)%nat.
Proof.
  intros Hpos Hnd. unfold divideIntoBatches.
  destruct (fill_batches_spec batchSize set [] [] Hpos Hnd)
    as (full & rest & Hfill & Hcat & Hfull & Hrest).
  rewrite Hfill. cbn [app] in *.
  assert (Hlen : length set = (batchSize * length full + length rest)%nat).
  { rewrite <- Hcat, length_app. f_equal.
    clear Hcat Hfill. induction Hfull as [| b bs Hb _ IH]; cbn; [lia |].
    rewrite length_app, IH, Hb. lia. }
  assert (Hbounds : Forall (fun b => (1 <= length b <= batchSize)%nat) full).
  { eapply List.Forall_impl; [| exact Hfull]. cbn. intros b Hb. lia. }
  assert (Hrestset : Js.Set_of rest = rest).
  { apply Set_of_NoDup_id. rewrite <- Hcat in Hnd. apply NoDup_app in Hnd. tauto. }
  destruct (Nat.ltb_spec 0 (length rest)) as [Hnonempty | Hempty].
  - rewrite Hrestset. split; [| split].
    + rewrite concat_app. cbn. now rewrite app_nil_r.
    + apply Forall_app. split; [exact Hbounds |]. constructor; [lia | constructor].
    + rewrite length_app. cbn. rewrite Hlen.
      apply (Nat.div_unique _ _ _ (length rest - 1)%nat); lia.
  - assert (Hnil : rest = []) by (destruct rest; [reflexivity | cbn in Hempty; lia]).
    subst rest. rewrite app_nil_r in Hcat. split; [exact Hcat |]. split; [exact Hbounds |].
    rewrite Hlen. cbn [length].
    apply (Nat.div_unique _ _ _ (batchSize - 1)%nat); lia.
Qed.

(** X1. For a set given without repetition and a positive batch size, the
    batches of [divideIntoBatches], put end to end, are the set in its
    order: no hash is lost, added, repeated or moved.  Every batch is
    non-empty and holds at most [batchSize] items, and there are
    [ceil(n / batchSize)] batches for [n] items. *)
Theorem divideIntoBatches_partition (set : list string) (batchSize : nat) :
  (0 < batchSize)%nat ->
  NoDup set ->
  concat (divideIntoBatches set batchSize) = set
  /\ Forall (fun b => (1 <= length b <= batchSize)%nat) (divideIntoBatches set batchSize)
  /\ length (divideIntoBatches set batchSize)
     = ((length set + batchSize - 1) / batchSize)%nat.
Proof. exact (divideIntoBatches_spec set batchSize). Qed.

Lemma divideIntoBatches_partition_witness :
  let set := map Js.toString [1; 2; 3; 4; 5; 6; 7] in
  concat (divideIntoBatches set 3) = set
  /\ Forall (fun b => (1 <= length b <= 3)%nat) (divideIntoBatches set 3)
  /\ length (divideIntoBatches set 3) = ((length set + 3 - 1) / 3)%nat.
Proof.
  intros set. apply (divideIntoBatches_partition set 3).
  - lia.
  - apply (bool_decide_unpack _). vm_compute. exact I.
Defined.

(** ** Records built by [reduce] *)

Section KeyedFold.
Context {A : Type} (key : A -> string).

Lemma keyed_fold_NoDup (l : list A) (acc : gmap string A) :
  NoDup (map key l) ->
  (forall x, In x l -> acc !! key x = None) ->
  size (fold_left (fun acc x => <[key x := x]> acc) l acc) = (size acc + length l)%nat
  /\ forall k v,
       fold_left (fun acc x => <[key x := x]> acc) l acc !! k = Some v
       <-> acc !! k = Some v \/ (In v l /\ key v = k).
Proof.
  revert acc. induction l as [| x l IH]; intros acc Hnd Hfresh; cbn [fold_left].
  - split; [cbn; lia |]. intros k v. cbn. tauto.
  - cbn in Hnd. apply NoDup_cons in Hnd. destruct Hnd as [Hx Hnd].
    destruct (IH (<[key x := x]> acc) Hnd) as [Hsize Hlook].
    { intros y Hy. rewrite lookup_insert_ne.
      - apply Hfresh. now right.
      - intros Heq. apply Hx. rewrite Heq. apply list_elem_of_In. now apply in_map. }
    split.
    + rewrite Hsize, map_size_insert_None by (apply Hfresh; now left). cbn. lia.
    + intros k v. rewrite Hlook. cbn. split.
      * intros [Hins | [Hin Hkey]]; [| tauto].
        destruct (decide (key x = k)) as [<- | Hne].
        -- rewrite lookup_insert_eq in Hins. injection Hins as <-. tauto.
        -- rewrite lookup_insert_ne in Hins by exact Hne. tauto.
      * intros [Hacc | [[<- | Hin] Hkey]].
        -- left. rewrite lookup_insert_ne; [exact Hacc |].
           intros Heq. rewrite <- Heq, Hfresh in Hacc; [discriminate | now left].
        -- left. rewrite <- Hkey. apply lookup_insert_eq.
        -- tauto.
Qed.

(** When the keys are distinct, the record does not depend on the order
    in which the entries were stored. *)
Lemma keyed_fold_Permutation (l1 l2 : list A) :
  NoDup (map key l1) ->
  l1 ≡ₚ l2 ->
  fold_left (fun acc x => <[key x := x]> acc) l1 (∅ : gmap string A)
  = fold_left (fun acc x => <[key x := x]> acc) l2 ∅.
Proof.
  intros Hnd Hperm.
  assert (Hnd2 : NoDup (map key l2)) by now rewrite <- Hperm.
  destruct (keyed_fold_NoDup l1 ∅ Hnd) as [_ H1]; [intros; apply lookup_empty |].
  destruct (keyed_fold_NoDup l2 ∅ Hnd2) as [_ H2]; [intros; apply lookup_empty |].
  apply map_eq. intros k. apply option_eq. intros v.
  rewrite H1, H2, !lookup_empty.
  split; (intros [Hbad | [Hin Hkey]]; [discriminate |]); right; split; try exact Hkey.
  - apply list_elem_of_In. rewrite <- Hperm. now apply list_elem_of_In.
  - apply list_elem_of_In. rewrite Hperm. now apply list_elem_of_In.
Qed.

End KeyedFold.

(** ** More on [getTransactionReceipt] *)

Lemma Forall2_In_r {A B} (P : A -> B -> Prop) (l : list A) (k : list B) (y : B) :
  Forall2 P l k -> In y k -> exists x, In x l /\ P x y.
Proof.
  induction 1 as [| x y' l k Hxy _ IH]; intros Hin; [contradiction |].
  destruct Hin as [-> | Hin].
  - exists x. split; [now left | exact Hxy].
  - destruct (IH Hin) as (x' & Hx' & Hp). exists x'. split; [now right | exact Hp].
Qed.

Section ReceiptRecord.
Context {H : Type} `{HttpClient H}.

(** X2. Each entry of a mapping returned by [getTransactionReceipt] is
    stored under the transaction hash of the receipt itself -- not under
    the hash that was asked for; that hash is neither empty nor
    [__proto__], and the status of the receipt is not empty. *)
Theorem getTransactionReceipt_entries
    (chains : gmap string ChainRPCConfig) (chain : string) (hashNumbers : list string)
    (h h' : H) (record : gmap string ReceiptTransaction) :
  getTransactionReceipt chains chain hashNumbers h = (Ok record, h') ->
  forall k r,
    record !! k = Some r ->
    receipt_transactionHash r = k /\ k <> "" /\ k <> "__proto__" /\ receipt_status r <> "".
Proof.
  unfold getTransactionReceipt, bind, lift. intros Hcall.
  destruct (getCurrentChain chains chain) as [chainCfg |]; [| discriminate].
  destruct (post_batches chainCfg (divideIntoBatches hashNumbers 10) 1 [] h)
    as [[combined |] h1]; [| discriminate].
  destruct combined as [| c cs]; [discriminate |].
  destruct (map_receipts (c :: cs)) as [receipts |] eqn:Hmap; [| discriminate].
  cbn in Hcall. injection Hcall as <- <-.
  apply map_receipts_spec in Hmap.
  intros k r Hk. rewrite receipts_by_hash_lookup in Hk.
  apply stored_under_key in Hk. destruct Hk as (Hin & Hkey & Hproto).
  destruct (Forall2_In_r _ _ _ _ Hmap Hin) as (response & _ & raw & _ & _ & Hs & _ & Hh & _).
  subst k. auto.
Qed.

End ReceiptRecord.

Lemma getTransactionReceipt_entries_witness :
  let r := {| receipt_status := "0x1"; receipt_transactionHash := "0x02";
              receipt_logs := Some [] |} in
  getTransactionReceipt (one_chain "ethereum" "http://node" 2) "ethereum" ["0x01"]
    (receipts_script [[Some (receipt_response "0x1" "0x02")]])
  = (Ok {[ "0x02" := r ]}, no_script)
  /\ receipt_transactionHash r = "0x02" /\ "0x02" <> "" /\ "0x02" <> "__proto__"
  /\ receipt_status r <> "".
Proof.
  intros r.
  assert (Hcall :
    getTransactionReceipt (one_chain "ethereum" "http://node" 2) "ethereum" ["0x01"]
      (receipts_script [[Some (receipt_response "0x1" "0x02")]])
    = (Ok {[ "0x02" := r ]}, no_script)) by reflexivity.
  split; [exact Hcall |].
  apply (getTransactionReceipt_entries _ _ _ _ _ _ Hcall "0x02" r).
  reflexivity.
Defined.

Lemma receipt_requests_spec (batch : list string) (id : Z) :
  map rreq_params (receipt_requests batch id) = batch
  /\ map rreq_id (receipt_requests batch id)
     = map (fun i => id + Z.of_nat i) (seq 0 (length batch))
  /\ Forall (fun req => rreq_method req = "eth_getTransactionReceipt")
       (receipt_requests batch id).
Proof.
  revert id. induction batch as [| hash rest IH]; intros id; cbn.
  - auto.
  - destruct (IH (id + 1)) as (Hp & Hi & Hm). rewrite Hp, Hi. split; [reflexivity |].
    split; [| constructor; [reflexivity | exact Hm]].
    f_equal; [lia |]. rewrite <- seq_shift, map_map.
    apply map_ext. intros i. lia.
Qed.

Lemma map_seq_from {B} (f : nat -> B) (a b : nat) :
  map f (seq a b) = map (fun i => f (a + i)%nat) (seq 0 b).
Proof.
  revert f a. induction b as [| b IH]; intros f a; cbn; [reflexivity |].
  f_equal; [f_equal; lia |].
  rewrite (IH f (S a)), (IH (fun i => f (a + i)%nat) 1%nat).
  apply map_ext. intros i. f_equal. lia.
Qed.

Lemma seq_ids_app (id : Z) (a b : nat) :
  map (fun i => id + Z.of_nat i) (seq 0 a)
  ++ map (fun i => id + Z.of_nat a + Z.of_nat i) (seq 0 b)
  = map (fun i => id + Z.of_nat i) (seq 0 (a + b)).
Proof.
  rewrite seq_app, map_app. f_equal. rewrite (map_seq_from _ (0 + a) b).
  apply map_ext. intros i. lia.
Qed.

(** The posts of the batch loop, seen by the recording node. *)
Lemma post_batches_recorded
    (chainCfg : ChainCfg) (batches : list (list string)) :
  forall (id : Z) (combined : list ResultTransactionReceipt) (s : Recorder),
    (length batches <= length (replies s))%nat ->
    exists combined' s',
      post_batches chainCfg batches id combined s = (Ok combined', s')
      /\ exists new,
           recorded s' = recorded s ++ new
           /\ map (map rreq_params) new = batches
           /\ map rreq_id (concat new)
              = map (fun i => id + Z.of_nat i) (seq 0 (length (concat batches)))
           /\ Forall (fun req => rreq_method req = "eth_getTransactionReceipt") (concat new).
Proof.
  induction batches as [| batch rest IH]; intros id combined s Hlen.
  - exists combined, s. split; [reflexivity |]. exists []. cbn. rewrite app_nil_r. auto.
  - cbn [post_batches]. unfold bind. cbn [post_receipts Recorder_client].
    destruct (replies s) as [| reply more] eqn:Hreplies; [cbn in Hlen; lia |].
    destruct (IH (id + Z.of_nat (length batch)) (push_results combined reply)
                {| recorded := recorded s ++ [receipt_requests batch id]; replies := more |})
      as (combined' & s' & Hpost & new & Hrec & Hparams & Hids & Hmethod).
    { cbn in *. lia. }
    exists combined', s'. split; [exact Hpost |].
    destruct (receipt_requests_spec batch id) as (Hp & Hi & Hm).
    exists (receipt_requests batch id :: new). cbn [recorded] in Hrec.
    split; [now rewrite Hrec, <- app_assoc |].
    split; [cbn; now rewrite Hp, Hparams |].
    split.
    + cbn [concat]. rewrite map_app, Hi, Hids, length_app. apply seq_ids_app.
    + cbn [concat]. apply Forall_app. split; assumption.
Qed.

(** X3. With a node that answers every batch, [getTransactionReceipt] posts
    [ceil(n / 10)] batches for [n] distinct hashes, each of one to ten
    requests for [eth_getTransactionReceipt]; taken in order, the requests
    carry the hashes of the set, each once, and the ids [1, 2, ..., n]. *)
Theorem getTransactionReceipt_requests
    (chains : gmap string ChainRPCConfig) (chain : string) (hashNumbers : list string)
    (chainCfg : ChainCfg)
    (answers : list (list (option ResultTransactionReceipt)))
    (r : Result (gmap string ReceiptTransaction)) (s' : Recorder) :
  getCurrentChain chains chain = Ok chainCfg ->
  NoDup hashNumbers ->
  (length (divideIntoBatches hashNumbers 10) <= length answers)%nat ->
  getTransactionReceipt chains chain hashNumbers {| recorded := []; replies := answers |}
    = (r, s') ->
  length (recorded s') = ((length hashNumbers + 10 - 1) / 10)%nat
  /\ Forall (fun reqs => (1 <= length reqs <= 10)%nat) (recorded s')
  /\ map rreq_params (concat (recorded s')) = hashNumbers
  /\ map rreq_id (concat (recorded s'))
     = map (fun i => 1 + Z.of_nat i) (seq 0 (length hashNumbers))
  /\ Forall (fun req => rreq_method req = "eth_getTransactionReceipt")
       (concat (recorded s')).
Proof.
  intros Hcfg Hnd Hlen Hcall.
  destruct (divideIntoBatches_spec hashNumbers 10 ltac:(lia) Hnd)
    as (Hcat & Hbounds & Hcount).
  destruct (post_batches_recorded chainCfg (divideIntoBatches hashNumbers 10) 1 []
              {| recorded := []; replies := answers |} Hlen)
    as (combined & s1 & Hpost & new & Hrec & Hparams & Hids & Hmethod).
  assert (Hs : s' = s1).
  { unfold getTransactionReceipt, bind, lift, throw, ret in Hcall.
    rewrite Hcfg, Hpost in Hcall.
    destruct combined as [| c cs]; [now injection Hcall |].
    destruct (map_receipts (c :: cs)); now injection Hcall. }
  subst s1. cbn in Hrec. rewrite Hrec. clear Hcall Hpost Hrec.
  assert (Hnew : map (@length ReceiptRequest) new
                 = map (@length string) (divideIntoBatches hashNumbers 10)).
  { rewrite <- Hparams, map_map. apply map_ext. intros reqs. now rewrite length_map. }
  split; [| split; [| split; [| split]]].
  - rewrite <- Hcount, <- Hparams. now rewrite length_map.
  - rewrite <- Hparams in Hbounds. apply Forall_map in Hbounds.
    eapply List.Forall_impl; [| exact Hbounds]. cbn. intros reqs. now rewrite length_map.
  - rewrite concat_map, Hparams. exact Hcat.
  - rewrite Hids, Hcat. reflexivity.
  - exact Hmethod.
Qed.

Lemma getTransactionReceipt_requests_witness :
  let hashes := map Js.toString [1; 2; 3; 4; 5; 6; 7; 8; 9; 10; 11; 12] in
  let run :=
    getTransactionReceipt (one_chain "ethereum" "http://node" 2) "ethereum" hashes
      {| recorded := []; replies := [[]; []] |} in
  length (recorded (snd run)) = 2%nat
  /\ map rreq_params (concat (recorded (snd run))) = hashes.
Proof.
  intros hashes run.
  destruct (getTransactionReceipt_requests (one_chain "ethereum" "http://node" 2)
              "ethereum" hashes
              {| chainId := 2; rpc := "http://node"; timeout := 10000; retries := 2 |}
              [[]; []] (fst run) (snd run)) as (Hcount & _ & Hparams & _).
  - reflexivity.
  - apply (bool_decide_unpack _). vm_compute. exact I.
  - vm_compute. lia.
  - apply surjective_pairing.
  - split; [exact Hcount | exact Hparams].
Defined.

(** ** More on [getBlocks] *)

(** A response that carries a block is mapped to that block, whatever its
    index, and the block has the hash of the response. *)
Lemma carries_block_mapped
    (rt : Runtime) (reqs : list BlockRequest) (response : option BlockResponse) :
  carries_block rt response ->
  exists b,
    (forall idx, map_block_response rt reqs response idx = Ok b)
    /\ block_hash b = response_hash response.
Proof.
  intros (r & b & -> & Hb). exists b. split.
  - intros idx. apply map_block_response_spec. exists r. split; [reflexivity | now right].
  - destruct Hb as (_ & rb & number & timestamp & Hres & Hhash & _).
    unfold response_hash. destruct r as [rid rres rerr]. cbn in Hres. subst rres.
    now rewrite Hhash.
Qed.

Lemma map_block_responses_carried
    (rt : Runtime) (reqs : list BlockRequest) (results : list (option BlockResponse)) :
  Forall (carries_block rt) results ->
  exists blocks,
    (forall idx, map_block_responses rt reqs results idx = Ok blocks)
    /\ blocks = omap (fun response =>
                        match map_block_response rt reqs response 0 with
                        | Ok b => Some b
                        | Throw _ => None
                        end) results
    /\ map block_hash blocks = map response_hash results.
Proof.
  induction 1 as [| response rest Hhead _ (blocks & Hmap & Hblocks & Hhash)].
  - exists []. split; [reflexivity |]. split; reflexivity.
  - destruct (carries_block_mapped rt reqs response Hhead) as (b & Hb & Hbh).
    exists (b :: blocks). split; [| split].
    + intros idx. cbn [map_block_responses]. now rewrite Hb, Hmap.
    + cbn. now rewrite Hb, <- Hblocks.
    + cbn. now rewrite Hbh, Hhash.
Qed.

Lemma filter_Permutation {A} (p : A -> bool) (l1 l2 : list A) :
  l1 ≡ₚ l2 -> List.filter p l1 ≡ₚ List.filter p l2.
Proof.
  induction 1 as [| x l l' _ IH | x y l | l l' l'' _ IH1 _ IH2]; cbn [List.filter].
  - reflexivity.
  - destruct (p x); [now rewrite IH | exact IH].
  - destruct (p x), (p y); try reflexivity. apply Permutation_swap.
  - now rewrite IH1.
Qed.

Lemma NoDup_map_filter {A B} (f : A -> B) (p : A -> bool) (l : list A) :
  NoDup (map f l) -> NoDup (map f (List.filter p l)).
Proof.
  induction l as [| x rest IH]; cbn [map List.filter]; [auto |].
  intros Hnd. apply NoDup_cons in Hnd. destruct Hnd as [Hx Hnd].
  destruct (p x); [| now apply IH]. cbn [map]. apply NoDup_cons. split; [| now apply IH].
  intros Hin. apply Hx. apply list_elem_of_In in Hin. apply list_elem_of_In.
  apply in_map_iff in Hin. destruct Hin as (y & Hy & Hin).
  apply filter_In in Hin. apply in_map_iff. exists y. tauto.
Qed.

Lemma filter_length_map {A B C} (f : A -> C) (g : B -> C) (p : C -> bool)
    (l : list A) (k : list B) :
  map f l = map g k ->
  length (List.filter (fun x => p (f x)) l) = length (List.filter (fun y => p (g y)) k).
Proof.
  revert k. induction l as [| x rest IH]; intros [| y k] Hmap; try discriminate.
  - reflexivity.
  - cbn in Hmap. injection Hmap as Hxy Hrest. cbn [List.filter]. rewrite Hxy.
    destruct (p (g y)); cbn [length]; now rewrite (IH k Hrest).
Qed.

Section GetBlocksMore.
Context {H : Type} `{HttpClient H}.

(** X4. When every response carries a block and the hashes differ, the
    record [getBlocks] returns is the same whatever the order in which the
    node lists its responses, and it has one entry per response whose hash
    is not [__proto__]. *)
Theorem getBlocks_order_independent
    (rt : Runtime) (chains : gmap string ChainRPCConfig) (chain : string)
    (blockNumbers : list Z) (chainCfg : ChainCfg)
    (results1 results2 : list (option BlockResponse)) (h1 h1' h2 h2' : H) :
  blockNumbers <> [] ->
  getCurrentChain chains chain = Ok chainCfg ->
  post_blocks (rpc chainCfg) (map block_request blockNumbers) (post_opts chainCfg) h1
    = (Ok (Some results1), h1') ->
  post_blocks (rpc chainCfg) (map block_request blockNumbers) (post_opts chainCfg) h2
    = (Ok (Some results2), h2') ->
  results1 ≡ₚ results2 ->
  results1 <> [] ->
  Forall (carries_block rt) results1 ->
  NoDup (map response_hash results1) ->
  exists record,
    getBlocks rt chains chain blockNumbers h1 = (Ok record, h1')
    /\ getBlocks rt chains chain blockNumbers h2 = (Ok record, h2')
    /\ size record
       = length (List.filter
                   (fun response => negb (String.eqb (response_hash response) "__proto__"))
                   results1).
Proof.
  intros Hne Hcfg Hpost1 Hpost2 Hperm Hres Hwf Hnd.
  assert (Hwf2 : Forall (carries_block rt) results2) by now rewrite <- Hperm.
  destruct (map_block_responses_carried rt (map block_request blockNumbers) _ Hwf)
    as (blocks1 & Hmap1 & Hrel1 & Hhash1).
  destruct (map_block_responses_carried rt (map block_request blockNumbers) _ Hwf2)
    as (blocks2 & Hmap2 & Hrel2 & Hhash2).
  assert (Hblocks : blocks1 ≡ₚ blocks2) by (rewrite Hrel1, Hrel2; now rewrite Hperm).
  set (own := fun b : EvmBlock => negb (String.eqb (block_hash b) "__proto__")).
  assert (Hnd1 : NoDup (map block_hash (List.filter own blocks1))).
  { apply NoDup_map_filter. now rewrite Hhash1. }
  pose proof (filter_Permutation own _ _ Hblocks) as Hown.
  subst own. cbv beta in Hnd1, Hown.
  exists (blocks_by_hash blocks1).
  assert (Hcall : forall results blocks (h h' : H),
            post_blocks (rpc chainCfg) (map block_request blockNumbers) (post_opts chainCfg) h
              = (Ok (Some results), h') ->
            results <> [] ->
            map_block_responses rt (map block_request blockNumbers) results 0 = Ok blocks ->
            getBlocks rt chains chain blockNumbers h = (Ok (blocks_by_hash blocks), h')).
  { intros results blocks h h' Hpost Hnonempty Hmap. unfold getBlocks.
    destruct blockNumbers as [| n0 ns]; [congruence |]. cbn [length Nat.eqb].
    unfold bind, lift. rewrite Hcfg, Hpost.
    destruct results as [| r rs]; [congruence |]. now rewrite Hmap. }
  split; [| split].
  - apply (Hcall results1); auto.
  - unfold blocks_by_hash at 1. rewrite own_fold_insert.
    rewrite (keyed_fold_Permutation block_hash _ _ Hnd1 Hown).
    rewrite <- own_fold_insert.
    apply (Hcall results2); auto.
    intros ->. apply Permutation_nil_r in Hperm. contradiction.
  - unfold blocks_by_hash. rewrite own_fold_insert.
    destruct (keyed_fold_NoDup block_hash _ ∅ Hnd1) as [Hsize _].
    { intros; apply lookup_empty. }
    rewrite Hsize, map_size_empty. cbn [Nat.add].
    apply (filter_length_map block_hash response_hash
             (fun k => negb (String.eqb k "__proto__")) blocks1 results1 Hhash1).
Qed.

(** X5. A response that is neither unavailable nor a block with a hash, a
    number and a timestamp makes the whole [getBlocks] call fail, whatever
    the other responses are. *)
Theorem getBlocks_malformed_response_aborts
    (rt : Runtime) (chains : gmap string ChainRPCConfig) (chain : string)
    (blockNumbers : list Z) (chainCfg : ChainCfg)
    (results : list (option BlockResponse)) (h h' : H) :
  blockNumbers <> [] ->
  getCurrentChain chains chain = Ok chainCfg ->
  post_blocks (rpc chainCfg) (map block_request blockNumbers) (post_opts chainCfg) h
    = (Ok (Some results), h') ->
  Exists (fun response => is_unavailable response = false
                          /\ parsed_block rt response = None) results ->
  exists e, getBlocks rt chains chain blockNumbers h = (Throw e, h').
Proof.
  intros Hne Hcfg Hpost Hbad.
  assert (Hmap : forall idx,
            exists e, map_block_responses rt (map block_request blockNumbers) results idx
                      = Throw e).
  { clear Hpost. induction Hbad as [response rest [Hun Hnone] | response rest _ IH];
      intros idx; cbn [map_block_responses].
    - unfold map_block_response. rewrite Hun, Hnone.
      destruct response as [r |]; [eauto |].
      destruct (map block_request blockNumbers !! idx); eauto.
    - destruct (map_block_response rt _ response idx); [| eauto].
      destruct (IH (S idx)) as [e ->]. eauto. }
  destruct (Hmap 0%nat) as [e He].
  unfold getBlocks. destruct blockNumbers as [| n0 ns]; [congruence |].
  cbn [length Nat.eqb]. unfold bind, lift. rewrite Hcfg, Hpost.
  destruct results as [| r rs]; [inversion Hbad |]. rewrite He. eauto.
Qed.

End GetBlocksMore.

Lemma getBlocks_order_independent_witness :
  let a := Some (block_response "10" "0xaa" "0xa" "0x64") in
  let b := Some (block_response "20" "0xbb" "0x14" "0x65") in
  exists record,
    getBlocks test_runtime (one_chain "ethereum" "http://node" 2) "ethereum" [10; 20]
      (blocks_script [a; b]) = (Ok record, no_script)
    /\ getBlocks test_runtime (one_chain "ethereum" "http://node" 2) "ethereum" [10; 20]
         (blocks_script [b; a]) = (Ok record, no_script)
    /\ size record = 2%nat.
Proof.
  intros a b.
  apply (getBlocks_order_independent test_runtime (one_chain "ethereum" "http://node" 2)
           "ethereum" [10; 20]
           {| chainId := 2; rpc := "http://node"; timeout := 10000; retries := 2 |}
           [a; b] [b; a]).
  - discriminate.
  - reflexivity.
  - reflexivity.
  - reflexivity.
  - apply Permutation_swap.
  - discriminate.
  - constructor; [| constructor; [| constructor]];
      (eexists _, {| block_number := _; block_hash := _; block_timestamp := _;
                     block_transactions := _ |}; split; [reflexivity |];
       split; [intros [Hnull | (e & He & _)]; discriminate |];
       eexists _, _, _; cbn; repeat split; try reflexivity; discriminate).
  - apply (bool_decide_unpack _). vm_compute. exact I.
Defined.

Lemma getBlocks_malformed_response_aborts_witness :
  exists e,
    getBlocks test_runtime (one_chain "ethereum" "http://node" 2) "ethereum" [10; 20]
      (blocks_script [Some (block_response "10" "0xaa" "0xa" "0x64");
                      Some (error_response "20" (-32000))])
    = (Throw e, no_script).
Proof.
  apply (getBlocks_malformed_response_aborts test_runtime
           (one_chain "ethereum" "http://node" 2) "ethereum" [10; 20]
           {| chainId := 2; rpc := "http://node"; timeout := 10000; retries := 2 |}
           [Some (block_response "10" "0xaa" "0xa" "0x64");
            Some (error_response "20" (-32000))]).
  - discriminate.
  - reflexivity.
  - reflexivity.
  - right. left. split; reflexivity.
Defined.

(** ** Block numbers in requests *)

Lemma hex_digits_string_of_uint (d : Hexadecimal.uint) :
  Js.all_chars (fun c => Js.plain c && Ascii.eqb (Js.lower_char c) c)
    (HexadecimalString.NilEmpty.string_of_uint d) = true.
Proof. induction d; cbn -[Js.plain Js.lower_char]; try rewrite IHd; reflexivity. Qed.

Lemma toLowerCase_id (s : string) :
  Js.all_chars (fun c => Js.plain c && Ascii.eqb (Js.lower_char c) c) s = true ->
  Js.toLowerCase s = s.
Proof.
  induction s as [| c r IH]; cbn [Js.all_chars Js.toLowerCase]; [reflexivity |].
  intros Hall. apply andb_prop in Hall. destruct Hall as [Hc Hr].
  apply andb_prop in Hc. destruct Hc as [_ Hc]. apply Ascii.eqb_eq in Hc.
  now rewrite Hc, IH.
Qed.

(** [BigInt] reads back the hexadecimal form, with its prefix, of a block
    number that is not negative. *)
Lemma BigInt_hex_toString16 (n : Z) :
  0 <= n ->
  Js.BigInt (HEXADECIMAL_PREFIX ++ Js.toString16 n)%string = Some n.
Proof.
  intros Hn. destruct n as [| p | p]; [reflexivity | | lia].
  unfold Js.toString16. cbn [Z.to_hex_int HexadecimalString.NilZero.string_of_int].
  pose proof (HexadecimalPos.Unsigned.to_uint_nonnil p) as Hnonnil.
  pose proof (HexadecimalString.NilZero.usu _ Hnonnil) as Hparse.
  assert (Hs : HexadecimalString.NilZero.string_of_uint (Pos.to_hex_uint p)
               = HexadecimalString.NilEmpty.string_of_uint (Pos.to_hex_uint p)).
  { now destruct (Pos.to_hex_uint p). }
  pose proof (hex_digits_string_of_uint (Pos.to_hex_uint p)) as Hdigits.
  rewrite <- Hs in Hdigits.
  set (s := HexadecimalString.NilZero.string_of_uint (Pos.to_hex_uint p)) in *.
  unfold Js.BigInt, HEXADECIMAL_PREFIX. cbn [String.append].
  rewrite trim_id.
  - change (Js.parse_hex s = Some (Z.pos p)).
    unfold Js.parse_hex. rewrite (toLowerCase_id s Hdigits), Hparse. cbn.
    unfold Z.of_hex_uint. now rewrite HexadecimalPos.Unsigned.of_to.
  - cbn [Js.all_chars]. apply andb_true_intro. split; [reflexivity |].
    apply andb_true_intro. split; [reflexivity |].
    eapply all_chars_impl; [| exact Hdigits].
    intros c Hc. apply andb_prop in Hc. tauto.
Qed.

(** X6. Every block number the repository writes into a request reads back as
    the number it stands for: the id and the parameter of a [getBlocks]
    request, the parameter of a [getBlock] request and the two bounds of a
    [getFilteredLogs] query (for block numbers that are not negative). *)
Theorem request_block_numbers_round_trip (n : Z) (filter : EvmLogFilter) :
  0 <= n ->
  0 <= filter_fromBlock filter ->
  0 <= filter_toBlock filter ->
  Js.BigInt (breq_id (block_request n)) = Some n
  /\ Js.BigInt (fst (breq_params (block_request n))) = Some n
  /\ Js.BigInt (EvmJsonRPCBlock.blockNumberParam (EvmJsonRPCBlock.Number n)) = Some n
  /\ Js.BigInt (lreq_fromBlock (parsedFilters filter)) = Some (filter_fromBlock filter)
  /\ Js.BigInt (lreq_toBlock (parsedFilters filter)) = Some (filter_toBlock filter).
Proof.
  intros Hn Hfrom Hto. cbn.
  split; [apply BigInt_toString |].
  repeat split; now apply BigInt_hex_toString16.
Qed.

Lemma request_block_numbers_round_trip_witness :
  Js.BigInt (breq_id (block_request 18500000)) = Some 18500000
  /\ Js.BigInt (fst (breq_params (block_request 18500000))) = Some 18500000
  /\ Js.BigInt (EvmJsonRPCBlock.blockNumberParam (EvmJsonRPCBlock.Number 18500000))
     = Some 18500000
  /\ Js.BigInt (lreq_fromBlock (parsedFilters (range_filter 100 200))) = Some 100
  /\ Js.BigInt (lreq_toBlock (parsedFilters (range_filter 100 200))) = Some 200.
Proof.
  apply (request_block_numbers_round_trip 18500000 (range_filter 100 200)); cbn; lia.
Defined.

(** A negative block number has no such form: its parameter is not an
    integer literal. *)
Example negative_block_number_param :
  fst (breq_params (block_request (-10))) = "0x-a"
  /\ Js.BigInt (fst (breq_params (block_request (-10)))) = None.
Proof. split; reflexivity. Qed.

(** ** [getBlock] and [getBlockHeight] *)

Section GetBlockProps.
Context {H : Type} `{EvmJsonRPCBlock.BlockClient H}.

Lemma getBlock_Ok_inv
    (rt : Runtime) (chains : gmap string ChainRPCConfig) (chain : string)
    (blockNumberOrTag : EvmJsonRPCBlock.BlockNumberOrTag) (isTransactionsPresent : bool)
    (h h' : H) (b : EvmBlock) :
  EvmJsonRPCBlock.getBlock rt chains chain blockNumberOrTag isTransactionsPresent h
    = (Ok b, h') ->
  block_hash b <> ""
  /\ exists chainCfg raw err number,
       getCurrentChain chains chain = Ok chainCfg
       /\ EvmJsonRPCBlock.post_block (rpc chainCfg)
            (EvmJsonRPCBlock.blockNumberParam blockNumberOrTag, isTransactionsPresent)
            (post_opts chainCfg) h
          = (Ok (Some {| EvmJsonRPCBlock.reply_result := Value raw;
                         EvmJsonRPCBlock.reply_error := err |}), h')
       /\ raw_hash (EvmJsonRPCBlock.full_header raw) = Some (block_hash b)
       /\ raw_number (EvmJsonRPCBlock.full_header raw) = Some number
       /\ Js.BigInt number = Some (block_number b)
       /\ block_transactions b = EvmJsonRPCBlock.full_transactions raw.
Proof.
  unfold EvmJsonRPCBlock.getBlock, bind, lift, throw, ret. cbv zeta. intros Hcall.
  destruct (getCurrentChain chains chain) as [chainCfg |]; [| discriminate].
  destruct (EvmJsonRPCBlock.post_block _ _ _ h) as [[response |] h1] eqn:Hpost;
    [| discriminate].
  destruct response as [[[| | raw] err] |];
    cbv beta iota in Hcall; try discriminate.
  destruct (raw_hash (EvmJsonRPCBlock.full_header raw)) as [hash |] eqn:Hhash;
    cbv beta iota in Hcall; [| discriminate].
  destruct (raw_number (EvmJsonRPCBlock.full_header raw)) as [number |] eqn:Hnumber;
    cbv beta iota in Hcall; [| discriminate].
  destruct (raw_timestamp (EvmJsonRPCBlock.full_header raw)) as [timestamp |];
    cbv beta iota in Hcall; [| discriminate].
  destruct (Js.truthy (Some hash)) eqn:Htruthy;
    cbv beta iota delta [andb] in Hcall; [| discriminate].
  destruct (Js.truthy (Some number)); cbv beta iota in Hcall; [| discriminate].
  destruct (Js.truthy (Some timestamp)); cbv beta iota in Hcall; [| discriminate].
  destruct (Js.BigInt number) as [n |] eqn:Hn; cbv beta iota in Hcall; [| discriminate].
  injection Hcall as <- <-. cbn. split; [now apply truthy_Some |].
  exists chainCfg, raw, err, number. rewrite Hhash, Hnumber. auto 10.
Qed.

(** X7. [getBlock] returns a block only when the node's reply carries one: the
    block has the reply's hash, which is not empty, the integer value of the
    reply's number, and the reply's transactions as they came.  Unlike
    [getBlocks] it makes up no block: a reply with a [null] or missing
    result fails the call. *)
Theorem getBlock_returns_replied_block
    (rt : Runtime) (chains : gmap string ChainRPCConfig) (chain : string)
    (blockNumberOrTag : EvmJsonRPCBlock.BlockNumberOrTag) (isTransactionsPresent : bool)
    (h h' : H) (b : EvmBlock) :
  EvmJsonRPCBlock.getBlock rt chains chain blockNumberOrTag isTransactionsPresent h
    = (Ok b, h') ->
  block_hash b <> ""
  /\ exists chainCfg raw err number,
       getCurrentChain chains chain = Ok chainCfg
       /\ EvmJsonRPCBlock.post_block (rpc chainCfg)
            (EvmJsonRPCBlock.blockNumberParam blockNumberOrTag, isTransactionsPresent)
            (post_opts chainCfg) h
          = (Ok (Some {| EvmJsonRPCBlock.reply_result := Value raw;
                         EvmJsonRPCBlock.reply_error := err |}), h')
       /\ raw_hash (EvmJsonRPCBlock.full_header raw) = Some (block_hash b)
       /\ raw_number (EvmJsonRPCBlock.full_header raw) = Some number
       /\ Js.BigInt number = Some (block_number b)
       /\ block_transactions b = EvmJsonRPCBlock.full_transactions raw.
Proof. exact (getBlock_Ok_inv rt chains chain blockNumberOrTag isTransactionsPresent h h' b). Qed.

(** X8. [getBlockHeight] is the number of the block the node gives for the
    finality tag, asked for without its transactions. *)
Theorem getBlockHeight_is_block_number
    (rt : Runtime) (chains : gmap string ChainRPCConfig) (chain finality : string)
    (h h' : H) (height : Z) :
  EvmJsonRPCBlock.getBlockHeight rt chains chain finality h = (Ok height, h') ->
  exists chainCfg raw err number,
    getCurrentChain chains chain = Ok chainCfg
    /\ EvmJsonRPCBlock.post_block (rpc chainCfg) (finality, false) (post_opts chainCfg) h
       = (Ok (Some {| EvmJsonRPCBlock.reply_result := Value raw;
                      EvmJsonRPCBlock.reply_error := err |}), h')
    /\ raw_number (EvmJsonRPCBlock.full_header raw) = Some number
    /\ Js.BigInt number = Some height.
Proof.
  unfold EvmJsonRPCBlock.getBlockHeight. unfold bind at 1. intros Hcall.
  destruct (EvmJsonRPCBlock.getBlock rt chains chain (EvmJsonRPCBlock.Tag finality) false h)
    as [[b |] h1] eqn:Hblock; [| discriminate].
  unfold ret in Hcall. injection Hcall as <- <-.
  apply getBlock_Ok_inv in Hblock.
  destruct Hblock as (_ & chainCfg & raw & err & number & Hcfg & Hpost & _ & Hnum & Hn & _).
  exists chainCfg, raw, err, number. auto.
Qed.

End GetBlockProps.

Lemma getBlock_returns_replied_block_witness :
  let node := {| fixed_reply := Some (full_block_reply "0xb10" "0xa" "0x64" (Some [])) |} in
  let b := {| block_number := 10; block_hash := "0xb10"; block_timestamp := 100;
              block_transactions := Some [] |} in
  EvmJsonRPCBlock.getBlock test_runtime (one_chain "ethereum" "http://node" 2) "ethereum"
    (EvmJsonRPCBlock.Number 10) true node = (Ok b, node)
  /\ block_hash b <> "".
Proof.
  intros node b.
  assert (Hcall :
    EvmJsonRPCBlock.getBlock test_runtime (one_chain "ethereum" "http://node" 2) "ethereum"
      (EvmJsonRPCBlock.Number 10) true node = (Ok b, node)) by reflexivity.
  split; [exact Hcall |].
  exact (proj1 (getBlock_returns_replied_block _ _ _ _ _ _ _ _ Hcall)).
Defined.

Lemma getBlockHeight_is_block_number_witness :
  let node := {| fixed_reply := Some (full_block_reply "0xb10" "0xa" "0x64" None) |} in
  EvmJsonRPCBlock.getBlockHeight test_runtime (one_chain "ethereum" "http://node" 2)
    "ethereum" "finalized" node = (Ok 10, node)
  /\ exists number, Js.BigInt number = Some 10.
Proof.
  intros node.
  assert (Hcall :
    EvmJsonRPCBlock.getBlockHeight test_runtime (one_chain "ethereum" "http://node" 2)
      "ethereum" "finalized" node = (Ok 10, node)) by reflexivity.
  split; [exact Hcall |].
  destruct (getBlockHeight_is_block_number _ _ _ _ _ _ _ Hcall)
    as (_ & _ & _ & number & _ & _ & _ & Hn).
  exists number. exact Hn.
Defined.

(** A [null] result, which [getBlocks] turns into a degraded block, fails
    [getBlock]. *)
Example getBlock_null_result_fails :
  let node :=
    {| fixed_reply := Some {| EvmJsonRPCBlock.reply_result := Null;
                              EvmJsonRPCBlock.reply_error := None |} |} in
  EvmJsonRPCBlock.getBlock test_runtime (one_chain "karura" "http://node" 11) "karura"
    (EvmJsonRPCBlock.Number 20) false node
  = (Throw (UnableToParseResult "eth_getBlockByNumber" "20"), node).
Proof. reflexivity. Qed.

(** ** A chain that is not configured *)

Section UnconfiguredChain.
Context {H : Type} `{HttpClient H} `{EvmJsonRPCBlock.BlockClient H}.

(** X9. For a chain that has no entry in the configuration every method
    fails in [getCurrentChain], before any request is posted: the node is
    left as it was.  The one exception is [getBlocks] for an empty set of
    block numbers, which returns the empty record without looking at the
    chain. *)
Theorem unconfigured_chain_fails_before_request
    (rt : Runtime) (chains : gmap string ChainRPCConfig) (chain : string) (h : H) :
  chains !! chain = None ->
  (forall blockNumbers,
      getBlocks rt chains chain blockNumbers h
      = if decide (blockNumbers = []) then (Ok ∅, h) else (Throw (TypeError "chainId"), h))
  /\ (forall filter,
        getFilteredLogs chains chain filter h = (Throw (TypeError "chainId"), h))
  /\ (forall hashNumbers,
        getTransactionReceipt chains chain hashNumbers h = (Throw (TypeError "chainId"), h))
  /\ (forall blockNumberOrTag isTransactionsPresent,
        EvmJsonRPCBlock.getBlock rt chains chain blockNumberOrTag isTransactionsPresent h
        = (Throw (TypeError "chainId"), h))
  /\ (forall finality,
        EvmJsonRPCBlock.getBlockHeight rt chains chain finality h
        = (Throw (TypeError "chainId"), h)).
Proof.
  intros Hnone.
  assert (Hcfg : getCurrentChain chains chain = Throw (TypeError "chainId"))
    by (unfold getCurrentChain; now rewrite Hnone).
  assert (Hblock : forall blockNumberOrTag isTransactionsPresent,
            EvmJsonRPCBlock.getBlock rt chains chain blockNumberOrTag isTransactionsPresent h
            = (Throw (TypeError "chainId"), h)).
  { intros. unfold EvmJsonRPCBlock.getBlock, bind, lift. now rewrite Hcfg. }
  repeat split.
  - intros [| n ns]; [reflexivity |].
    unfold getBlocks. cbn [length Nat.eqb]. unfold bind, lift. now rewrite Hcfg.
  - intros filter. unfold getFilteredLogs, bind, lift. now rewrite Hcfg.
  - intros hashNumbers. unfold getTransactionReceipt, bind, lift. now rewrite Hcfg.
  - exact Hblock.
  - intros finality. unfold EvmJsonRPCBlock.getBlockHeight, bind. now rewrite Hblock.
Qed.

End UnconfiguredChain.

Lemma unconfigured_chain_fails_before_request_witness :
  let node := {| fixed_reply := Some (full_block_reply "0xb10" "0xa" "0x64" None) |} in
  getBlocks test_runtime (one_chain "ethereum" "http://node" 2) "karura" [10; 20] node
  = (Throw (TypeError "chainId"), node)
  /\ EvmJsonRPCBlock.getBlockHeight test_runtime (one_chain "ethereum" "http://node" 2)
       "karura" "finalized" node
     = (Throw (TypeError "chainId"), node).
Proof.
  intros node.
  destruct (unconfigured_chain_fails_before_request test_runtime
              (one_chain "ethereum" "http://node" 2) "karura" node)
    as (Hblocks & _ & _ & _ & Hheight).
  - reflexivity.
  - split; [exact (Hblocks [10; 20]) | exact (Hheight "finalized")].
Defined.

(** ** More on [GetEvmTransactions] *)

Lemma filterTransactions_In
    (opts : GetEvmOpts) (transactions : list EvmTransaction)
    (receipts : gmap string ReceiptTransaction) (tx : EvmTransaction) :
  In tx (GetEvmTransactions.filterTransactions opts transactions receipts) ->
  In tx transactions
  /\ exists receipt logs log topics lt t,
       receipts !! tx_hash tx = Some receipt
       /\ receipt_logs receipt = Some logs /\ In log logs
       /\ opts_topics opts = Some topics
       /\ log_topics log = Some lt /\ In t topics /\ In t lt.
Proof.
  unfold GetEvmTransactions.filterTransactions. rewrite filter_In, existsb_exists.
  intros [Hin (log & Hlog & Htruthy)]. split; [exact Hin |].
  unfold GetEvmTransactions.receipt_logs_of in Hlog.
  destruct (receipts !! tx_hash tx) as [receipt |]; [| contradiction].
  destruct (receipt_logs receipt) as [logs |] eqn:Hlogs; [| contradiction].
  destruct (opts_topics opts) as [topics |]; [| discriminate].
  destruct (GetEvmTransactions.find_topic (Some topics) log) as [t |] eqn:Hfind;
    [| discriminate].
  apply find_topic_Some in Hfind. destruct Hfind as [Ht (lt & Hlt & Hinl)].
  exists receipt, logs, log, topics, lt, t. auto 10.
Qed.

Lemma populateTransaction_with_receipts
    (opts : GetEvmOpts) (evmBlock : EvmBlock)
    (receipts : gmap string ReceiptTransaction) (txs : list EvmTransaction) :
  Forall (fun tx => is_Some (receipts !! tx_hash tx)) txs ->
  forall populated,
  exists added,
    GetEvmTransactions.populateTransaction opts evmBlock receipts txs populated
    = Ok (populated ++ added)
    /\ Forall2 (fun tx tx' =>
                  exists receipt,
                    receipts !! tx_hash tx = Some receipt
                    /\ tx' = GetEvmTransactions.populate_one opts evmBlock receipt tx)
         txs added.
Proof.
  induction 1 as [| tx rest [receipt Hr] _ IH]; intros populated.
  - exists []. cbn. rewrite app_nil_r. split; [reflexivity | constructor].
  - cbn [GetEvmTransactions.populateTransaction]. rewrite Hr.
    destruct (IH (populated ++ [GetEvmTransactions.populate_one opts evmBlock receipt tx]))
      as (added & Hpop & Hrel).
    exists (GetEvmTransactions.populate_one opts evmBlock receipt tx :: added).
    rewrite Hpop, <- app_assoc. split; [reflexivity |].
    constructor; [eauto | exact Hrel].
Qed.

Lemma filterTransactions_have_receipts
    (opts : GetEvmOpts) (transactions : list EvmTransaction)
    (receipts : gmap string ReceiptTransaction) :
  Forall (fun tx => is_Some (receipts !! tx_hash tx))
    (GetEvmTransactions.filterTransactions opts transactions receipts).
Proof.
  apply List.Forall_forall. intros tx Hin.
  apply filterTransactions_In in Hin.
  destruct Hin as (_ & receipt & _ & _ & _ & _ & _ & Hr & _). eauto.
Qed.

(** X10. The transactions kept by [filterTransactions] all have a receipt, so
    [populateTransaction] never fails on them: it appends, in order, each
    kept transaction enriched from its receipt and the block. *)
Theorem populateTransaction_after_filterTransactions
    (opts : GetEvmOpts) (evmBlock : EvmBlock)
    (receipts : gmap string ReceiptTransaction)
    (transactions populated : list EvmTransaction) :
  exists added,
    GetEvmTransactions.populateTransaction opts evmBlock receipts
      (GetEvmTransactions.filterTransactions opts transactions receipts) populated
    = Ok (populated ++ added)
    /\ Forall2 (fun tx tx' =>
                  exists receipt,
                    receipts !! tx_hash tx = Some receipt
                    /\ tx' = GetEvmTransactions.populate_one opts evmBlock receipt tx)
         (GetEvmTransactions.filterTransactions opts transactions receipts) added.
Proof.
  apply populateTransaction_with_receipts, filterTransactions_have_receipts.
Qed.

Lemma populated_returned_ok
    (opts : GetEvmOpts) (evmBlock : EvmBlock)
    (receipts : gmap string ReceiptTransaction)
    (transactions : list EvmTransaction) (tx : EvmTransaction)
    (receipt : ReceiptTransaction) :
  In tx (GetEvmTransactions.filterTransactions opts
           (GetEvmTransactions.transactionsByAddressConfigured opts transactions) receipts) ->
  receipts !! tx_hash tx = Some receipt ->
  returned_ok opts (GetEvmTransactions.populate_one opts evmBlock receipt tx).
Proof.
  intros Hin Hr. apply filterTransactions_In in Hin.
  destruct Hin as (Haddr & receipt' & logs & log & topics & lt & t
                   & Hr' & Hlogs & Hlog & Htopics & Hlt & Ht & Hinl).
  rewrite Hr in Hr'. injection Hr' as <-.
  unfold GetEvmTransactions.transactionsByAddressConfigured in Haddr.
  apply filter_In in Haddr. destruct Haddr as [_ Haddr].
  unfold GetEvmTransactions.address_configured in Haddr.
  destruct (opts_addresses opts) as [addresses |] eqn:Haddresses; [| discriminate].
  apply orb_true_iff in Haddr. rewrite !includes_In in Haddr.
  unfold returned_ok. cbn. rewrite Haddresses.
  split; [eauto |]. split; [exists topics, logs, log, lt, t; auto 10 |].
  eauto 10.
Qed.

Section ExecuteProps.
Context {R : Type} `{EvmBlockRepository R}.

Lemma process_blocks_spec (opts : GetEvmOpts) (n : nat) :
  forall (block : Z) (populated txs : list EvmTransaction) (w w' : World R),
    GetEvmTransactions.process_blocks opts n block populated w = (Ok txs, w') ->
    Forall (returned_ok opts) populated ->
    Forall (returned_ok opts) txs
    /\ exists new,
         calls w' = calls w ++ new
         /\ block_calls new = map (fun i => block + Z.of_nat i) (seq 0 n)
         /\ Forall (fun hashes => hashes <> [] /\ NoDup hashes) (receipt_calls new)
         /\ (opts_addresses opts = None \/ opts_addresses opts = Some [] ->
             receipt_calls new = []).
Proof.
  induction n as [| n IH]; intros block populated txs w w' Hrun Hpop.
  - cbn in Hrun. injection Hrun as <- <-. split; [exact Hpop |].
    exists []. rewrite app_nil_r. cbn. auto.
  - cbn [GetEvmTransactions.process_blocks] in Hrun.
    unfold bind at 1 in Hrun. unfold call at 1 in Hrun.
    destruct (repo_getBlock (opts_chain opts) block true (repo w)) as [[evmBlock | e] r1];
      [| discriminate].
    cbv zeta in Hrun.
    set (byAddress := GetEvmTransactions.transactionsByAddressConfigured opts
                        (default [] (block_transactions evmBlock))) in *.
    set (w1 := {| repo := r1;
                  calls := calls w ++ [CallGetBlock (opts_chain opts) block true] |}) in *.
    assert (Hshift : map (fun i => block + Z.of_nat i) (seq 0 (S n))
                     = block :: map (fun i => block + 1 + Z.of_nat i) (seq 0 n)).
    { cbn. f_equal; [lia |]. rewrite <- seq_shift, map_map.
      apply map_ext. intros i. lia. }
    destruct (0 <? length byAddress)%nat eqn:Hlen.
    + unfold bind at 1 in Hrun. unfold call at 1 in Hrun.
      destruct (repo_getTransactionReceipt (opts_chain opts)
                  (Js.Set_of (map tx_hash byAddress)) (repo w1))
        as [[receipts | e] r2]; [| discriminate].
      unfold bind at 1, lift in Hrun.
      destruct (populateTransaction_with_receipts opts evmBlock receipts _
                  (filterTransactions_have_receipts opts byAddress receipts) populated)
        as (added & Hadd & Hrel).
      rewrite Hadd in Hrun.
      destruct (IH _ _ _ _ _ Hrun) as (Hres & new & Hcalls & Hblocks & Hreceipts & Hnone).
      { apply Forall_app. split; [exact Hpop |].
        apply List.Forall_forall. intros tx' Hin'.
        destruct (Forall2_In_r _ _ _ _ Hrel Hin') as (tx & Hin & receipt & Hr & ->).
        now apply (populated_returned_ok opts evmBlock receipts
                     (default [] (block_transactions evmBlock))). }
      split; [exact Hres |].
      exists (CallGetBlock (opts_chain opts) block true
              :: CallGetTransactionReceipt (opts_chain opts)
                   (Js.Set_of (map tx_hash byAddress)) :: new).
      cbn [calls] in Hcalls. subst w1. cbn [calls] in Hcalls.
      split; [rewrite Hcalls, <- !app_assoc; reflexivity |].
      split; [rewrite Hshift, <- Hblocks; reflexivity |].
      assert (Hnonempty : byAddress <> []).
      { intros Hnil. rewrite Hnil in Hlen. discriminate. }
      split.
      * cbn. constructor; [| exact Hreceipts].
        destruct (Set_of_spec (map tx_hash byAddress)) as [Hnd Hin]. split; [| exact Hnd].
        intros Hnil. destruct byAddress as [| tx rest]; [congruence |].
        specialize (Hin (tx_hash tx)). rewrite Hnil in Hin. cbn in Hin. tauto.
      * intros Hno. exfalso. apply Hnonempty.
        subst byAddress. unfold GetEvmTransactions.transactionsByAddressConfigured.
        generalize (default [] (block_transactions evmBlock)).
        intros l. induction l as [| x l IHl]; [reflexivity |].
        cbn [List.filter]. unfold GetEvmTransactions.address_configured at 1.
        destruct Hno as [Hno | Hno]; rewrite Hno; exact IHl.
    + destruct (IH _ _ _ _ _ Hrun Hpop)
        as (Hres & new & Hcalls & Hblocks & Hreceipts & Hnone).
      split; [exact Hres |].
      exists (CallGetBlock (opts_chain opts) block true :: new).
      subst w1. cbn [calls] in Hcalls.
      split; [rewrite Hcalls, <- app_assoc; reflexivity |].
      split; [rewrite Hshift, <- Hblocks; reflexivity |].
      split; [exact Hreceipts | exact Hnone].
Qed.

(** X11. Whatever the repository answers, every transaction that [execute]
    returns passed both filters and was enriched: one of its addresses,
    lower-cased, is a configured address, a log of its receipt carries a
    configured topic, and it bears the receipt's status and logs, the
    block's timestamp and the chain, chain id and environment of the
    options. *)
Theorem execute_returns_only_filtered
    (range : Range) (opts : GetEvmOpts) (w w' : World R) (txs : list EvmTransaction) :
  GetEvmTransactions.execute range opts w = (Ok txs, w') ->
  Forall (returned_ok opts) txs.
Proof.
  unfold GetEvmTransactions.execute. intros Hrun.
  destruct (fromBlock range >? toBlock range).
  - unfold ret in Hrun. injection Hrun as <- _. constructor.
  - now destruct (process_blocks_spec opts _ _ _ _ _ _ Hrun (Forall_nil_2 _)).
Qed.

(** X12. A run of [execute] that returns has asked the repository for each
    block of [[fromBlock, toBlock]] once, in increasing order; every set
    of hashes whose receipts it asked for is non-empty and without
    repetition; and with no configured address it asked for no receipt. *)
Theorem execute_repository_calls
    (range : Range) (opts : GetEvmOpts) (w w' : World R) (txs : list EvmTransaction) :
  fromBlock range <= toBlock range ->
  GetEvmTransactions.execute range opts w = (Ok txs, w') ->
  exists new,
    calls w' = calls w ++ new
    /\ block_calls new
       = map (fun i => fromBlock range + Z.of_nat i)
           (seq 0 (Z.to_nat (toBlock range - fromBlock range + 1)))
    /\ Forall (fun hashes => hashes <> [] /\ NoDup hashes) (receipt_calls new)
    /\ (opts_addresses opts = None \/ opts_addresses opts = Some [] ->
        receipt_calls new = []).
Proof.
  unfold GetEvmTransactions.execute. intros Hle Hrun.
  destruct (Z.gtb_spec (fromBlock range) (toBlock range)) as [Hgt | _]; [lia |].
  now destruct (process_blocks_spec opts _ _ _ _ _ _ Hrun (Forall_nil_2 _)).
Qed.

End ExecuteProps.

Lemma execute_returns_only_filtered_witness :
  let opts := bridge_opts ["0xab"] ["0xcd"] in
  let run := GetEvmTransactions.execute {| fromBlock := 10; toBlock := 10 |} opts sample_world in
  length (match fst run with Ok txs => txs | Throw _ => [] end) = 1%nat
  /\ Forall (returned_ok opts) (match fst run with Ok txs => txs | Throw _ => [] end).
Proof.
  intros opts run.
  assert (Hrun : exists txs w', run = (Ok txs, w') /\ length txs = 1%nat).
  { eexists _, _. split; [vm_compute; reflexivity | reflexivity]. }
  destruct Hrun as (txs & w' & Hrun & Hlen). rewrite Hrun. cbn [fst].
  split; [exact Hlen |].
  exact (execute_returns_only_filtered _ _ _ _ _ Hrun).
Defined.

Lemma execute_repository_calls_witness :
  let opts := bridge_opts ["0xab"] ["0xcd"] in
  let run := GetEvmTransactions.execute {| fromBlock := 10; toBlock := 10 |} opts sample_world in
  block_calls (calls (snd run)) = [10]
  /\ receipt_calls (calls (snd run)) = [["0x01"; "0x02"]].
Proof.
  intros opts run.
  assert (Hrun : exists txs, run = (Ok txs, snd run)).
  { eexists. vm_compute. reflexivity. }
  destruct Hrun as (txs & Hrun).
  destruct (execute_repository_calls {| fromBlock := 10; toBlock := 10 |} opts
              sample_world (snd run) txs) as (new & Hcalls & Hblocks & _).
  - cbn. lia.
  - exact Hrun.
  - cbn [calls sample_world app] in Hcalls. rewrite Hcalls. split; [exact Hblocks |].
    rewrite <- Hcalls. vm_compute. reflexivity.
Defined.

(** ** More on the queue consumer *)

(** A case analysis of one step, as the equations between the fields of
    the two states. *)
Ltac step_cases Hstep :=
  unfold step in Hstep;
  repeat match type of Hstep with
         | context [match ?x with _ => _ end] =>
             let E := fresh "E" in destruct x eqn:E; try discriminate Hstep
         end;
  injection Hstep as <-.

Section ConsumerMore.
Context {VaaEvent : Type} (codec : Codec VaaEvent) (q : SQS VaaEvent).

(** An induction principle for runs from the initial state: a property of
    states that holds initially and is kept by every step from a state
    satisfying the consumer invariant holds in every state of a run. *)
Lemma run_induction (P : State VaaEvent -> Prop) :
  P NewVAASQS ->
  (forall e s s', Consumer_inv s -> P s -> step codec q e s = Some s' -> P s') ->
  forall events s, run codec q events NewVAASQS = Some s -> P s.
Proof.
  intros Hinit Hstep.
  assert (Hgen : forall events s0 s,
            Consumer_inv s0 -> P s0 -> run codec q events s0 = Some s -> P s).
  { induction events as [| e rest IH]; intros s0 s Hinv Hp Hrun; cbn in Hrun.
    - now injection Hrun as <-.
    - destruct (step codec q e s0) as [s1 |] eqn:Hs; [| discriminate].
      apply (IH s1); [eapply step_inv; eassumption | eapply Hstep; eassumption | exact Hrun]. }
  intros events s. apply Hgen; [apply NewVAASQS_inv | exact Hinit].
Qed.

Lemma handle_message_fields
    (msg : SqsMessage) (rest : list SqsMessage) (expiredAt : Z) (deleteFails : bool)
    (s : State VaaEvent) :
  let s' := handle_message codec q msg rest expiredAt deleteFails s in
  ch s' = ch s /\ held s' = held s /\ closed s' = closed s /\ sent s' = sent s
  /\ settled s' = settled s /\ fetches s' = fetches s
  /\ ((pc s' = InRange rest expiredAt /\ wg s' = wg s
       /\ counter_total (metrics s') VaaUnfiltered = counter_total (metrics s) VaaUnfiltered
       /\ (deleteCalls s' = deleteCalls s
           \/ exists ok, deleteCalls s' = deleteCalls s ++ [(ReceiptHandle msg, ok)]))
      \/ (exists v, pc s' = AtSend {| msg_id := ReceiptHandle msg; msg_data := v;
                                      msg_expiredAt := expiredAt |} rest expiredAt
                    /\ wg s' = wg s + 1
                    /\ counter_total (metrics s') VaaUnfiltered
                       = S (counter_total (metrics s) VaaUnfiltered)
                    /\ deleteCalls s' = deleteCalls s))
  /\ (counter_total (metrics s) VaaConsumedQueue
      <= counter_total (metrics s') VaaConsumedQueue)%nat
  /\ (counter_total (metrics s') VaaConsumedQueue
      - counter_total (metrics s) VaaConsumedQueue
      >= counter_total (metrics s') VaaUnfiltered
         - counter_total (metrics s) VaaUnfiltered)%nat
  /\ forall c, c <> VaaConsumedQueue -> c <> VaaUnfiltered ->
               counter_total (metrics s') c = counter_total (metrics s) c.
Proof.
  assert (Htotal : forall m c c' chain,
            counter_total (m ++ [(c', chain)]) c
            = (counter_total m c + if decide (c' = c) then 1 else 0)%nat).
  { intros m c c' chain. unfold counter_total.
    rewrite List.filter_app, length_app. cbn. unfold bool_decide.
    destruct (decide_rel eq c' c); [rewrite decide_True | rewrite decide_False]; auto. }
  unfold handle_message.
  destruct (unmarshal_sqsEvent codec (Body msg)) as [ev |].
  2: { cbn -[counter_total]. repeat (split; [reflexivity |]).
       split; [left; repeat split; auto |]. split; [lia |].
       split; [lia | reflexivity]. }
  destruct (unmarshal_vaaEvent codec (Message ev)) as [v |].
  2: { cbn -[counter_total]. repeat (split; [reflexivity |]).
       split; [left; repeat split; auto |]. split; [lia |].
       split; [lia | reflexivity]. }
  destruct (filterConsume q v).
  - cbn -[counter_total]. repeat (split; [reflexivity |]). rewrite !Htotal.
    repeat case_decide; try congruence.
    split; [left; split; [reflexivity |]; split; [reflexivity |];
            split; [lia | right; eauto] |].
    split; [lia |]. split; [lia |].
    intros c Hc _. rewrite Htotal, decide_False by congruence. lia.
  - cbn -[counter_total]. repeat (split; [reflexivity |]). rewrite !Htotal.
    repeat case_decide; try congruence.
    split; [right; exists v; repeat split; lia |].
    split; [lia |]. split; [lia |].
    intros c Hc Hu. rewrite !Htotal, !decide_False by congruence. lia.
Qed.

(** X13. At every point of every run the wait-group counter is the number of
    messages counted in and not yet settled: those in the channel, those
    held by workers, and the one being sent.  In particular [Done] and
    [Failed] never drive it below zero. *)
Theorem wait_group_counts_in_flight (events : list Event) (s : State VaaEvent) :
  run codec q events NewVAASQS = Some s ->
  wg s = Z.of_nat (length (ch s) + length (held s) + pending (pc s)) /\ 0 <= wg s.
Proof.
  intros Hrun.
  enough (Hcount : wg s = Z.of_nat (length (ch s) + length (held s) + pending (pc s)))
    by (split; [exact Hcount | lia]).
  revert events s Hrun. apply run_induction; [reflexivity |].
  intros e s s' _ Hp Hstep.
  destruct e.
  3: { unfold step in Hstep.
       destruct (pc s) as [| [| msg rest] ex | |] eqn:Hpc; try discriminate.
       injection Hstep as <-.
       destruct (handle_message_fields msg rest ex deleteFails s)
         as (-> & -> & _ & _ & _ & _ & Hcase & _).
       cbn in Hp.
       destruct Hcase as [(-> & -> & _) | (v & -> & -> & _)]; cbn; lia. }
  all: step_cases Hstep; cbn in *;
    rewrite ?length_app, ?length_delete by eauto; cbn;
    try match goal with
        | Hl : _ !! _ = Some _ |- _ => apply lookup_lt_Some in Hl
        end;
    try lia.
Qed.

(** X14. The channel never holds more than [chSize] messages. *)
Theorem channel_is_bounded (events : list Event) (s : State VaaEvent) :
  run codec q events NewVAASQS = Some s ->
  (length (ch s) <= chSize q)%nat.
Proof.
  revert events s. apply run_induction; [cbn; lia |].
  intros e s s' _ Hp Hstep.
  destruct e.
  3: { unfold step in Hstep.
       destruct (pc s) as [| [| msg rest] ex | |] eqn:Hpc; try discriminate.
       injection Hstep as <-.
       now destruct (handle_message_fields msg rest ex deleteFails s) as (-> & _). }
  all: step_cases Hstep; cbn in *; rewrite ?length_app; cbn; try lia.
  apply andb_prop in E0. destruct E0 as [_ Hlt]. apply Nat.ltb_lt in Hlt. lia.
Qed.

(** With the invariant, a state about to fetch has nothing in flight. *)
Lemma Consume_fetches_drained_aux (s : State VaaEvent) :
  Consumer_inv s -> pc s = AtGetMessages -> ch s = [] /\ held s = [].
Proof.
  intros [Hcount _ Hidle] Hpc. specialize (Hidle Hpc).
  rewrite Hcount, Hpc in Hidle by congruence. cbn in Hidle.
  split; [destruct (ch s) | destruct (held s)]; try reflexivity; cbn in Hidle; lia.
Qed.

(** X15. All messages in flight belong to one batch: whatever is in the channel
    or held by a worker carries one and the same expiry, that of the batch
    being dispatched while the consumer is inside a batch. *)
Theorem in_flight_messages_share_batch (events : list Event) (s : State VaaEvent) :
  run codec q events NewVAASQS = Some s ->
  exists expiry,
    Forall (fun m => msg_expiredAt m = expiry) (ch s ++ held s)
    /\ (forall e, batch_expiry (pc s) = Some e -> e = expiry).
Proof.
  intros Hrun.
  enough (Hinv : exists expiry,
            Forall (fun m => msg_expiredAt m = expiry) (ch s ++ held s)
            /\ (forall e, batch_expiry (pc s) = Some e -> e = expiry)
            /\ (forall m rest e, pc s = AtSend m rest e -> msg_expiredAt m = e)).
  { destruct Hinv as (expiry & Hall & Hbatch & _). eauto. }
  revert events s Hrun. apply run_induction.
  { exists 0. cbn. split; [constructor |]. split; discriminate. }
  intros e s s' Hinv (expiry & Hall & Hbatch & Hsend) Hstep.
  apply Forall_app in Hall. destruct Hall as [Hch Hheld].
  destruct e.
  2: { (* a new batch is fetched only when nothing is in flight *)
       destruct (Consume_fetches_drained_aux s) as (Hch0 & Hheld0); [exact Hinv | |].
       { unfold step in Hstep. destruct (pc s); congruence. }
       unfold step in Hstep. destruct (pc s); try discriminate. injection Hstep as <-.
       exists (now + GetVisibilityTimeout q). cbn. rewrite Hch0, Hheld0.
       split; [constructor |]. split; [congruence | discriminate]. }
  2: { unfold step in Hstep.
       destruct (pc s) as [| [| msg rest] ex | |] eqn:Hpc; try discriminate.
       injection Hstep as <-.
       destruct (handle_message_fields msg rest ex deleteFails s)
         as (-> & -> & _ & _ & _ & _ & Hcase & _).
       exists expiry. split; [apply Forall_app; auto |].
       specialize (Hbatch ex eq_refl). subst ex.
       destruct Hcase as [(-> & _) | (v & -> & _)]; cbn;
         (split; [intros e0 [= <-]; reflexivity |]);
         intros m0 rest0 e0 Heq; [discriminate Heq |].
       injection Heq as <- _ <-. reflexivity. }
  all: step_cases Hstep; cbn in *; exists expiry;
    (split; [| split; [try exact Hbatch; try discriminate | try discriminate; try exact Hsend]]).
  all: rewrite ?Forall_app in *; repeat split; auto.
  all: try (constructor; [| constructor]).
  all: try (erewrite <- Hbatch by reflexivity; eapply Hsend; reflexivity).
  all: try (apply Forall_cons in Hch; tauto).
  all: try (apply Forall_delete; assumption).
  all: try congruence.
Qed.

(** X16. The unfiltered counter counts exactly the messages handed to the
    channel or about to be; it never exceeds the consumed counter; and the
    consumer touches no other counter of the interface. *)
Theorem metrics_account_for_messages (events : list Event) (s : State VaaEvent) :
  run codec q events NewVAASQS = Some s ->
  counter_total (metrics s) VaaUnfiltered = (length (sent s) + pending (pc s))%nat
  /\ (counter_total (metrics s) VaaUnfiltered
      <= counter_total (metrics s) VaaConsumedQueue)%nat
  /\ forall c, c <> VaaConsumedQueue -> c <> VaaUnfiltered ->
                counter_total (metrics s) c = 0%nat.
Proof.
  revert events s. apply run_induction.
  { cbn. auto. }
  intros e s s' _ (Hsent & Hle & Hother) Hstep.
  destruct e.
  3: { unfold step in Hstep.
       destruct (pc s) as [| [| msg rest] ex | |] eqn:Hpc; try discriminate.
       injection Hstep as <-.
       destruct (handle_message_fields msg rest ex deleteFails s)
         as (_ & _ & _ & -> & _ & _ & Hcase & Hmono & Hdiff & Hsame).
       cbn in Hsent.
       split; [| split].
       - destruct Hcase as [(-> & _ & -> & _) | (v & -> & _ & -> & _)]; cbn; lia.
       - lia.
       - intros c Hc Hu. rewrite Hsame by assumption. now apply Hother. }
  all: step_cases Hstep; cbn -[counter_total] in *;
    rewrite ?length_app; cbn -[counter_total];
    (split; [lia | split; [exact Hle | exact Hother]]).
Qed.

(** X17. Once the channel is closed it stays closed and no message is put on
    it any more, whatever the consumer fetches. *)
Theorem nothing_sent_after_Close (events : list Event) (s s' : State VaaEvent) :
  closed s = true ->
  run codec q events s = Some s' ->
  closed s' = true /\ sent s' = sent s.
Proof.
  revert s. induction events as [| e rest IH]; intros s Hclosed Hrun; cbn in Hrun.
  - injection Hrun as <-. auto.
  - destruct (step codec q e s) as [s1 |] eqn:Hstep; [| discriminate].
    assert (Hkeep : closed s1 = true /\ sent s1 = sent s).
    { destruct e.
      3: { unfold step in Hstep.
           destruct (pc s) as [| [| msg rest'] ex | |] eqn:Hpc; try discriminate.
           injection Hstep as <-.
           destruct (handle_message_fields msg rest' ex deleteFails s)
             as (_ & _ & -> & -> & _). auto. }
      all: step_cases Hstep; cbn in *; try (rewrite Hclosed in *; discriminate); auto. }
    destruct Hkeep as [Hclosed1 Hsent1].
    destruct (IH s1 Hclosed1 Hrun) as [Hc Hs]. split; [exact Hc | congruence].
Qed.

Lemma In_delete {A} (l : list A) (i : nat) (x : A) : In x (delete i l) -> In x l.
Proof.
  revert i. induction l as [| y l IH]; intros [| i]; cbn; auto.
  intros [-> | Hin]; [now left | right; eauto].
Qed.

Lemma step_handles (e : Event) (s s' : State VaaEvent) (F : list string) :
  step codec q e s = Some s' ->
  (forall h, In h (map fst (deleteCalls s)) \/ In h (handles_in_hand s) -> In h F) ->
  forall h, In h (map fst (deleteCalls s')) \/ In h (handles_in_hand s') ->
            In h (F ++ fetched_handles [e]).
Proof.
  intros Hstep Hold h Hh. apply in_app_iff.
  destruct e.
  3: { left. apply Hold.
       unfold step in Hstep.
       destruct (pc s) as [| [| msg rest] ex | |] eqn:Hpc; try discriminate.
       injection Hstep as <-.
       destruct (handle_message_fields msg rest ex deleteFails s)
         as (Hch & Hheld & _ & _ & _ & _ & Hcase & _).
       unfold handles_in_hand in *. rewrite Hch, Hheld, Hpc in *. cbn [map] in *.
       destruct Hcase as [(Hpc' & _ & _ & Hdel) | (v & Hpc' & _ & _ & Hdel)];
         rewrite Hpc' in Hh.
       - destruct Hdel as [Hdel | [ok Hdel]]; rewrite Hdel in Hh.
         + cbn in *. rewrite !in_app_iff in *. tauto.
         + rewrite map_app in Hh. cbn in *. rewrite !in_app_iff in *. cbn in Hh. tauto.
       - rewrite Hdel in Hh. cbn in *. rewrite !in_app_iff in *. tauto. }
  all: step_cases Hstep; unfold handles_in_hand in *; cbn in *;
    try rewrite E in *; try rewrite E0 in *; try rewrite E1 in *;
    rewrite ?map_app, ?in_app_iff in *; cbn in *.
  all: repeat match goal with
         | Hl : held _ !! _ = Some _ |- _ =>
             apply list_elem_of_lookup_2, list_elem_of_In in Hl
         end.
  all: repeat match type of Hh with
         | _ \/ _ => destruct Hh as [Hh | Hh]
         | In _ (map _ (delete _ _)) =>
             apply in_map_iff in Hh; destruct Hh as (m' & <- & Hh);
             apply In_delete in Hh; apply (in_map msg_id) in Hh
         | In _ (_ :: _) => destruct Hh as [<- | Hh]
         | In _ (_ ++ _) => apply in_app_iff in Hh
         end.
  all: try contradiction.
  all: try (left; apply Hold; rewrite ?map_app, ?in_app_iff; cbn; tauto).
  all: try tauto.
  all: try (left; apply Hold; rewrite ?map_app, ?in_app_iff; cbn;
            right; right; now apply (in_map msg_id)).
  all: left; apply Hold; rewrite ?map_app, ?in_app_iff; cbn [In map];
    rewrite ?in_app_iff; try tauto.
  subst h. right. right. right. now apply (in_map msg_id).
Qed.

(** X18. Every [DeleteMessage] call of a run, whether made for a filtered
    message or by [Done], names the receipt handle of a message that
    [GetMessages] returned earlier in that run. *)
Theorem only_fetched_messages_are_deleted
    (events : list Event) (s : State VaaEvent) (handle : string) (ok : bool) :
  run codec q events NewVAASQS = Some s ->
  In (handle, ok) (deleteCalls s) ->
  In handle (fetched_handles events).
Proof.
  assert (Hgen : forall events s0 s F,
            (forall h, In h (map fst (deleteCalls s0)) \/ In h (handles_in_hand s0) -> In h F) ->
            run codec q events s0 = Some s ->
            forall h, In h (map fst (deleteCalls s)) \/ In h (handles_in_hand s) ->
                      In h (F ++ fetched_handles events)).
  { clear. induction events as [| e rest IH]; intros s0 s F Hold Hrun; cbn in Hrun.
    - injection Hrun as <-. intros h Hh. apply in_app_iff. left. now apply Hold.
    - destruct (step codec q e s0) as [s1 |] eqn:Hstep; [| discriminate].
      intros h Hh.
      pose proof (IH s1 s _ (step_handles e s0 s1 F Hstep Hold) Hrun h Hh) as Hin.
      unfold fetched_handles in *. cbn [map concat] in *.
      rewrite app_nil_r in Hin. now rewrite <- app_assoc in Hin. }
  intros Hrun Hin.
  apply (Hgen events NewVAASQS s []); [| exact Hrun |].
  - cbn. tauto.
  - left. change handle with (fst (handle, ok)). now apply in_map.
Qed.

End ConsumerMore.

Lemma sample_run : run test_codec test_queue sample_events NewVAASQS = Some sample_state.
Proof. vm_compute. reflexivity. Defined.

Lemma wait_group_counts_in_flight_witness :
  wg sample_state = 1
  /\ wg sample_state
     = Z.of_nat (length (ch sample_state) + length (held sample_state)
                 + pending (pc sample_state))
  /\ 0 <= wg sample_state.
Proof.
  split; [reflexivity |].
  exact (wait_group_counts_in_flight test_codec test_queue sample_events sample_state
           sample_run).
Defined.

Lemma channel_is_bounded_witness :
  length (ch sample_state) = 1%nat /\ (length (ch sample_state) <= chSize test_queue)%nat.
Proof.
  split; [reflexivity |].
  exact (channel_is_bounded test_codec test_queue sample_events sample_state sample_run).
Defined.

Lemma in_flight_messages_share_batch_witness :
  exists expiry,
    Forall (fun m => msg_expiredAt m = expiry) (ch sample_state ++ held sample_state)
    /\ (forall e, batch_expiry (pc sample_state) = Some e -> e = expiry).
Proof.
  exact (in_flight_messages_share_batch test_codec test_queue sample_events sample_state
           sample_run).
Defined.

Lemma metrics_account_for_messages_witness :
  counter_total (metrics sample_state) VaaConsumedQueue = 3%nat
  /\ counter_total (metrics sample_state) VaaUnfiltered
     = (length (sent sample_state) + pending (pc sample_state))%nat.
Proof.
  split; [reflexivity |].
  exact (proj1 (metrics_account_for_messages test_codec test_queue sample_events
                  sample_state sample_run)).
Defined.

Lemma only_fetched_messages_are_deleted_witness :
  deleteCalls sample_state = [("h2", true); ("h1", true)]
  /\ In "h1" (fetched_handles sample_events).
Proof.
  split; [reflexivity |].
  apply (only_fetched_messages_are_deleted test_codec test_queue sample_events
           sample_state "h1" true sample_run).
  right. left. reflexivity.
Defined.

Lemma nothing_sent_after_Close_witness :
  let later :=
    [Receive; Failed 0; WaitReturns;
     GetMessagesReturns [sqs_message "6" "h4"] 2000; HandleMessage false; SendPanics] in
  exists s',
    run test_codec test_queue later sample_closed = Some s'
    /\ pc s' = Panicked
    /\ closed s' = true /\ sent s' = sent sample_closed.
Proof.
  intros later. eexists. split; [vm_compute; reflexivity |]. split; [reflexivity |].
  eapply (nothing_sent_after_Close test_codec test_queue later sample_closed).
  - reflexivity.
  - vm_compute. reflexivity.
Defined.

Section ConsumerLease.
Context {VaaEvent : Type} (codec : Codec VaaEvent) (q : SQS VaaEvent).

Lemma leased_more (pre : list Event) (e : Event) (m : sqsConsumerMessage VaaEvent) :
  leased q pre m -> leased q (pre ++ [e]) m.
Proof.
  intros (messages & now & Hin & Hrest). exists messages, now.
  split; [apply in_app_iff; now left | exact Hrest].
Qed.

Lemma leased_intro (pre : list Event) (messages : list SqsMessage) (now : Z)
    (handle : string) (v : VaaEvent) :
  In (GetMessagesReturns messages now) pre ->
  In handle (map ReceiptHandle messages) ->
  leased q pre {| msg_id := handle; msg_data := v;
                  msg_expiredAt := now + GetVisibilityTimeout q |}.
Proof.
  intros Hin Hhandle. exists messages, now. repeat split; auto.
  - unfold IsExpired. cbn. apply Z.ltb_lt.
  - unfold IsExpired. cbn. apply Z.ltb_lt.
Qed.

Lemma in_hand_from_more (pre : list Event) (e : Event) (s s' : State VaaEvent) :
  pc s' = pc s -> in_hand_from q pre s -> in_hand_from q (pre ++ [e]) s'.
Proof.
  unfold in_hand_from. intros ->.
  destruct (pc s) as [| msgs ex | m msgs ex |]; auto.
  - intros (messages & now & Hin & Heq & Hsub). exists messages, now.
    split; [apply in_app_iff; now left | auto].
  - intros (Hm & messages & now & Hin & Heq & Hsub).
    split; [now apply leased_more |]. exists messages, now.
    split; [apply in_app_iff; now left | auto].
Qed.

Lemma step_leased (e : Event) (s s' : State VaaEvent) (pre : list Event) :
  step codec q e s = Some s' ->
  Forall (leased q pre) (ch s ++ held s) /\ in_hand_from q pre s ->
  Forall (leased q (pre ++ [e])) (ch s' ++ held s') /\ in_hand_from q (pre ++ [e]) s'.
Proof.
  intros Hstep [Hall Hhand].
  assert (Hall' : Forall (leased q (pre ++ [e])) (ch s ++ held s)).
  { eapply List.Forall_impl; [| exact Hall]. intros m. apply leased_more. }
  clear Hall. apply Forall_app in Hall'. destruct Hall' as [Hch Hheld].
  destruct e.
  - (* GetMessagesFails *)
    step_cases Hstep. cbn. split; [apply Forall_app; auto | exact I].
  - (* GetMessagesReturns *)
    step_cases Hstep. cbn. split; [apply Forall_app; auto |].
    exists messages, now. split; [apply in_app_iff; right; now left | auto].
  - (* HandleMessage *)
    unfold step in Hstep.
    destruct (pc s) as [| [| msg rest] ex | |] eqn:Hpc; try discriminate.
    injection Hstep as <-.
    destruct (handle_message_fields codec q msg rest ex deleteFails s)
      as (Hch' & Hheld' & _ & _ & _ & _ & Hcase & _).
    rewrite Hch', Hheld'. split; [apply Forall_app; auto |].
    unfold in_hand_from in *. rewrite Hpc in Hhand.
    destruct Hhand as (messages & now & Hin & -> & Hsub).
    assert (Hin' : In (GetMessagesReturns messages now)
                     (pre ++ [HandleMessage deleteFails]))
      by (apply in_app_iff; now left).
    destruct Hcase as [(-> & _) | (v & -> & _)].
    + exists messages, now. repeat split; auto. intros x Hx. apply Hsub. now right.
    + split.
      * apply (leased_intro _ messages now); [exact Hin' |].
        apply in_map. apply Hsub. now left.
      * exists messages, now. repeat split; auto. intros x Hx. apply Hsub. now right.
  - (* SendBuffered *)
    step_cases Hstep. unfold in_hand_from in *. rewrite E in Hhand. cbn.
    destruct Hhand as (Hm & messages0 & now & Hin & Heq & Hsub).
    split.
    + rewrite <- app_assoc. apply Forall_app. split; [exact Hch |].
      apply Forall_app. split; [| exact Hheld].
      constructor; [now apply leased_more | constructor].
    + exists messages0, now. split; [apply in_app_iff; now left | auto].
  - (* SendToReceiver *)
    step_cases Hstep. unfold in_hand_from in *. rewrite E in Hhand. cbn.
    destruct Hhand as (Hm & messages0 & now & Hin & Heq & Hsub).
    split.
    + apply Forall_app. split; [exact Hch |].
      apply Forall_app. split; [exact Hheld |].
      constructor; [now apply leased_more | constructor].
    + exists messages0, now. split; [apply in_app_iff; now left | auto].
  - (* SendPanics *)
    step_cases Hstep. cbn. split; [apply Forall_app; auto | exact I].
  - (* WaitReturns *)
    step_cases Hstep. cbn. split; [apply Forall_app; auto | exact I].
  - (* Receive *)
    assert (Hpc : pc s' = pc s) by (step_cases Hstep; reflexivity).
    split; [| exact (in_hand_from_more pre _ s s' Hpc Hhand)].
    step_cases Hstep; cbn; apply Forall_cons in Hch;
      destruct Hch as [Hm Hrest];
      (apply Forall_app; split; [exact Hrest |]);
      (apply Forall_app; split; [exact Hheld | constructor; [exact Hm | constructor]]).
  - (* Done *)
    assert (Hpc : pc s' = pc s) by (step_cases Hstep; reflexivity).
    split; [| exact (in_hand_from_more pre _ s s' Hpc Hhand)].
    step_cases Hstep; cbn; (apply Forall_app; split; [exact Hch |]);
      now apply Forall_delete.
  - (* Failed *)
    assert (Hpc : pc s' = pc s) by (step_cases Hstep; reflexivity).
    split; [| exact (in_hand_from_more pre _ s s' Hpc Hhand)].
    step_cases Hstep; cbn; (apply Forall_app; split; [exact Hch |]);
      now apply Forall_delete.
  - (* Close *)
    assert (Hpc : pc s' = pc s) by (step_cases Hstep; reflexivity).
    split; [| exact (in_hand_from_more pre _ s s' Hpc Hhand)].
    step_cases Hstep; cbn; apply Forall_app; auto.
Qed.

(** X19. A message in the channel or in a worker's hands was fetched by a
    [GetMessages] call of the run; its expiry is the time of that fetch
    plus the queue's visibility timeout, so that [IsExpired] answers true
    exactly from then on. *)
Theorem in_flight_messages_are_leased
    (events : list Event) (s : State VaaEvent) (m : sqsConsumerMessage VaaEvent) :
  run codec q events NewVAASQS = Some s ->
  In m (ch s ++ held s) ->
  leased q events m.
Proof.
  assert (Hgen : forall events s0 s pre,
            Forall (leased q pre) (ch s0 ++ held s0) /\ in_hand_from q pre s0 ->
            run codec q events s0 = Some s ->
            Forall (leased q (pre ++ events)) (ch s ++ held s)).
  { clear. induction events as [| e rest IH]; intros s0 s pre Hinv Hrun; cbn in Hrun.
    - injection Hrun as <-. rewrite app_nil_r. tauto.
    - destruct (step codec q e s0) as [s1 |] eqn:Hstep; [| discriminate].
      pose proof (IH s1 s (pre ++ [e]) (step_leased e s0 s1 pre Hstep Hinv) Hrun) as Hall.
      now rewrite <- app_assoc in Hall. }
  intros Hrun Hin.
  pose proof (Hgen events NewVAASQS s [] (conj (Forall_nil_2 _) I) Hrun) as Hall.
  cbn in Hall. rewrite List.Forall_forall in Hall. now apply Hall.
Qed.

End ConsumerLease.

Lemma in_flight_messages_are_leased_witness :
  let m := {| msg_id := "h3"; msg_data := 4; msg_expiredAt := 1030 |} in
  ch sample_state = [m] /\ leased test_queue sample_events m.
Proof.
  intros m. split; [reflexivity |].
  apply (in_flight_messages_are_leased test_codec test_queue sample_events sample_state m
           sample_run).
  left. reflexivity.
Defined.
